(** * Age-distribution data of [create-plots.py]: normalisation and coarse binning

    The script defines literal survey datasets, turns two of them from raw
    counts into percentages, and re-expresses five of them over one common set
    of five coarse age bins.  This development embeds that arithmetic the way
    Python evaluates it: integers are unbounded ([Z]), floats are IEEE-754
    binary64 (Rocq's primitive [float]), mixed operands are promoted as Python
    promotes them, and an exception aborts the evaluation.  The plotting calls
    between the assignments read the lists without changing them and are
    left out. *)

From Stdlib Require Import ZArith QArith Qabs Qpower List Bool Lia Lqa.
From Stdlib Require Import Floats.
Import ListNotations.

(** Decimal literals denote the nearest binary64 value, as in Python. *)
Set Warnings "-inexact-float".

Local Open Scope Z_scope.

(** ** Python values and exceptions *)

(** The numbers the script manipulates: [int] and [float] objects. *)
Inductive value : Type :=
| VInt (n : Z)
| VFloat (x : float).

(** The exceptions its arithmetic and indexing can raise. *)
Inductive exn : Type :=
| ZeroDivisionError
| OverflowError
| IndexError.

(** Outcome of evaluating an expression: a result or a raised exception. *)
Inductive result (A : Type) : Type :=
| Ok (a : A)
| Raise (e : exn).

Arguments Ok {A} a.
Arguments Raise {A} e.

Definition bind {A B : Type} (r : result A) (k : A -> result B) : result B :=
  match r with
  | Ok a => k a
  | Raise e => Raise e
  end.

Declare Scope py_scope.
Delimit Scope py_scope with py.
Notation "x <- e ;; k" := (bind e (fun x => k))
  (at level 61, e at next level, right associativity) : py_scope.
Local Open Scope py_scope.

(** Evaluate the items of a list display or a comprehension from left to
    right; the first exception raised is the outcome. *)
Fixpoint py_list {A : Type} (items : list (result A)) : result (list A) :=
  match items with
  | [] => Ok []
  | r :: rest => a <- r ;; l <- py_list rest ;; Ok (a :: l)
  end.

(** [[f x for x in xs]]. *)
Definition py_comprehension {A B : Type} (f : A -> result B) (xs : list A)
  : result (list B) :=
  py_list (map f xs).

(** ** Arithmetic *)

(** An integer as an (unnormalised) binary floating-point datum. *)
Definition Z2SF (n : Z) : spec_float :=
  match n with
  | Z0 => S754_zero false
  | Zpos p => S754_finite false p 0
  | Zneg p => S754_finite true p 0
  end.

(** [float(n)]: the binary64 nearest to [n], ties to even;
    [OverflowError] when [n] is too large. *)
Definition int_to_float (n : Z) : result float :=
  match binary_normalize prec emax n 0 false with
  | S754_infinity _ => Raise OverflowError
  | sf => Ok (SF2Prim sf)
  end.

(** [a / b] on two [int]s: the correctly rounded quotient. *)
Definition int_truediv (a b : Z) : result float :=
  if b =? 0 then Raise ZeroDivisionError
  else match SFdiv prec emax (Z2SF a) (Z2SF b) with
       | S754_infinity _ => Raise OverflowError
       | sf => Ok (SF2Prim sf)
       end.

(** [a / b] on two [float]s. *)
Definition float_truediv (x y : float) : result float :=
  if (y =? 0)%float then Raise ZeroDivisionError else Ok (x / y)%float.

Definition as_float (v : value) : result float :=
  match v with
  | VInt n => int_to_float n
  | VFloat x => Ok x
  end.

(** [a + b]. *)
Definition py_add (a b : value) : result value :=
  match a, b with
  | VInt m, VInt n => Ok (VInt (m + n))
  | _, _ => x <- as_float a ;; y <- as_float b ;; Ok (VFloat (x + y))
  end.

(** [a * b]. *)
Definition py_mul (a b : value) : result value :=
  match a, b with
  | VInt m, VInt n => Ok (VInt (m * n))
  | _, _ => x <- as_float a ;; y <- as_float b ;; Ok (VFloat (x * y))
  end.

(** [a / b]. *)
Definition py_truediv (a b : value) : result value :=
  match a, b with
  | VInt m, VInt n => q <- int_truediv m n ;; Ok (VFloat q)
  | _, _ => x <- as_float a ;; y <- as_float b ;;
            q <- float_truediv x y ;; Ok (VFloat q)
  end.

(** [sum(xs)]: the items added from left to right onto the integer [0]. *)
Definition py_sum (xs : list value) : result value :=
  fold_left (fun acc x => a <- acc ;; py_add a x) xs (Ok (VInt 0)).

(** [xs[i]], a negative [i] counting from the end. *)
Definition py_index (xs : list value) (i : Z) : result value :=
  let n := Z.of_nat (length xs) in
  let j := if i <? 0 then i + n else i in
  if (j <? 0) || (n <=? j) then Raise IndexError
  else match nth_error xs (Z.to_nat j) with
       | Some v => Ok v
       | None => Raise IndexError
       end.

(** [xs[:-1]]. *)
Definition py_drop_last (xs : list value) : list value := removelast xs.

(** ** The datasets *)

Definition opensuse_values : list value :=
  [VInt 19; VInt 26; VInt 42; VFloat 12.5].

Definition stackoverflow_2023_counts : list value :=
  [VInt 4128; VInt 17931; VInt 33247; VInt 20532;
   VInt 8334; VInt 3392; VInt 1171; VInt 449].

Definition stackoverflow_2023_total : result value :=
  py_sum stackoverflow_2023_counts.

Definition stackoverflow_2023_values : result (list value) :=
  total <- stackoverflow_2023_total ;;
  py_comprehension
    (fun count => q <- py_truediv count total ;; py_mul q (VInt 100))
    stackoverflow_2023_counts.

Definition stackoverflow_2025_values : list value :=
  [VInt 0; VFloat 18.7; VFloat 33.6; VFloat 26.9;
   VFloat 12.8; VFloat 5.3; VFloat 1.9; VFloat 0.8].

Definition stackoverflow_2021_values : list value :=
  [VFloat 6.52; VFloat 25.47; VFloat 39.52; VFloat 18.42;
   VFloat 6.64; VFloat 2.21; VFloat 0.51; VFloat 0.7].

Definition stackoverflow_2016_values : result (list value) :=
  py_list
    [ Ok (VFloat 4.3);
      Ok (VFloat 26.4);
      py_add (VFloat 28.4) (VFloat 18.1);
      Ok (VFloat 14.7);
      Ok (VFloat 6.0);
      Ok (VFloat 2.0);
      Ok (VFloat 0.3) ].

Definition linux_foundation_values : list value :=
  [VInt 8; VInt 22; VInt 29; VInt 21; VInt 13; VInt 4; VInt 2; VInt 1].

Definition debian_counts : list value :=
  [VInt 15; VInt 132; VInt 378; VInt 225; VInt 57; VInt 15].

Definition debian_total : result value := py_sum debian_counts.

Definition debian_values : result (list value) :=
  total <- debian_total ;;
  py_comprehension
    (fun count => q <- py_truediv count total ;; py_mul q (VInt 100))
    debian_counts.

Definition cncf_values : list value :=
  [VInt 1; VInt 22; VInt 32; VInt 25; VInt 12; VInt 7].

Definition so_values_for_reference : result (list value) :=
  vs <- stackoverflow_2023_values ;; Ok (py_drop_last vs).

(** ** The coarse bins *)

Definition coarse_bins : nat := 5.

Definition opensuse_coarse : result (list value) :=
  py_list
    [ py_index opensuse_values 0;
      py_index opensuse_values 1;
      (v <- py_index opensuse_values 2 ;; py_mul v (VFloat 0.67));
      (v <- py_index opensuse_values 2 ;; py_mul v (VFloat 0.33));
      py_index opensuse_values 3 ].

Definition stackoverflow_coarse : result (list value) :=
  vs <- stackoverflow_2023_values ;;
  py_list
    [ (a <- py_index vs 0 ;; b <- py_index vs 1 ;; py_add a b);
      py_index vs 2;
      py_index vs 3;
      py_index vs 4;
      (a <- py_index vs 5 ;; b <- py_index vs 6 ;; py_add a b) ].

Definition linux_foundation_coarse : result (list value) :=
  py_list
    [ py_index linux_foundation_values 0;
      py_index linux_foundation_values 1;
      py_index linux_foundation_values 2;
      py_index linux_foundation_values 3;
      (a <- py_index linux_foundation_values 4 ;;
       b <- py_index linux_foundation_values 5 ;;
       ab <- py_add a b ;;
       c <- py_index linux_foundation_values 6 ;;
       py_add ab c) ].

Definition debian_coarse : result (list value) :=
  vs <- debian_values ;;
  py_list
    [ (a <- py_index vs 0 ;; b <- py_index vs 1 ;;
       p <- py_mul b (VFloat 0.4) ;; py_add a p);
      (a <- py_index vs 1 ;; p <- py_mul a (VFloat 0.6) ;;
       b <- py_index vs 2 ;; q <- py_mul b (VFloat 0.4) ;; py_add p q);
      (a <- py_index vs 2 ;; p <- py_mul a (VFloat 0.6) ;;
       b <- py_index vs 3 ;; q <- py_mul b (VFloat 0.4) ;; py_add p q);
      (a <- py_index vs 3 ;; p <- py_mul a (VFloat 0.6) ;;
       b <- py_index vs 4 ;; q <- py_mul b (VFloat 0.4) ;; py_add p q);
      (a <- py_index vs 4 ;; p <- py_mul a (VFloat 0.6) ;;
       b <- py_index vs 5 ;; py_add p b) ].

Definition cncf_coarse : result (list value) :=
  py_list
    [ (a <- py_index cncf_values 0 ;; b <- py_index cncf_values 1 ;;
       py_add a b);
      py_index cncf_values 2;
      py_index cncf_values 3;
      py_index cncf_values 4;
      py_index cncf_values 5 ].

(** ** Counts to percentages *)

(** The conversion the script spells out twice, for the Stack Overflow 2023
    counts and for the Debian counts:
    [total = sum(counts)], then [[count / total * 100 for count in counts]]. *)
Definition counts_to_percentages (counts : list value) : result (list value) :=
  total <- py_sum counts ;;
  py_comprehension
    (fun count => q <- py_truediv count total ;; py_mul q (VInt 100))
    counts.

(** The integer sum of a list of counts. *)
Definition Zsum (ns : list Z) : Z := fold_right Z.add 0 ns.

(** ** Exact values *)

(** [2 ^ e] as a rational. *)
Definition Qpow2 (e : Z) : Q :=
  match e with
  | Z0 => 1
  | Zpos p => inject_Z (Z.pow_pos 2 p)
  | Zneg p => 1 # (Pos.pow 2 p)
  end.

(** The rational a finite binary floating-point datum stands for. *)
Definition SF2Q (sf : spec_float) : option Q :=
  match sf with
  | S754_zero _ => Some 0
  | S754_finite s m e => Some (inject_Z (cond_Zopp s (Zpos m)) * Qpow2 e)
  | S754_infinity _ | S754_nan => None
  end%Q.

(** The rational a Python number stands for; none for infinities and NaN. *)
Definition value_to_Q (v : value) : option Q :=
  match v with
  | VInt n => Some (inject_Z n)
  | VFloat x => SF2Q (Prim2SF x)
  end.

(** The sum of a list of numbers in exact arithmetic. *)
Fixpoint exact_sum (l : list value) : option Q :=
  match l with
  | [] => Some 0%Q
  | v :: rest =>
      match value_to_Q v, exact_sum rest with
      | Some q, Some s => Some (q + s)%Q
      | _, _ => None
      end
  end.

(** [v] lies within [tol] of the rational [q]. *)
Definition close_to (tol : Q) (v : value) (q : Q) : Prop :=
  match value_to_Q v with
  | Some x => (Qabs (x - q) <= tol)%Q
  | None => False
  end.

(** The exact sum of [l] lies within [tol] of the rational [q]. *)
Definition sums_to (tol : Q) (l : list value) (q : Q) : Prop :=
  match exact_sum l with
  | Some s => (Qabs (s - q) <= tol)%Q
  | None => False
  end.

(** The exact sums of [l1] and [l2] differ by at most [tol]. *)
Definition same_mass (tol : Q) (l1 l2 : list value) : Prop :=
  match exact_sum l1, exact_sum l2 with
  | Some s1, Some s2 => (Qabs (s1 - s2) <= tol)%Q
  | _, _ => False
  end.

(** [x >= 0] on floats, as Python compares (false on NaN). *)
Definition nonneg (x : float) : Prop := (0 <=? x)%float = true.

(** A float that is a finite number and [>= 0]. *)
Definition finite_nonneg (x : float) : Prop :=
  (0 <=? x)%float = true /\ (x <? infinity)%float = true.

(** [v >= 0] on Python numbers. *)
Definition nonneg_value (v : value) : Prop :=
  match v with
  | VInt n => 0 <= n
  | VFloat x => nonneg x
  end.

(** The data-model invariant of a survey distribution: no negative value, and
    the values add up to 100 give or take one percentage point. *)
Definition distribution_ok (l : list value) : Prop :=
  Forall nonneg_value l /\ sums_to 1 l 100.

(** ** Remapping *)

Section Remap.
Variable num : Type.
Variable zero : num.
Variable add mul : num -> num -> num.

(** Modelled from the spec: a [RemappingRule] entry, the pair of a source
    bin index and the fraction of that bin's value that goes to the target
    bin the entry is listed under.  The script has no such table; it writes
    each target value as an expression over the source list. *)
Definition rule : Type := (nat * num)%type.

(** Modelled from the spec: the term one entry contributes,
    [source_value[index] * fraction]; absent when the index names no
    source bin. *)
Definition contribution (values : list num) (r : rule) : option num :=
  match nth_error values (fst r) with
  | Some v => Some (mul v (snd r))
  | None => None
  end.

(** Modelled from the spec: the sum of the contributions of the entries
    of one target bin, accumulated from left to right. *)
Fixpoint target_value_from (acc : num) (values : list num) (rs : list rule)
  : option num :=
  match rs with
  | [] => Some acc
  | r :: rest =>
      match contribution values r with
      | Some c => target_value_from (add acc c) values rest
      | None => None
      end
  end.

Definition target_value (values : list num) (rs : list rule) : option num :=
  target_value_from zero values rs.

(** Modelled from the spec: the operation [remap(distribution, rules)] of
    the Bin Remapper, one list of entries per target bin; the script does
    not define it as a function.  The result has one value per target
    bin. *)
Fixpoint remap (values : list num) (rules : list (list rule))
  : option (list num) :=
  match rules with
  | [] => Some []
  | rs :: rest =>
      match target_value values rs, remap values rest with
      | Some t, Some ts => Some (t :: ts)
      | _, _ => None
      end
  end.

(** Every entry names a source bin. *)
Definition rules_in_range (n : nat) (rules : list (list rule)) : Prop :=
  Forall (Forall (fun r : rule => (fst r < n)%nat)) rules.
End Remap.

Arguments contribution {num} mul values r.
Arguments target_value_from {num} add mul acc values rs.
Arguments target_value {num} zero add mul values rs.
Arguments remap {num} zero add mul values rules.
Arguments rules_in_range {num} n rules.

(** Remapping in binary64 arithmetic, as the script computes. *)
Definition remap_float : list float -> list (list (rule float)) ->
                         option (list float) :=
  remap 0%float PrimFloat.add PrimFloat.mul.

(** Remapping in exact rational arithmetic. *)
Definition remap_exact : list Q -> list (list (rule Q)) -> option (list Q) :=
  remap 0%Q Qplus Qmult.

(** Modelled from the spec: the identity rule set over [n] bins, each source
    bin mapped with fraction 1.0 to the target bin of the same index. *)
Definition identity_rules (n : nat) : list (list (rule float)) :=
  map (fun i => [(i, 1%float)]) (seq 0 n).

(** The sum of a list of rationals. *)
Definition Qsum (l : list Q) : Q := fold_right Qplus 0%Q l.

(** The total of the fractions the entries [rs] assign from source bin [i]. *)
Fixpoint fraction_total (rs : list (rule Q)) (i : nat) : Q :=
  match rs with
  | [] => 0
  | (j, f) :: rest =>
      if Nat.eqb j i then f + fraction_total rest i else fraction_total rest i
  end%Q.

(** A rule set is valid up to [eps] for a source of [n] bins: every entry
    names a source bin, and the fractions taken from each source bin add up
    to 1 give or take [eps]. *)
Definition valid_rules (eps : Q) (n : nat) (rules : list (list (rule Q)))
  : Prop :=
  rules_in_range n rules /\
  forall i, (i < n)%nat ->
    (Qabs (fraction_total (concat rules) i - 1) <= eps)%Q.

(** An entry that passes a whole source bin on, and one that passes a part. *)
Definition whole (i : nat) : rule float := (i, 1%float).
Definition part (i : nat) (f : float) : rule float := (i, f).

(** The rule tables the five coarse displays of the script amount to. *)
Definition opensuse_rules : list (list (rule float)) :=
  [ [whole 0]; [whole 1]; [part 2 0.67]; [part 2 0.33]; [whole 3] ].

Definition stackoverflow_rules : list (list (rule float)) :=
  [ [whole 0; whole 1]; [whole 2]; [whole 3]; [whole 4]; [whole 5; whole 6] ].

Definition linux_foundation_rules : list (list (rule float)) :=
  [ [whole 0]; [whole 1]; [whole 2]; [whole 3]; [whole 4; whole 5; whole 6] ].

Definition debian_rules : list (list (rule float)) :=
  [ [whole 0; part 1 0.4]; [part 1 0.6; part 2 0.4]; [part 2 0.6; part 3 0.4];
    [part 3 0.6; part 4 0.4]; [part 4 0.6; whole 5] ].

Definition cncf_rules : list (list (rule float)) :=
  [ [whole 0; whole 1]; [whole 2]; [whole 3]; [whole 4]; [whole 5] ].

(** The floats a list of Python numbers denotes ([float(v)] of each). *)
Definition floats_of (l : list value) : result (list float) :=
  py_comprehension as_float l.

(** The sum of the values of [values], the value of source bin [k + i]
    weighted by [g (k + i)]. *)
Fixpoint weighted_sum (g : nat -> Q) (k : nat) (values : list Q) : Q :=
  match values with
  | [] => 0
  | v :: rest => v * g k + weighted_sum g (S k) rest
  end%Q.

(** The rational a float stands for, 0 for infinities and NaN. *)
Definition Qof_float (x : float) : Q :=
  match SF2Q (Prim2SF x) with
  | Some q => q
  | None => 0%Q
  end.

(** A binary64 rule table read as a table of exact fractions. *)
Definition rules_exact (rules : list (list (rule float)))
  : list (list (rule Q)) :=
  map (map (fun r : rule float => (fst r, Qof_float (snd r)))) rules.

(** The binary floating-point data that are a number [>= 0]: the zeros, the
    positive finite numbers and plus infinity. *)
Definition SF_nonneg (sf : spec_float) : Prop :=
  match sf with
  | S754_zero _ | S754_finite false _ _ | S754_infinity false => True
  | _ => False
  end.

(** Those of them that are finite. *)
Definition SF_finite_nonneg (sf : spec_float) : Prop :=
  match sf with
  | S754_zero _ | S754_finite false _ _ => True
  | _ => False
  end.

(** ** Slices, comparisons and the plotting arithmetic *)

(** [xs[:k]], a negative [k] counting from the end. *)
Definition py_slice_to {A : Type} (xs : list A) (k : Z) : list A :=
  let n := Z.of_nat (length xs) in
  let stop := if k <? 0 then Z.max 0 (k + n) else Z.min k n in
  firstn (Z.to_nat stop) xs.

(** [a - b]. *)
Definition py_sub (a b : value) : result value :=
  match a, b with
  | VInt m, VInt n => Ok (VInt (m - n))
  | _, _ => x <- as_float a ;; y <- as_float b ;; Ok (VFloat (x - y))
  end.

(** How the integer [n] compares with the float [y], exactly (Python does
    not round the integer to a float first); none when [y] is a NaN. *)
Definition int_float_compare (n : Z) (y : float) : option comparison :=
  match Prim2SF y with
  | S754_nan => None
  | S754_infinity s => Some (if s then Gt else Lt)
  | S754_zero _ => Some (n ?= 0)
  | S754_finite s m e =>
      Some (n * 2 ^ Z.max 0 (- e) ?= cond_Zopp s (Zpos m) * 2 ^ Z.max 0 e)
  end.

(** [a > b]. *)
Definition py_gt (a b : value) : bool :=
  match a, b with
  | VInt m, VInt n => n <? m
  | VFloat x, VFloat y => (y <? x)%float
  | VInt m, VFloat y =>
      match int_float_compare m y with Some Gt => true | _ => false end
  | VFloat x, VInt n =>
      match int_float_compare n x with Some Lt => true | _ => false end
  end.

(** The scan of [max]: an item replaces the best one so far when it is
    greater. *)
Fixpoint py_max_from (best : value) (xs : list value) : value :=
  match xs with
  | [] => best
  | x :: rest => py_max_from (if py_gt x best then x else best) rest
  end.

(** [max(xs)]: the first of the largest items; [None] stands for the
    [ValueError] Python raises on an empty sequence. *)
Definition py_max (xs : list value) : option value :=
  match xs with
  | [] => None
  | x :: rest => Some (py_max_from x rest)
  end.

(** The outcome of an evaluation with the exception forgotten. *)
Definition returned {A : Type} (r : result A) : option A :=
  match r with
  | Ok a => Some a
  | Raise _ => None
  end.

(** A finite number in units of [2^-1074], the spacing of the smallest
    binary64 numbers; none for infinities and NaN. *)
Definition scaled (v : value) : option Z :=
  match v with
  | VInt n => Some (n * 2 ^ 1074)
  | VFloat x =>
      match Prim2SF x with
      | S754_zero _ => Some 0
      | S754_finite s m e => Some (cond_Zopp s (Zpos m) * 2 ^ (e + 1074))
      | S754_infinity _ | S754_nan => None
      end
  end.

(** A Python number that is finite: an integer, or a float that is neither
    an infinity nor a NaN. *)
Definition is_number (v : value) : Prop := scaled v <> None.

(** The age positions of the charts. *)
Definition so_age_positions : list value :=
  [VInt 16; VInt 21; VFloat 29.5; VFloat 39.5; VFloat 49.5; VFloat 59.5; VInt 70].

Definition opensuse_age_positions : list value :=
  [VInt 20; VFloat 29.5; VInt 42; VInt 60].

Definition stackoverflow_age_positions_plot : list value :=
  [VInt 14; VInt 21; VFloat 29.5; VFloat 39.5; VFloat 49.5; VFloat 59.5; VInt 70].

Definition linux_foundation_age_positions : list value :=
  [VInt 21; VFloat 29.5; VFloat 39.5; VFloat 49.5; VFloat 59.5; VFloat 69.5;
   VFloat 77.5].

Definition lf_values : list value := py_slice_to linux_foundation_values 7.

Definition debian_age_positions : list value :=
  [VInt 16; VFloat 24.5; VFloat 34.5; VFloat 44.5; VFloat 54.5; VInt 65].

Definition cncf_age_positions : list value :=
  [VInt 13; VInt 21; VFloat 29.5; VFloat 39.5; VFloat 49.5; VInt 60].

(** [enumerate(xs)]. *)
Definition enumerate {A : Type} (xs : list A) : list (Z * A) :=
  combine (map Z.of_nat (seq 0 (length xs))) xs.

(** The loop that labels the bars of an individual chart,
    [for i, value in enumerate(values): ax.text(positions[i], value, ...)]:
    the anchor points of the labels, in order. *)
Definition text_anchors (positions values : list value)
  : result (list (value * value)) :=
  py_comprehension
    (fun iv : Z * value => p <- py_index positions (fst iv) ;; Ok (p, snd iv))
    (enumerate values).

(** The map from an age to the x axis of the combined chart,
    [(age - 15) / (70 - 15) * 5 - 0.5]. *)
Definition age_to_x (age : value) : result value :=
  d <- py_sub age (VInt 15) ;;
  r <- py_sub (VInt 70) (VInt 15) ;;
  q <- py_truediv d r ;;
  p <- py_mul q (VInt 5) ;;
  py_sub p (VFloat 0.5).

Definition so_x_positions : result (list value) :=
  py_comprehension age_to_x so_age_positions.

(** The upper limit of the y axis of the combined chart: the largest of the
    maxima of the five coarse lists, times 1.15; [None] when a step
    raises. *)
Definition ylim_top : option value :=
  match returned opensuse_coarse, returned stackoverflow_coarse,
        returned linux_foundation_coarse, returned debian_coarse,
        returned cncf_coarse with
  | Some a, Some b, Some c, Some d, Some e =>
      match py_max a, py_max b, py_max c, py_max d, py_max e with
      | Some ma, Some mb, Some mc, Some md, Some me =>
          match py_max [ma; mb; mc; md; me] with
          | Some m => returned (py_mul m (VFloat 1.15))
          | None => None
          end
      | _, _, _, _, _ => None
      end
  | _, _, _, _, _ => None
  end.

(** * Evaluating the script *)

(** Closes a goal that computation decides: an equation between closed terms,
    or a comparison of closed rationals. *)
Ltac by_computation :=
  vm_compute;
  first [ reflexivity | let H := fresh in intro H; discriminate H ].

Lemma stackoverflow_2023_total_eval :
  stackoverflow_2023_total = Ok (VInt 89184).
Proof. reflexivity. Qed.

Lemma debian_total_eval : debian_total = Ok (VInt 822).
Proof. reflexivity. Qed.

Lemma stackoverflow_2023_values_eval :
  stackoverflow_2023_values =
  Ok [VFloat 4.6286329386437028; VFloat 20.105624327233585;
      VFloat 37.279108360243988; VFloat 23.022066738428418;
      VFloat 9.3447255113024763; VFloat 3.803372802296376;
      VFloat 1.3130157875852171; VFloat 0.50345353426623607].
Proof. vm_compute. reflexivity. Qed.

Lemma debian_values_eval :
  debian_values =
  Ok [VFloat 1.824817518248175; VFloat 16.058394160583941;
      VFloat 45.985401459854018; VFloat 27.372262773722628;
      VFloat 6.9343065693430654; VFloat 1.824817518248175].
Proof. vm_compute. reflexivity. Qed.

Lemma stackoverflow_2016_values_eval :
  stackoverflow_2016_values =
  Ok [VFloat 4.3; VFloat 26.4; VFloat 46.5; VFloat 14.7;
      VFloat 6; VFloat 2; VFloat 0.3].
Proof. vm_compute. reflexivity. Qed.

Lemma opensuse_coarse_eval :
  opensuse_coarse =
  Ok [VInt 19; VInt 26; VFloat 28.140000000000001;
      VFloat 13.860000000000001; VFloat 12.5].
Proof. vm_compute. reflexivity. Qed.

Lemma stackoverflow_coarse_eval :
  stackoverflow_coarse =
  Ok [VFloat 24.734257265877289; VFloat 37.279108360243988;
      VFloat 23.022066738428418; VFloat 9.3447255113024763;
      VFloat 5.1163885898815931].
Proof. vm_compute. reflexivity. Qed.

Lemma linux_foundation_coarse_eval :
  linux_foundation_coarse = Ok [VInt 8; VInt 22; VInt 29; VInt 21; VInt 19].
Proof. reflexivity. Qed.

Lemma debian_coarse_eval :
  debian_coarse =
  Ok [VFloat 8.2481751824817522; VFloat 28.029197080291972;
      VFloat 38.540145985401459; VFloat 19.197080291970803;
      VFloat 5.985401459854014].
Proof. vm_compute. reflexivity. Qed.

Lemma cncf_coarse_eval :
  cncf_coarse = Ok [VInt 23; VInt 32; VInt 25; VInt 12; VInt 7].
Proof. reflexivity. Qed.

(** * The test vectors *)

(** C4. The openSUSE coarse list has five entries, within rounding of
    19, 26, 28.14, 13.86 and 12.5; the first two are the integers 19 and 26
    and the last is the float 12.5, untouched. *)
Theorem opensuse_remap_test_vector :
  opensuse_values = [VInt 19; VInt 26; VInt 42; VFloat 12.5] /\
  exists c2 c3,
    opensuse_coarse = Ok [VInt 19; VInt 26; c2; c3; VFloat 12.5] /\
    py_mul (VInt 42) (VFloat 0.67) = Ok c2 /\
    py_mul (VInt 42) (VFloat 0.33) = Ok c3 /\
    close_to (1 # 1000000000000) c2 (2814 # 100) /\
    close_to (1 # 1000000000000) c3 (1386 # 100).
Proof.
  split; [reflexivity|].
  exists (VFloat 28.140000000000001), (VFloat 13.860000000000001).
  repeat split; try (vm_compute; reflexivity); by_computation.
Qed.

(** C5, as the spec states it, fails: the Debian counts add up to 822, not
    812, so the first percentage is 15/822*100 = 1.8248..., which is more
    than 0.01 away both from 15/812*100 and from 1.84. *)
Lemma debian_first_element_counterexample :
  debian_total = Ok (VInt 822) /\
  ~ (exists l v,
       debian_values = Ok l /\ nth_error l 0 = Some v /\
       (close_to (1 # 100) v (1500 # 812) \/ close_to (1 # 100) v (184 # 100))).
Proof.
  split; [reflexivity|].
  intros (l & v & Hl & Hv & Hc).
  rewrite debian_values_eval in Hl. injection Hl as <-.
  injection Hv as <-.
  destruct Hc as [Hc | Hc]; vm_compute in Hc; apply Hc; reflexivity.
Qed.

(** C5, amended. Converting the Debian counts [15, 132, 378, 225, 57, 15]
    (total 822) yields six percentages whose exact sum is within 1e-6 of
    100, the first being 15/822*100 up to rounding, that is 1.82 to two
    decimals. *)
Theorem debian_test_vector :
  debian_counts = [VInt 15; VInt 132; VInt 378; VInt 225; VInt 57; VInt 15] /\
  debian_total = Ok (VInt 822) /\
  exists l v,
    debian_values = Ok l /\ length l = 6%nat /\
    sums_to (1 # 1000000) l 100 /\
    nth_error l 0 = Some v /\
    close_to (1 # 1000000000000) v (1500 # 822) /\
    close_to (1 # 200) v (182 # 100).
Proof.
  split; [reflexivity|]. split; [reflexivity|].
  eexists; eexists. split; [apply debian_values_eval|].
  split; [reflexivity|]. split; [by_computation|].
  split; [reflexivity|]. split; by_computation.
Qed.

(** C6. The CNCF coarse list is exactly [23, 32, 25, 12, 7]: the first two
    source bins merged ([1 + 22]) and the other four passed through; it adds
    up to 99, as the source values do. *)
Theorem cncf_remap_test_vector :
  cncf_values = [VInt 1; VInt 22; VInt 32; VInt 25; VInt 12; VInt 7] /\
  exists cs,
    cncf_coarse = Ok cs /\
    cs = [VInt 23; VInt 32; VInt 25; VInt 12; VInt 7] /\
    cs = VInt (1 + 22) :: skipn 2 cncf_values /\
    py_sum cs = Ok (VInt 99) /\
    py_sum cncf_values = Ok (VInt 99).
Proof.
  split; [reflexivity|].
  eexists. split; [apply cncf_coarse_eval|]. repeat split.
Qed.

(** C8. Each survey distribution the script defines has only non-negative
    values, and its values add up to 100 give or take one percentage
    point. *)
Theorem datasets_invariant :
  distribution_ok opensuse_values /\
  (exists l, stackoverflow_2016_values = Ok l /\ distribution_ok l) /\
  distribution_ok stackoverflow_2021_values /\
  (exists l, stackoverflow_2023_values = Ok l /\ distribution_ok l) /\
  distribution_ok stackoverflow_2025_values /\
  distribution_ok linux_foundation_values /\
  (exists l, debian_values = Ok l /\ distribution_ok l) /\
  distribution_ok cncf_values.
Proof.
  assert (Hok : forall l, Forall nonneg_value l -> sums_to 1 l 100 ->
                          distribution_ok l) by (intros; split; assumption).
  repeat match goal with
         | |- _ /\ _ => split
         | |- exists l, stackoverflow_2016_values = _ /\ _ =>
             eexists; split; [apply stackoverflow_2016_values_eval|]
         | |- exists l, stackoverflow_2023_values = _ /\ _ =>
             eexists; split; [apply stackoverflow_2023_values_eval|]
         | |- exists l, debian_values = _ /\ _ =>
             eexists; split; [apply debian_values_eval|]
         end;
    (apply Hok; [repeat constructor; by_computation | by_computation]).
Qed.

(** C10. The two coarse lists built from a source with a "No answer" bin
    leave that bin out: the Stack Overflow coarse values add up to
    100 * (89184 - 449) / 89184 (within rounding), strictly less than the
    source values, which add up to 100 (within rounding), the gap being the
    last source value; the Linux Foundation coarse values add up to exactly
    99 and the source values to exactly 100. *)
Theorem no_answer_bin_dropped :
  (exists vs cs ref last,
     stackoverflow_2023_values = Ok vs /\
     stackoverflow_coarse = Ok cs /\
     so_values_for_reference = Ok ref /\
     vs = ref ++ [last] /\
     close_to (1 # 1000000000000) last (44900 # 89184) /\
     sums_to (1 # 1000000000000) vs 100 /\
     sums_to (1 # 1000000000000) cs (100 * (89184 - 449) # 89184) /\
     same_mass (1 # 1000000000000) cs ref /\
     exists sv sc, exact_sum vs = Some sv /\ exact_sum cs = Some sc /\
                   (sc < sv)%Q /\ (sc < 100)%Q) /\
  (exists cs,
     linux_foundation_coarse = Ok cs /\
     py_sum cs = Ok (VInt 99) /\
     py_sum linux_foundation_values = Ok (VInt 100) /\
     py_index linux_foundation_values (-1) = Ok (VInt 1)).
Proof.
  split.
  - do 4 eexists.
    split; [apply stackoverflow_2023_values_eval|].
    split; [apply stackoverflow_coarse_eval|].
    split; [unfold so_values_for_reference;
            rewrite stackoverflow_2023_values_eval; reflexivity|].
    split; [reflexivity|].
    split; [by_computation|]. split; [by_computation|].
    split; [by_computation|]. split; [by_computation|].
    do 2 eexists. split; [vm_compute; reflexivity|].
    split; [vm_compute; reflexivity|]. split; reflexivity.
  - eexists. split; [apply linux_foundation_coarse_eval|]. repeat split.
Qed.

(** * Rounding never overflows on small quotients *)

Lemma fexp_eq (e : Z) : fexp prec emax e = Z.max (e - 53) (-1074).
Proof. reflexivity. Qed.

Lemma digits2_pos_size (p : positive) : digits2_pos p = Pos.size p.
Proof. induction p; simpl; congruence. Qed.

Lemma Zdigits2_log2 (p : positive) : Zdigits2 (Zpos p) = Z.log2 (Zpos p) + 1.
Proof.
  destruct p; simpl; rewrite ?digits2_pos_size; try reflexivity;
    rewrite Pos.add_1_r; reflexivity.
Qed.

Lemma Zdigits2_nonneg (m : Z) : 0 <= m -> 0 <= Zdigits2 m.
Proof. destruct m; simpl; lia. Qed.

Lemma Zdigits2_le_pow2 (m k : Z) :
  0 <= m -> 0 <= k -> m < 2 ^ k -> Zdigits2 m <= k.
Proof.
  intros Hm Hk Hlt. destruct m as [|p|p]; [simpl; lia| |lia].
  rewrite Zdigits2_log2.
  assert (Z.log2 (Zpos p) < k) by (apply Z.log2_lt_pow2; lia). lia.
Qed.

Lemma Zdigits2_mono (a b : Z) : 0 <= a <= b -> Zdigits2 a <= Zdigits2 b.
Proof.
  intros [Ha Hab].
  destruct a as [|p|p]; [apply Zdigits2_nonneg; lia| |lia].
  destruct b as [|q|q]; try lia.
  rewrite !Zdigits2_log2.
  assert (Z.log2 (Zpos p) <= Z.log2 (Zpos q)) by (apply Z.log2_le_mono; lia).
  lia.
Qed.

Lemma shr_1_bounds (mrs : shr_record) :
  0 <= shr_m mrs -> 0 <= shr_m (shr_1 mrs) <= shr_m mrs.
Proof.
  destruct mrs as [m r s]; simpl. intros Hm.
  destruct m as [|p|p]; [simpl; lia| |lia].
  destruct p; simpl; lia.
Qed.

Lemma iter_pos_shr_1_bounds (p : positive) :
  forall mrs, 0 <= shr_m mrs ->
              0 <= shr_m (iter_pos shr_1 p mrs) <= shr_m mrs.
Proof.
  induction p as [p IH | p IH |]; intros mrs Hm; simpl.
  - pose proof (shr_1_bounds mrs Hm) as H1.
    pose proof (IH _ (proj1 H1)) as H2.
    pose proof (IH _ (proj1 H2)) as H3. lia.
  - pose proof (IH _ Hm) as H2.
    pose proof (IH _ (proj1 H2)) as H3. lia.
  - apply shr_1_bounds, Hm.
Qed.

Lemma shr_bounds (mrs : shr_record) (e n : Z) :
  0 <= shr_m mrs ->
  0 <= shr_m (fst (shr mrs e n)) <= shr_m mrs /\
  snd (shr mrs e n) = e + Z.max 0 n.
Proof.
  intros Hm. destruct n as [|p|p]; simpl; try lia.
  split; [apply iter_pos_shr_1_bounds, Hm | lia].
Qed.

Lemma shr_m_of_loc (m : Z) (l : location) : shr_m (shr_record_of_loc m l) = m.
Proof. destruct l as [|[]]; reflexivity. Qed.

Lemma shr_fexp_bounds (m e : Z) (l : location) :
  0 <= m ->
  0 <= shr_m (fst (shr_fexp prec emax m e l)) <= m /\
  snd (shr_fexp prec emax m e l) = Z.max e (fexp prec emax (Zdigits2 m + e)).
Proof.
  intros Hm. unfold shr_fexp.
  destruct (shr_bounds (shr_record_of_loc m l) e
              (fexp prec emax (Zdigits2 m + e) - e)) as [H1 H2].
  - rewrite shr_m_of_loc; exact Hm.
  - rewrite shr_m_of_loc in H1. split; [exact H1 | rewrite H2; lia].
Qed.

Lemma round_nearest_even_bounds (m : Z) (l : location) :
  m <= round_nearest_even m l <= m + 1.
Proof.
  destruct l as [|[]]; simpl; try lia. destruct (Z.even m); lia.
Qed.

(** The datum [binary_round_aux] builds from a non-negative significand is a
    zero, a finite number or an infinity of the sign it was given. *)
Lemma binary_round_aux_sign (sx : bool) (mx ex : Z) (lx : location) :
  0 <= mx ->
  match binary_round_aux prec emax sx mx ex lx with
  | S754_zero s | S754_infinity s | S754_finite s _ _ => s = sx
  | S754_nan => False
  end.
Proof.
  intros Hm. unfold binary_round_aux.
  destruct (shr_fexp prec emax mx ex lx) as [mrs' e'] eqn:E1.
  pose proof (shr_fexp_bounds mx ex lx Hm) as [B1 _]. rewrite E1 in B1; simpl in B1.
  pose proof (round_nearest_even_bounds (shr_m mrs') (loc_of_shr_record mrs')) as R.
  set (m1 := round_nearest_even (shr_m mrs') (loc_of_shr_record mrs')) in *.
  destruct (shr_fexp prec emax m1 e' loc_Exact) as [mrs'' e''] eqn:E2.
  pose proof (shr_fexp_bounds m1 e' loc_Exact ltac:(lia)) as [B2 _].
  rewrite E2 in B2; simpl in B2.
  destruct (shr_m mrs'') as [|p|p]; [reflexivity| |lia].
  destruct (e'' <=? emax - prec); reflexivity.
Qed.

(** Rounding does not overflow when the significand and the exponents are
    bounded as stated. *)
Lemma binary_round_aux_no_overflow
      (sx : bool) (mx ex : Z) (lx : location) (k B : Z) :
  0 <= mx -> 0 <= k -> mx + 1 < 2 ^ k ->
  ex <= B -> fexp prec emax (Zdigits2 mx + ex) <= B ->
  B <= 971 -> k + B <= 1024 ->
  forall s, binary_round_aux prec emax sx mx ex lx <> S754_infinity s.
Proof.
  intros Hm Hk Hlt Hex Hfe HB HkB s. unfold binary_round_aux.
  destruct (shr_fexp prec emax mx ex lx) as [mrs' e'] eqn:E1.
  pose proof (shr_fexp_bounds mx ex lx Hm) as [B1 X1].
  rewrite E1 in B1, X1; simpl in B1, X1.
  pose proof (round_nearest_even_bounds (shr_m mrs') (loc_of_shr_record mrs')) as R.
  set (m1 := round_nearest_even (shr_m mrs') (loc_of_shr_record mrs')) in *.
  destruct (shr_fexp prec emax m1 e' loc_Exact) as [mrs'' e''] eqn:E2.
  pose proof (shr_fexp_bounds m1 e' loc_Exact ltac:(lia)) as [B2 X2].
  rewrite E2 in B2, X2; simpl in B2, X2.
  assert (Hd : Zdigits2 m1 <= k) by (apply Zdigits2_le_pow2; lia).
  rewrite fexp_eq in X2.
  assert (He : e'' <= 971) by lia.
  destruct (shr_m mrs'') as [|p|p]; try discriminate.
  destruct (e'' <=? emax - prec) eqn:E; [discriminate|].
  apply Z.leb_gt in E. change (emax - prec) with 971 in E. lia.
Qed.

(** The quotient digits of two positive integers [a <= b]. *)
Lemma SFdiv_core_binary_small (a b : positive) :
  (Zpos a <= Zpos b) ->
  let '(q, e, _) := SFdiv_core_binary prec emax (Zpos a) 0 (Zpos b) 0 in
  0 <= q <= 2 ^ (- e) /\ -1074 <= e <= -53.
Proof.
  intros Hab. unfold SFdiv_core_binary.
  pose proof (Zdigits2_mono (Zpos a) (Zpos b) ltac:(lia)) as Hd.
  set (d1 := Zdigits2 (Zpos a)) in *. set (d2 := Zdigits2 (Zpos b)) in *.
  set (e' := Z.min (fexp prec emax (d1 + 0 - (d2 + 0))) (0 - 0)).
  assert (He : -1074 <= e' <= -53) by (unfold e'; rewrite fexp_eq; lia).
  destruct (0 - 0 - e') as [|s|s] eqn:Es; try lia.
  rewrite Z.shiftl_mul_pow2 by lia.
  pose proof (Z_div_mod (Zpos a * 2 ^ Zpos s) (Zpos b) ltac:(lia)) as Hdiv.
  destruct (Z.div_eucl (Zpos a * 2 ^ Zpos s) (Zpos b)) as [q r].
  destruct Hdiv as [Hq Hr].
  replace (- e') with (Zpos s) by lia.
  assert (Hp : 0 < 2 ^ Zpos s) by (apply Z.pow_pos_nonneg; lia).
  split; [|exact He]. split; nia.
Qed.

(** [a / b] on integers [0 <= a <= b], [0 < b], raises nothing. *)
Lemma int_truediv_ok (a b : Z) :
  0 <= a <= b -> 0 < b -> exists q, int_truediv a b = Ok q.
Proof.
  intros [Ha Hab] Hb. unfold int_truediv.
  destruct (b =? 0) eqn:Eb; [apply Z.eqb_eq in Eb; lia|].
  destruct b as [|pb|pb]; try lia.
  destruct a as [|pa|pa]; try lia.
  - simpl. eexists; reflexivity.
  - unfold Z2SF, SFdiv.
    pose proof (SFdiv_core_binary_small pa pb Hab) as Hc.
    destruct (SFdiv_core_binary prec emax (Zpos pa) 0 (Zpos pb) 0)
      as [[q e] l].
    destruct Hc as [[Hq0 Hq] He].
    assert (Hp : 1 <= 2 ^ (- e)) by (apply (Z.pow_le_mono_r 2 0); lia).
    assert (Hno : forall s, binary_round_aux prec emax (xorb false false) q e l
                            <> S754_infinity s).
    { apply (binary_round_aux_no_overflow _ q e l (- e + 2) (-52)); try lia.
      - rewrite Z.pow_add_r by lia. change (2 ^ 2) with 4. lia.
      - rewrite fexp_eq.
        assert (Zdigits2 q <= - e + 1).
        { apply Zdigits2_le_pow2; try lia.
          rewrite Z.pow_add_r by lia. change (2 ^ 1) with 2. lia. }
        lia. }
    destruct (binary_round_aux prec emax (xorb false false) q e l) eqn:E;
      try (eexists; reflexivity).
    exfalso. eapply Hno. reflexivity.
Qed.

(** * Counts to percentages, in general *)

Lemma py_sum_from_ints (ns : list Z) (a : Z) :
  fold_left (fun acc x => a <- acc ;; py_add a x) (map VInt ns) (Ok (VInt a))
  = Ok (VInt (a + Zsum ns)).
Proof.
  revert a. induction ns as [|n ns IH]; intros a; simpl.
  - f_equal. f_equal. lia.
  - rewrite IH. f_equal. f_equal. lia.
Qed.

(** [sum] of a list of integers is their integer sum. *)
Lemma py_sum_ints (ns : list Z) : py_sum (map VInt ns) = Ok (VInt (Zsum ns)).
Proof. unfold py_sum. rewrite py_sum_from_ints. reflexivity. Qed.

Lemma py_comprehension_ok {A B : Type} (f : A -> result B) (g : A -> B)
      (xs : list A) :
  Forall (fun x => f x = Ok (g x)) xs ->
  py_comprehension f xs = Ok (map g xs).
Proof.
  unfold py_comprehension. induction 1 as [|x xs Hx _ IH]; simpl.
  - reflexivity.
  - rewrite Hx, IH. reflexivity.
Qed.

Lemma int_to_float_100 : int_to_float 100 = Ok 100%float.
Proof. vm_compute. reflexivity. Qed.

Lemma py_mul_float_100 (q : float) :
  py_mul (VFloat q) (VInt 100) = Ok (VFloat (q * 100)).
Proof.
  unfold py_mul, as_float. rewrite int_to_float_100. reflexivity.
Qed.

Lemma Zsum_ge (ns : list Z) :
  Forall (fun c => 0 <= c) ns -> Forall (fun c => 0 <= c <= Zsum ns) ns.
Proof.
  induction 1 as [|n ns Hn Hns IH]; constructor; simpl.
  - assert (0 <= Zsum ns) by (clear -IH; induction IH; simpl; lia). lia.
  - eapply Forall_impl; [|exact IH]. simpl. intros c Hc. lia.
Qed.

(** The percentage the script computes for one count [c] of a list that adds
    up to [total]: [c / total * 100], evaluated as Python evaluates it. *)
Lemma percentage_of_count (c total : Z) :
  (q <- py_truediv (VInt c) (VInt total) ;; py_mul q (VInt 100))
  = (q <- int_truediv c total ;; Ok (VFloat (q * 100))).
Proof.
  unfold py_truediv. destruct (int_truediv c total); simpl.
  - apply py_mul_float_100.
  - reflexivity.
Qed.

(** What the conversion returns on non-negative counts with a positive
    total. *)
Lemma counts_to_percentages_values (ns : list Z) :
  Forall (fun c => 0 <= c) ns -> 0 < Zsum ns ->
  exists vs,
    counts_to_percentages (map VInt ns) = Ok vs /\
    length vs = length ns /\
    forall i c, nth_error ns i = Some c ->
      exists q, int_truediv c (Zsum ns) = Ok q /\
                py_truediv (VInt c) (VInt (Zsum ns)) = Ok (VFloat q) /\
                py_mul (VFloat q) (VInt 100) = Ok (VFloat (q * 100)) /\
                nth_error vs i = Some (VFloat (q * 100)).
Proof.
  intros Hnn Hpos.
  set (total := Zsum ns) in *.
  set (pct := fun c => match int_truediv c total with
                       | Ok q => VFloat (q * 100)
                       | Raise _ => VInt 0
                       end).
  assert (Hall : Forall (fun v =>
             (q <- py_truediv v (VInt total) ;; py_mul q (VInt 100))
             = Ok ((fun v => match v with VInt c => pct c | _ => v end) v))
           (map VInt ns)).
  { apply Forall_map. eapply Forall_impl; [|apply (Zsum_ge ns Hnn)].
    intros c Hc. simpl in Hc. fold total in Hc.
    rewrite percentage_of_count. unfold pct.
    destruct (int_truediv_ok c total Hc Hpos) as [q Hq]. rewrite Hq.
    reflexivity. }
  eexists. split; [|split].
  - unfold counts_to_percentages. rewrite py_sum_ints. simpl. fold total.
    apply (py_comprehension_ok _ _ _ Hall).
  - rewrite !length_map. reflexivity.
  - intros i c Hi.
    pose proof (Zsum_ge ns Hnn) as Hge. rewrite Forall_forall in Hge.
    assert (Hc : 0 <= c <= total) by (apply Hge; eapply nth_error_In; eauto).
    destruct (int_truediv_ok c total Hc Hpos) as [q Hq].
    exists q. split; [exact Hq|]. split; [|split].
    + unfold py_truediv. rewrite Hq. reflexivity.
    + apply py_mul_float_100.
    + rewrite map_map. rewrite nth_error_map, Hi. simpl.
      unfold pct. rewrite Hq. reflexivity.
Qed.

(** C3, as the spec states it, fails on the empty sequence: its sum is 0,
    yet the comprehension has nothing to divide and returns the empty
    list. *)
Lemma empty_counts_counterexample :
  py_sum (map VInt []) = Ok (VInt 0) /\
  counts_to_percentages (map VInt []) = Ok [] /\
  ~ (forall ns : list Z,
       Zsum ns = 0 ->
       counts_to_percentages (map VInt ns) = Raise ZeroDivisionError).
Proof.
  split; [reflexivity|]. split; [reflexivity|].
  intros H. specialize (H [] eq_refl). discriminate H.
Qed.

(** C3, amended. For a non-empty sequence of integer counts whose sum is 0
    the conversion raises [ZeroDivisionError] (at the first count); for the
    empty sequence it returns the empty list; for non-negative counts with a
    positive total it returns a list. *)
Theorem zero_total_fails :
  counts_to_percentages (map VInt []) = Ok [] /\
  (forall ns : list Z,
     ns <> [] -> Zsum ns = 0 ->
     counts_to_percentages (map VInt ns) = Raise ZeroDivisionError) /\
  (forall ns : list Z,
     Forall (fun c => 0 <= c) ns -> 0 < Zsum ns ->
     exists vs, counts_to_percentages (map VInt ns) = Ok vs).
Proof.
  split; [reflexivity|]. split.
  - intros [|n ns] Hne Hz; [congruence|].
    unfold counts_to_percentages. rewrite py_sum_ints, Hz.
    unfold py_comprehension. cbn [bind map py_list].
    rewrite percentage_of_count. reflexivity.
  - intros ns Hnn Hpos.
    destruct (counts_to_percentages_values ns Hnn Hpos) as (vs & Hv & _).
    exists vs. exact Hv.
Qed.

(** The theorem at the counts [0, 0] and at the counts [1, 3]. *)
Lemma zero_total_fails_witness :
  ([0; 0] <> [] /\ Zsum [0; 0] = 0 /\
   counts_to_percentages (map VInt [0; 0]) = Raise ZeroDivisionError) /\
  (Forall (fun c => 0 <= c) [1; 3] /\ 0 < Zsum [1; 3] /\
   exists vs, counts_to_percentages (map VInt [1; 3]) = Ok vs).
Proof.
  assert (H1 : [0; 0] <> @nil Z) by discriminate.
  assert (H2 : Zsum [0; 0] = 0) by reflexivity.
  assert (H3 : Forall (fun c => 0 <= c) [1; 3]) by (repeat constructor; lia).
  assert (H4 : 0 < Zsum [1; 3]) by reflexivity.
  split.
  - split; [exact H1|]. split; [exact H2|].
    exact (proj1 (proj2 zero_total_fails) _ H1 H2).
  - split; [exact H3|]. split; [exact H4|].
    exact (proj2 (proj2 zero_total_fails) _ H3 H4).
Defined.

(** * Binary64 facts behind the remapping laws *)

Lemma Prim2SF_zero : Prim2SF 0 = S754_zero false.
Proof. reflexivity. Qed.

Lemma Prim2SF_one : Prim2SF 1 = S754_finite false 4503599627370496 (-52).
Proof. reflexivity. Qed.

Lemma Prim2SF_infinity : Prim2SF infinity = S754_infinity false.
Proof. reflexivity. Qed.

Lemma nonneg_SF (x : float) : nonneg x <-> SF_nonneg (Prim2SF x).
Proof.
  unfold nonneg. rewrite leb_spec, Prim2SF_zero.
  destruct (Prim2SF x) as [s|s| |s m e]; try destruct s; simpl;
    intuition discriminate.
Qed.

Lemma finite_nonneg_SF (x : float) :
  finite_nonneg x <-> SF_finite_nonneg (Prim2SF x).
Proof.
  unfold finite_nonneg. rewrite leb_spec, ltb_spec, Prim2SF_zero, Prim2SF_infinity.
  destruct (Prim2SF x) as [s|s| |s m e]; try destruct s; simpl;
    intuition discriminate.
Qed.

Lemma SFmul_nonneg (a b : spec_float) :
  SF_finite_nonneg a -> SF_finite_nonneg b -> SF_nonneg (SFmul prec emax a b).
Proof.
  destruct a as [[]|[]| |[] ma ea], b as [[]|[]| |[] mb eb]; simpl;
    try contradiction; intros _ _; try exact I.
  pose proof (binary_round_aux_sign false
                (Zpos (ma * mb)) (ea + eb) loc_Exact ltac:(lia)) as H.
  destruct (binary_round_aux prec emax false
              (Zpos (ma * mb)) (ea + eb) loc_Exact);
    simpl in *; subst; try exact I; contradiction.
Qed.

Lemma SFadd_nonneg (a b : spec_float) :
  SF_nonneg a -> SF_nonneg b -> SF_nonneg (SFadd prec emax a b).
Proof.
  destruct a as [[]|[]| |[] ma ea], b as [[]|[]| |[] mb eb]; simpl;
    try contradiction; intros _ _; try exact I.
  unfold binary_round.
  destruct (shl_align _ _ _) as [mz ez].
  pose proof (binary_round_aux_sign false (Zpos mz) ez loc_Exact ltac:(lia)) as H.
  destruct (binary_round_aux prec emax false (Zpos mz) ez loc_Exact);
    simpl in *; subst; try exact I; contradiction.
Qed.

Lemma mul_nonneg (x y : float) :
  finite_nonneg x -> finite_nonneg y -> nonneg (x * y).
Proof.
  rewrite !finite_nonneg_SF, nonneg_SF, mul_spec. apply SFmul_nonneg.
Qed.

Lemma add_nonneg (x y : float) : nonneg x -> nonneg y -> nonneg (x + y).
Proof. rewrite !nonneg_SF, add_spec. apply SFadd_nonneg. Qed.

Lemma zero_nonneg : nonneg 0.
Proof. reflexivity. Qed.

Lemma digits2_pos_scaled (m : positive) :
  Zpos (digits2_pos (m * 4503599627370496)) = Zpos (digits2_pos m) + 52.
Proof.
  rewrite Pos.mul_comm. cbn [Pos.mul digits2_pos]. lia.
Qed.

Lemma shr_scaled (m : positive) :
  iter_pos shr_1 52 (Build_shr_record (Zpos (m * 4503599627370496)) false false)
  = Build_shr_record (Zpos m) false false.
Proof. rewrite Pos.mul_comm. reflexivity. Qed.

(** Rounding [m * 2^52 * 2^(e - 52)] gives back the binary64 number
    [m * 2^e]. *)
Lemma binary_round_aux_scaled (s : bool) (m : positive) (e : Z) :
  bounded prec emax m e = true ->
  binary_round_aux prec emax s (Zpos (m * 4503599627370496)) (e + -52) loc_Exact
  = S754_finite s m e.
Proof.
  unfold bounded, canonical_mantissa. intros H.
  apply andb_prop in H. destruct H as [Hc He].
  apply Z.eqb_eq in Hc. 
  unfold binary_round_aux, shr_fexp.
  cbn [Zdigits2]. rewrite digits2_pos_scaled.
  replace (Zpos (digits2_pos m) + 52 + (e + -52)) with (Zpos (digits2_pos m) + e) by lia.
  rewrite Hc. replace (e - (e + -52)) with 52 by lia.
  cbn [shr shr_record_of_loc]. rewrite shr_scaled.
  cbn [shr_m loc_of_shr_record round_nearest_even Zdigits2].
  replace (e + -52 + 52) with e by lia.
  rewrite Hc, Z.sub_diag. cbn [shr shr_record_of_loc shr_m].
  rewrite He. reflexivity.
Qed.

Lemma SFmul_one (sx : spec_float) :
  valid_binary sx = true ->
  SFmul prec emax sx (S754_finite false 4503599627370496 (-52)) = sx.
Proof.
  destruct sx as [s|s| |s m e]; intros Hv; cbn [SFmul];
    rewrite ?xorb_false_r; try reflexivity.
  apply binary_round_aux_scaled. exact Hv.
Qed.

(** [x * 1.0] is [x]. *)
Lemma mul_one (x : float) : (x * 1)%float = x.
Proof.
  apply Prim2SF_inj. rewrite mul_spec, Prim2SF_one.
  apply SFmul_one, Prim2SF_valid.
Qed.

Lemma SFeqb_refl (sx : spec_float) : sx <> S754_nan -> SFeqb sx sx = true.
Proof.
  destruct sx as [s|s| |s m e]; intros H; try congruence;
    unfold SFeqb, SFcompare; try destruct s; try reflexivity;
    rewrite Z.compare_refl, Pos.compare_cont_refl; reflexivity.
Qed.

Lemma not_nan_SF (x : float) : is_nan x = false -> Prim2SF x <> S754_nan.
Proof.
  unfold is_nan. rewrite eqb_spec. intros H E. rewrite E in H. discriminate H.
Qed.

(** [0 + x == x] for every [x] that is a number. *)
Lemma add_zero_l (x : float) : is_nan x = false -> (0 + x =? x)%float = true.
Proof.
  intros Hn. pose proof (not_nan_SF x Hn) as Hx.
  rewrite eqb_spec, add_spec, Prim2SF_zero.
  destruct (Prim2SF x) as [s|s| |s m e] eqn:E; try congruence.
  - destruct s; reflexivity.
  - apply SFeqb_refl. discriminate.
  - apply SFeqb_refl. discriminate.
Qed.

(** * Remapping, in general *)

Lemma remap_identity_from (prefix values : list float) :
  remap_float (prefix ++ values)
    (map (fun i => [(i, 1%float)]) (seq (length prefix) (length values)))
  = Some (map (fun v => (0 + v * 1)%float) values).
Proof.
  revert prefix. induction values as [|v vs IH]; intros prefix; [reflexivity|].
  cbn [length seq map]. unfold remap_float in *. cbn [remap].
  unfold target_value at 1. cbn [target_value_from]. unfold contribution.
  cbn [fst snd]. rewrite nth_error_app2, Nat.sub_diag by lia. cbn [nth_error].
  specialize (IH (prefix ++ [v])).
  rewrite <- app_assoc, length_app in IH. cbn [app length] in IH.
  rewrite Nat.add_1_r in IH. rewrite IH. reflexivity.
Qed.

(** C7. Remapping with the identity rule set (source bin [i] to target bin
    [i] with fraction 1.0) returns, in binary64 arithmetic, as many values
    as the source has, each equal ([==]) to the source value, for every
    source whose values are numbers (none is a NaN). *)
Theorem remap_identity (values : list float) :
  Forall (fun v => is_nan v = false) values ->
  exists out,
    remap_float values (identity_rules (length values)) = Some out /\
    length out = length values /\
    Forall2 (fun o v => (o =? v)%float = true) out values.
Proof.
  intros Hnum. eexists. split; [|split].
  - exact (remap_identity_from [] values).
  - apply length_map.
  - induction Hnum as [|v vs Hv _ IH]; cbn [map]; constructor; [|exact IH].
    rewrite mul_one. apply add_zero_l, Hv.
Qed.

(** The theorem at the coarse openSUSE values. *)
Lemma remap_identity_witness :
  Forall (fun v => is_nan v = false)
         [19; 26; 28.14; 13.86; 12.5]%float /\
  exists out,
    remap_float [19; 26; 28.14; 13.86; 12.5]%float (identity_rules 5)
    = Some out /\
    Forall2 (fun o v => (o =? v)%float = true) out
            [19; 26; 28.14; 13.86; 12.5]%float.
Proof.
  assert (H : Forall (fun v => is_nan v = false)
                     [19; 26; 28.14; 13.86; 12.5]%float)
    by (repeat constructor).
  split; [exact H|].
  destruct (remap_identity _ H) as (out & Ho & _ & Heq).
  exists out. split; [exact Ho | exact Heq].
Defined.

Lemma target_value_from_nonneg (values : list float) (rs : list (rule float)) :
  Forall finite_nonneg values ->
  Forall (fun r : rule float => finite_nonneg (snd r)) rs ->
  Forall (fun r : rule float => (fst r < length values)%nat) rs ->
  forall acc, nonneg acc ->
    exists t, target_value_from add mul acc values rs = Some t /\ nonneg t.
Proof.
  intros Hv Hf Hr. revert Hf.
  induction Hr as [|r rs Hi _ IH]; intros Hf acc Hacc; cbn [target_value_from].
  - exists acc. split; [reflexivity | exact Hacc].
  - inversion Hf as [|? ? Hfr Hfrs]; subst. unfold contribution.
    destruct (nth_error values (fst r)) as [v|] eqn:E;
      [|apply nth_error_None in E; lia].
    apply IH; [exact Hfrs|]. apply add_nonneg; [exact Hacc|].
    apply mul_nonneg; [|exact Hfr].
    rewrite Forall_forall in Hv. apply Hv. eapply nth_error_In; eauto.
Qed.

(** Remapping finite non-negative values by finite non-negative fractions
    yields one non-negative value per target bin. *)
Lemma remap_float_nonneg (values : list float) (rules : list (list (rule float))) :
  Forall finite_nonneg values ->
  Forall (Forall (fun r : rule float => finite_nonneg (snd r))) rules ->
  rules_in_range (length values) rules ->
  exists out,
    remap_float values rules = Some out /\
    length out = length rules /\
    Forall nonneg out.
Proof.
  intros Hv Hf Hr. unfold remap_float. revert Hf.
  induction Hr as [|rs rules Hrs _ IH]; intros Hf; cbn [remap].
  - exists []. repeat split. constructor.
  - inversion Hf as [|? ? Hfrs Hfrules]; subst.
    destruct (target_value_from_nonneg values rs Hv Hfrs Hrs 0%float zero_nonneg)
      as (t & Ht & Htn).
    destruct (IH Hfrules) as (out & Ho & Hl & Hn).
    unfold target_value. rewrite Ht, Ho.
    exists (t :: out). split; [reflexivity|]. split; [simpl; congruence|].
    constructor; assumption.
Qed.

(** C9. Remapping, in binary64 arithmetic, a source of finite non-negative
    values by a rule set of finite non-negative fractions whose entries name
    source bins yields exactly one value per target bin, each [>= 0]; and
    each of the five coarse lists of the script has 5 entries, each
    [>= 0]. *)
Theorem remap_output_nonneg :
  (forall (values : list float) (rules : list (list (rule float))),
     Forall finite_nonneg values ->
     Forall (Forall (fun r : rule float => finite_nonneg (snd r))) rules ->
     rules_in_range (length values) rules ->
     exists out,
       remap_float values rules = Some out /\
       length out = length rules /\
       Forall nonneg out) /\
  (exists cs, opensuse_coarse = Ok cs /\
              length cs = coarse_bins /\ Forall nonneg_value cs) /\
  (exists cs, stackoverflow_coarse = Ok cs /\
              length cs = coarse_bins /\ Forall nonneg_value cs) /\
  (exists cs, linux_foundation_coarse = Ok cs /\
              length cs = coarse_bins /\ Forall nonneg_value cs) /\
  (exists cs, debian_coarse = Ok cs /\
              length cs = coarse_bins /\ Forall nonneg_value cs) /\
  (exists cs, cncf_coarse = Ok cs /\
              length cs = coarse_bins /\ Forall nonneg_value cs).
Proof.
  split; [exact remap_float_nonneg|].
  repeat split.
  - eexists. split; [apply opensuse_coarse_eval|].
    split; [reflexivity | repeat constructor; by_computation].
  - eexists. split; [apply stackoverflow_coarse_eval|].
    split; [reflexivity | repeat constructor; by_computation].
  - eexists. split; [apply linux_foundation_coarse_eval|].
    split; [reflexivity | repeat constructor; by_computation].
  - eexists. split; [apply debian_coarse_eval|].
    split; [reflexivity | repeat constructor; by_computation].
  - eexists. split; [apply cncf_coarse_eval|].
    split; [reflexivity | repeat constructor; by_computation].
Qed.

(** The theorem at the Debian percentages and the Debian rule table. *)
Lemma remap_output_nonneg_witness :
  let values := [1.824817518248175; 16.058394160583941; 45.985401459854018;
                 27.372262773722628; 6.9343065693430654; 1.824817518248175]%float in
  Forall finite_nonneg values /\
  Forall (Forall (fun r : rule float => finite_nonneg (snd r))) debian_rules /\
  rules_in_range (length values) debian_rules /\
  exists out,
    remap_float values debian_rules = Some out /\
    length out = 5%nat /\ Forall nonneg out.
Proof.
  set (values := [1.824817518248175; 16.058394160583941; 45.985401459854018;
                  27.372262773722628; 6.9343065693430654; 1.824817518248175]%float).
  assert (H1 : Forall finite_nonneg values)
    by (repeat constructor).
  assert (H2 : Forall (Forall (fun r : rule float => finite_nonneg (snd r)))
                      debian_rules)
    by (repeat constructor).
  assert (H3 : rules_in_range (length values) debian_rules)
    by (repeat constructor; simpl; lia).
  split; [exact H1|]. split; [exact H2|]. split; [exact H3|].
  exact (proj1 remap_output_nonneg values debian_rules H1 H2 H3).
Defined.

(** * Mass preservation, in exact arithmetic *)

Local Open Scope Q_scope.

Lemma weighted_sum_ext (g h : nat -> Q) (values : list Q) :
  (forall i, g i == h i) ->
  forall k, weighted_sum g k values == weighted_sum h k values.
Proof.
  intros Hgh. induction values as [|v vs IH]; intros k; simpl.
  - reflexivity.
  - rewrite IH, Hgh. reflexivity.
Qed.

Lemma weighted_sum_plus (g h : nat -> Q) (values : list Q) :
  forall k, weighted_sum (fun i => g i + h i) k values
            == weighted_sum g k values + weighted_sum h k values.
Proof.
  induction values as [|v vs IH]; intros k; simpl.
  - ring.
  - rewrite IH. ring.
Qed.

Lemma weighted_sum_one (values : list Q) :
  forall k, weighted_sum (fun _ => 1) k values == Qsum values.
Proof.
  induction values as [|v vs IH]; intros k; simpl.
  - reflexivity.
  - rewrite IH. ring.
Qed.

Lemma weighted_sum_above (j : nat) (f : Q) (values : list Q) :
  forall k, (j < k)%nat ->
    weighted_sum (fun i => if Nat.eqb j i then f else 0) k values == 0.
Proof.
  induction values as [|v vs IH]; intros k Hk; simpl.
  - reflexivity.
  - rewrite IH by lia.
    destruct (Nat.eqb j k) eqn:E; [apply Nat.eqb_eq in E; lia | ring].
Qed.

Lemma weighted_sum_at (f : Q) (values : list Q) :
  forall k j v, nth_error values j = Some v ->
    weighted_sum (fun i => if Nat.eqb (k + j) i then f else 0) k values
    == v * f.
Proof.
  induction values as [|w vs IH]; intros k j v Hj.
  - destruct j; discriminate Hj.
  - destruct j as [|j]; simpl in Hj |- *.
    + injection Hj as ->. rewrite Nat.add_0_r, Nat.eqb_refl.
      rewrite (weighted_sum_above k f vs (S k)) by lia. ring.
    + replace (k + S j)%nat with (S k + j)%nat by lia.
      rewrite (IH (S k) j v Hj).
      destruct (Nat.eqb (S k + j) k) eqn:E; [apply Nat.eqb_eq in E; lia | ring].
Qed.

Lemma weighted_sum_bound (g : nat -> Q) (eps : Q) (values : list Q) :
  forall k,
    (forall i, (k <= i < k + length values)%nat -> Qabs (g i) <= eps) ->
    Qabs (weighted_sum g k values) <= eps * Qsum (map Qabs values).
Proof.
  induction values as [|v vs IH]; intros k Hg.
  - change (Qabs 0 <= eps * 0).
    setoid_replace (eps * 0) with 0 by ring. apply Qle_refl.
  - assert (H1 : Qabs (weighted_sum g (S k) vs) <= eps * Qsum (map Qabs vs)).
    { apply IH. intros i Hi. apply Hg. simpl. lia. }
    assert (H2 : Qabs (g k) <= eps) by (apply Hg; simpl; lia).
    change (Qabs (v * g k + weighted_sum g (S k) vs)
            <= eps * (Qabs v + Qsum (map Qabs vs))).
    eapply Qle_trans; [apply Qabs_triangle|].
    rewrite Qabs_Qmult.
    setoid_replace (eps * (Qabs v + Qsum (map Qabs vs)))
      with (Qabs v * eps + eps * Qsum (map Qabs vs)) by ring.
    apply Qplus_le_compat; [|exact H1].
    rewrite (Qmult_comm (Qabs v) (Qabs (g k))), (Qmult_comm (Qabs v) eps).
    apply Qmult_le_compat_r; [exact H2 | apply Qabs_nonneg].
Qed.

Lemma fraction_total_cons (j : nat) (f : Q) (rs : list (rule Q)) (i : nat) :
  fraction_total ((j, f) :: rs) i
  == (if Nat.eqb j i then f else 0) + fraction_total rs i.
Proof. simpl. destruct (Nat.eqb j i); ring. Qed.

Lemma fraction_total_app (rs rs' : list (rule Q)) (i : nat) :
  fraction_total (rs ++ rs') i == fraction_total rs i + fraction_total rs' i.
Proof.
  induction rs as [|[j f] rs IH]; cbn [app].
  - simpl. ring.
  - rewrite !fraction_total_cons, IH. ring.
Qed.

(** One target value is the accumulator plus the source values weighted by
    the fractions its entries take from them. *)
Lemma target_value_from_exact (values : list Q) (rs : list (rule Q)) :
  Forall (fun r : rule Q => (fst r < length values)%nat) rs ->
  forall acc,
    exists t, target_value_from Qplus Qmult acc values rs = Some t /\
              t == acc + weighted_sum (fraction_total rs) 0 values.
Proof.
  induction 1 as [|[j f] rs Hj _ IH]; intros acc; cbn [target_value_from].
  - exists acc. split; [reflexivity|].
    rewrite (weighted_sum_ext _ (fun _ => 0 * 1)) by (intros; simpl; ring).
    assert (E : forall k, weighted_sum (fun _ => 0 * 1) k values == 0).
    { induction values as [|v vs IHv]; intros k; simpl;
        [reflexivity | rewrite IHv; ring]. }
    rewrite E. ring.
  - unfold contribution. cbn [fst snd] in *.
    destruct (nth_error values j) as [v|] eqn:E;
      [|apply nth_error_None in E; lia].
    destruct (IH (acc + v * f)) as (t & Ht & Hteq).
    exists t. split; [exact Ht|]. rewrite Hteq.
    rewrite (weighted_sum_ext (fraction_total ((j, f) :: rs))
               (fun i => (if Nat.eqb j i then f else 0) + fraction_total rs i))
      by (intros; apply fraction_total_cons).
    rewrite weighted_sum_plus.
    rewrite (weighted_sum_at f values 0 j v E). ring.
Qed.

(** The remapped values add up to the source values weighted by the
    fractions the whole rule set takes from them. *)
Lemma remap_exact_sum (values : list Q) (rules : list (list (rule Q))) :
  rules_in_range (length values) rules ->
  exists out,
    remap_exact values rules = Some out /\
    length out = length rules /\
    Qsum out == weighted_sum (fraction_total (concat rules)) 0 values.
Proof.
  unfold remap_exact.
  induction 1 as [|rs rules Hrs _ IH]; cbn [remap concat].
  - exists []. split; [reflexivity|]. split; [reflexivity|].
    destruct (target_value_from_exact values [] ltac:(constructor) 0)
      as (t & Ht & Hteq).
    injection Ht as <-. cbn [Qsum fold_right]. rewrite Hteq at 1. ring.
  - destruct (target_value_from_exact values rs Hrs 0) as (t & Ht & Hteq).
    destruct IH as (out & Ho & Hl & Hsum).
    unfold target_value. rewrite Ht, Ho.
    exists (t :: out). split; [reflexivity|]. split; [simpl; congruence|].
    change (Qsum (t :: out)) with (t + Qsum out).
    rewrite Hteq, Hsum.
    rewrite (weighted_sum_ext (fraction_total (rs ++ concat rules))
               (fun i => fraction_total rs i + fraction_total (concat rules) i))
      by (intros; apply fraction_total_app).
    rewrite weighted_sum_plus. ring.
Qed.

(** Mass preservation in exact arithmetic: a rule set valid up to [eps]
    changes the total by at most [eps] times the total of the magnitudes. *)
Lemma remap_exact_mass (values : list Q) (rules : list (list (rule Q))) (eps : Q) :
  valid_rules eps (length values) rules ->
  exists out,
    remap_exact values rules = Some out /\
    length out = length rules /\
    Qabs (Qsum out - Qsum values) <= eps * Qsum (map Qabs values).
Proof.
  intros [Hr Hf].
  destruct (remap_exact_sum values rules Hr) as (out & Ho & Hl & Hsum).
  exists out. split; [exact Ho|]. split; [exact Hl|].
  set (ft := fraction_total (concat rules)) in *.
  assert (E : Qsum out - Qsum values
              == weighted_sum (fun i => ft i - 1) 0 values).
  { rewrite Hsum, <- (weighted_sum_one values 0).
    rewrite (weighted_sum_ext ft (fun i => (ft i - 1) + 1)) by (intros; ring).
    rewrite weighted_sum_plus. ring. }
  rewrite E. apply weighted_sum_bound.
  intros i Hi. apply Hf. lia.
Qed.

(** Decides a property of every source bin below a closed bound, bin by
    bin. *)
Ltac each_bin i Hi :=
  first [ exfalso; simpl in Hi; lia
        | destruct i as [|i]; [clear Hi; by_computation | each_bin i Hi] ].

(** Decides the validity of a closed rule table. *)
Ltac valid_rules_by_computation :=
  split;
  [ repeat constructor
  | let i := fresh "i" in
    let Hi := fresh "Hi" in
    intros i Hi; each_bin i Hi ].

(** * The coarse displays as remaps *)

(** Each of the five coarse lists the script writes out is, value for value,
    the binary64 remap of its source list by the corresponding rule table. *)
Theorem coarse_lists_are_remaps :
  (exists cs fs vs,
     opensuse_coarse = Ok cs /\ floats_of cs = Ok fs /\
     floats_of opensuse_values = Ok vs /\
     remap_float vs opensuse_rules = Some fs) /\
  (exists ss cs fs vs,
     stackoverflow_2023_values = Ok ss /\ stackoverflow_coarse = Ok cs /\
     floats_of cs = Ok fs /\ floats_of ss = Ok vs /\
     remap_float vs stackoverflow_rules = Some fs) /\
  (exists cs fs vs,
     linux_foundation_coarse = Ok cs /\ floats_of cs = Ok fs /\
     floats_of linux_foundation_values = Ok vs /\
     remap_float vs linux_foundation_rules = Some fs) /\
  (exists ds cs fs vs,
     debian_values = Ok ds /\ debian_coarse = Ok cs /\
     floats_of cs = Ok fs /\ floats_of ds = Ok vs /\
     remap_float vs debian_rules = Some fs) /\
  (exists cs fs vs,
     cncf_coarse = Ok cs /\ floats_of cs = Ok fs /\
     floats_of cncf_values = Ok vs /\
     remap_float vs cncf_rules = Some fs).
Proof.
  repeat split.
  - do 3 eexists. split; [apply opensuse_coarse_eval|].
    repeat split; vm_compute; reflexivity.
  - do 4 eexists. split; [apply stackoverflow_2023_values_eval|].
    split; [apply stackoverflow_coarse_eval|].
    repeat split; vm_compute; reflexivity.
  - do 3 eexists. split; [apply linux_foundation_coarse_eval|].
    repeat split; vm_compute; reflexivity.
  - do 4 eexists. split; [apply debian_values_eval|].
    split; [apply debian_coarse_eval|].
    repeat split; vm_compute; reflexivity.
  - do 3 eexists. split; [apply cncf_coarse_eval|].
    repeat split; vm_compute; reflexivity.
Qed.

(** The Stack Overflow and the Linux Foundation rule tables take nothing from
    the last source bin ("No answer"), so they are not valid rule sets, up to
    1e-6 or up to any tolerance below 1; the other three tables are valid up
    to 1e-6. *)
Theorem rule_tables_validity :
  fraction_total (concat (rules_exact stackoverflow_rules)) 7 == 0 /\
  fraction_total (concat (rules_exact linux_foundation_rules)) 7 == 0 /\
  (forall eps, eps < 1 ->
     ~ valid_rules eps 8 (rules_exact stackoverflow_rules) /\
     ~ valid_rules eps 8 (rules_exact linux_foundation_rules)) /\
  valid_rules (1 # 1000000) 4 (rules_exact opensuse_rules) /\
  valid_rules (1 # 1000000) 6 (rules_exact debian_rules) /\
  valid_rules (1 # 1000000) 6 (rules_exact cncf_rules).
Proof.
  split; [reflexivity|]. split; [reflexivity|]. split.
  - intros eps Heps. split; intros [_ H]; specialize (H 7%nat ltac:(lia));
      vm_compute fraction_total in H;
      apply Qabs_Qle_condition in H; destruct H as [H1 H2];
      unfold Qle, Qlt in *; simpl in *; lia.
  - split; [valid_rules_by_computation|].
    split; valid_rules_by_computation.
Qed.

(** Each percentage the script computes from counts is within 1e-13 of the
    exact quotient [100 * count / total]. *)
Theorem percentages_accurate :
  (exists vs,
     stackoverflow_2023_values = Ok vs /\
     Forall2 (close_to (1 # 10000000000000)) vs
       (map (fun c => 100 * c / 89184)
            [4128; 17931; 33247; 20532; 8334; 3392; 1171; 449])) /\
  (exists vs,
     debian_values = Ok vs /\
     Forall2 (close_to (1 # 10000000000000)) vs
       (map (fun c => 100 * c / 822) [15; 132; 378; 225; 57; 15])).
Proof.
  split; eexists;
    (split; [first [apply stackoverflow_2023_values_eval | apply debian_values_eval]|]);
    cbn [map]; repeat constructor; by_computation.
Qed.

Local Close Scope Q_scope.

(** * Slices and label anchors *)

Lemma removelast_snoc_nth (xs : list value) (v : value) :
  nth_error xs (pred (length xs)) = Some v -> removelast xs ++ [v] = xs.
Proof.
  induction xs as [|x xs IH]; intros H; [discriminate H|].
  destruct xs as [|y ys].
  - simpl in H. injection H as ->. reflexivity.
  - change (x :: removelast (y :: ys) ++ [v] = x :: y :: ys).
    f_equal. apply IH. exact H.
Qed.

Lemma py_index_last (xs : list value) (v : value) :
  py_index xs (-1) = Ok v -> nth_error xs (pred (length xs)) = Some v.
Proof.
  unfold py_index. cbn [Z.ltb Z.compare].
  destruct ((-1 + Z.of_nat (length xs) <? 0)
            || (Z.of_nat (length xs) <=? -1 + Z.of_nat (length xs))) eqn:E;
    [discriminate|].
  replace (Z.to_nat (-1 + Z.of_nat (length xs))) with (pred (length xs)) by lia.
  destruct (nth_error xs (pred (length xs))); [|discriminate].
  intros H. injection H as ->. reflexivity.
Qed.

(** Slicing off the end: [xs[:-1]] raises nothing, drops exactly the last
    item (appending [xs[-1]] gives [xs] back) and leaves the empty list
    empty; [xs[:k]] is the same list when [xs] has [k + 1] items, and is
    [xs] itself when [k] is at least the length.  This is how the script
    drops the "No answer" value, by [[:-1]] for the Stack Overflow lists and
    by [[:7]] for the Linux Foundation list. *)
Theorem slice_drops_last :
  (forall xs : list value,
     py_drop_last xs = py_slice_to xs (-1) /\
     length (py_drop_last xs) = pred (length xs) /\
     (forall last, py_index xs (-1) = Ok last ->
                   py_drop_last xs ++ [last] = xs) /\
     (xs = [] -> py_drop_last xs = [] /\ py_index xs (-1) = Raise IndexError) /\
     (forall k, Z.of_nat (length xs) = k + 1 ->
                py_slice_to xs k = py_drop_last xs) /\
     (forall k, Z.of_nat (length xs) <= k -> py_slice_to xs k = xs)) /\
  lf_values = py_drop_last linux_foundation_values.
Proof.
  split; [|reflexivity]. intros xs.
  assert (E : py_drop_last xs = firstn (pred (length xs)) xs)
    by apply removelast_firstn_len.
  split; [|split; [|split; [|split; [|split]]]].
  - rewrite E. unfold py_slice_to. cbn [Z.ltb Z.compare]. f_equal. lia.
  - rewrite E, length_firstn. lia.
  - intros last H. apply removelast_snoc_nth, py_index_last, H.
  - intros ->. split; reflexivity.
  - intros k Hk. rewrite E. unfold py_slice_to.
    destruct (k <? 0) eqn:Ek; [apply Z.ltb_lt in Ek|]; f_equal; lia.
  - intros k Hk. unfold py_slice_to.
    destruct (k <? 0) eqn:Ek; [apply Z.ltb_lt in Ek; lia|].
    replace (Z.to_nat (Z.min k (Z.of_nat (length xs)))) with (length xs) by lia.
    apply firstn_all.
Qed.

Lemma py_index_nat (xs : list value) (i : nat) :
  py_index xs (Z.of_nat i)
  = match nth_error xs i with Some v => Ok v | None => Raise IndexError end.
Proof.
  unfold py_index. cbv zeta.
  assert (E0 : (Z.of_nat i <? 0) = false) by (apply Z.ltb_ge; lia).
  rewrite !E0, Nat2Z.id.
  destruct (Z.of_nat (length xs) <=? Z.of_nat i) eqn:E1; cbn [orb].
  - apply Z.leb_le in E1.
    destruct (nth_error xs i) eqn:En; [|reflexivity].
    assert (nth_error xs i <> None) by congruence.
    apply nth_error_Some in H. lia.
  - reflexivity.
Qed.

Lemma text_anchors_from (prefix rest values : list value) :
  py_comprehension
    (fun iv : Z * value =>
       p <- py_index (prefix ++ rest) (fst iv) ;; Ok (p, snd iv))
    (combine (map Z.of_nat (seq (length prefix) (length values))) values)
  = if (length values <=? length rest)%nat
    then Ok (combine (firstn (length values) rest) values)
    else Raise IndexError.
Proof.
  unfold py_comprehension.
  revert prefix rest. induction values as [|v vs IH]; intros prefix rest.
  - reflexivity.
  - cbn [length seq map combine py_list fst snd].
    rewrite py_index_nat, nth_error_app2, Nat.sub_diag by lia.
    destruct rest as [|p rest]; [reflexivity|].
    cbn [nth_error bind length firstn combine].
    specialize (IH (prefix ++ [p]) rest).
    rewrite <- app_assoc, length_app in IH. cbn [app length] in IH.
    rewrite Nat.add_1_r in IH. rewrite IH.
    change (S (length vs) <=? S (length rest))%nat
      with (length vs <=? length rest)%nat.
    destruct (length vs <=? length rest)%nat; reflexivity.
Qed.

(** The labelling loop of an individual chart raises nothing exactly when
    there are at least as many positions as values, and then anchors the
    [i]-th label at the [i]-th position and the [i]-th value; with fewer
    positions it raises [IndexError].  In the script the loops of the Linux
    Foundation, Debian and CNCF charts have as many positions as values, so
    each bar gets its label. *)
Theorem text_anchors_spec :
  (forall positions values : list value,
     ((length values <= length positions)%nat ->
      text_anchors positions values
      = Ok (combine (firstn (length values) positions) values)) /\
     ((length positions < length values)%nat ->
      text_anchors positions values = Raise IndexError)) /\
  (exists l, text_anchors linux_foundation_age_positions lf_values = Ok l /\
             length l = length lf_values) /\
  (exists vs l, debian_values = Ok vs /\
                text_anchors debian_age_positions vs = Ok l /\
                length l = length vs) /\
  (exists l, text_anchors cncf_age_positions cncf_values = Ok l /\
             length l = length cncf_values).
Proof.
  split.
  - intros positions values.
    pose proof (text_anchors_from [] positions values) as H.
    cbn [app length] in H. fold (enumerate values) in H.
    fold (text_anchors positions values) in H.
    split; intros Hl; rewrite H.
    + apply Nat.leb_le in Hl. rewrite Hl. reflexivity.
    + apply Nat.leb_gt in Hl. rewrite Hl. reflexivity.
  - repeat split.
    + eexists. split; reflexivity.
    + do 2 eexists. split; [apply debian_values_eval|]. split; reflexivity.
    + eexists. split; reflexivity.
Qed.

(** * Comparisons and [max] *)

(** What being a binary64 number says of a significand and an exponent. *)
Lemma bounded_facts (m : positive) (e : Z) :
  bounded prec emax m e = true ->
  -1074 <= e <= 971 /\ Zpos m < 2 ^ 53 /\ (-1074 < e -> 2 ^ 52 <= Zpos m).
Proof.
  unfold bounded, canonical_mantissa. intros H.
  apply andb_prop in H. destruct H as [Hc He].
  apply Z.eqb_eq in Hc. apply Z.leb_le in He. change (emax - prec) with 971 in He.
  rewrite fexp_eq in Hc.
  change (Zpos (digits2_pos m)) with (Zdigits2 (Zpos m)) in Hc.
  rewrite Zdigits2_log2 in Hc.
  destruct (Z.log2_spec (Zpos m) ltac:(lia)) as [Hlo Hhi].
  pose proof (Z.log2_nonneg (Zpos m)) as Hnn.
  split; [lia|]. split.
  - eapply Z.lt_le_trans; [exact Hhi|]. apply Z.pow_le_mono_r; lia.
  - intros Hgt. eapply Z.le_trans; [|exact Hlo]. apply Z.pow_le_mono_r; lia.
Qed.

(** Binary64 numbers of one sign are ordered as their exponents are, and by
    their significands when the exponents agree. *)
Lemma magnitude_compare (m1 m2 : positive) (e1 e2 : Z) :
  bounded prec emax m1 e1 = true -> bounded prec emax m2 e2 = true ->
  (Zpos m1 * 2 ^ (e1 + 1074) ?= Zpos m2 * 2 ^ (e2 + 1074))
  = match e1 ?= e2 with
    | Lt => Lt
    | Gt => Gt
    | Eq => Pos.compare_cont Eq m1 m2
    end.
Proof.
  intros H1 H2.
  destruct (bounded_facts m1 e1 H1) as (He1 & Hm1 & Hn1).
  destruct (bounded_facts m2 e2 H2) as (He2 & Hm2 & Hn2).
  assert (Hstep : forall ma mb ea eb,
             -1074 <= ea -> ea < eb -> Zpos ma < 2 ^ 53 -> 2 ^ 52 <= Zpos mb ->
             Zpos ma * 2 ^ (ea + 1074) < Zpos mb * 2 ^ (eb + 1074)).
  { intros ma mb ea eb Ha Hab Hma Hmb.
    assert (Hp : 0 < 2 ^ (ea + 1074)) by (apply Z.pow_pos_nonneg; lia).
    assert (Hq : 2 * 2 ^ (ea + 1074) <= 2 ^ (eb + 1074)).
    { rewrite <- Z.pow_succ_r by lia. apply Z.pow_le_mono_r; lia. }
    change (2 ^ 53) with (2 * 2 ^ 52) in Hma.
    assert (H52 : 0 < 2 ^ 52) by reflexivity.
    apply Z.lt_le_trans with (2 ^ 52 * (2 * 2 ^ (ea + 1074))).
    - replace (2 ^ 52 * (2 * 2 ^ (ea + 1074)))
        with (2 * 2 ^ 52 * 2 ^ (ea + 1074)) by ring.
      apply Z.mul_lt_mono_pos_r; assumption.
    - apply Z.le_trans with (2 ^ 52 * 2 ^ (eb + 1074)).
      + apply Z.mul_le_mono_nonneg_l; lia.
      + apply Z.mul_le_mono_nonneg_r; lia. }
  destruct (e1 ?= e2) eqn:E.
  - apply Z.compare_eq in E. subst e2.
    rewrite <- Zmult_compare_compat_r
      by (apply Z.lt_gt, Z.pow_pos_nonneg; lia).
    reflexivity.
  - assert (Hlt : e1 < e2) by (apply Z.compare_lt_iff; exact E).
    apply Z.compare_lt_iff.
    apply Hstep; [lia | exact Hlt | exact Hm1 | apply Hn2; lia].
  - assert (Hlt : e2 < e1) by (apply Z.compare_gt_iff; exact E).
    apply Z.compare_gt_iff.
    apply Hstep; [lia | exact Hlt | exact Hm2 | apply Hn1; lia].
Qed.

(** A finite binary floating-point datum in units of [2^-1074]. *)
Lemma scaled_float (x : float) (k : Z) :
  scaled (VFloat x) = Some k ->
  match Prim2SF x with
  | S754_zero _ => k = 0
  | S754_finite s m e =>
      k = cond_Zopp s (Zpos m) * 2 ^ (e + 1074) /\
      bounded prec emax m e = true
  | _ => False
  end.
Proof.
  unfold scaled. pose proof (Prim2SF_valid x) as Hv.
  destruct (Prim2SF x) as [s|s| |s m e]; intros H; try discriminate H;
    injection H as <-; [reflexivity|]. split; [reflexivity | exact Hv].
Qed.

(** IEEE comparison of two finite floats is the comparison of their exact
    values. *)
Lemma SFcompare_scaled (x y : float) (kx ky : Z) :
  scaled (VFloat x) = Some kx -> scaled (VFloat y) = Some ky ->
  SFcompare (Prim2SF x) (Prim2SF y) = Some (kx ?= ky).
Proof.
  intros Hx Hy. apply scaled_float in Hx. apply scaled_float in Hy.
  destruct (Prim2SF x) as [sx|sx| |sx mx ex]; try contradiction;
    destruct (Prim2SF y) as [sy|sy| |sy my ey]; try contradiction.
  - subst. reflexivity.
  - destruct Hy as [-> Hb]. subst kx. cbn [SFcompare].
    assert (0 < 2 ^ (ey + 1074))
      by (apply Z.pow_pos_nonneg; destruct (bounded_facts _ _ Hb); lia).
    destruct sy; cbn [cond_Zopp]; f_equal; symmetry;
      [apply Z.compare_gt_iff | apply Z.compare_lt_iff]; nia.
  - destruct Hx as [-> Hb]. subst ky. cbn [SFcompare].
    assert (0 < 2 ^ (ex + 1074))
      by (apply Z.pow_pos_nonneg; destruct (bounded_facts _ _ Hb); lia).
    destruct sx; cbn [cond_Zopp]; f_equal; symmetry;
      [apply Z.compare_lt_iff | apply Z.compare_gt_iff]; nia.
  - destruct Hx as [-> Hbx]. destruct Hy as [-> Hby]. cbn [SFcompare].
    assert (0 < 2 ^ (ex + 1074))
      by (apply Z.pow_pos_nonneg; destruct (bounded_facts _ _ Hbx); lia).
    assert (0 < 2 ^ (ey + 1074))
      by (apply Z.pow_pos_nonneg; destruct (bounded_facts _ _ Hby); lia).
    f_equal. destruct sx, sy; cbn [cond_Zopp].
    + replace (- Zpos mx * 2 ^ (ex + 1074))
        with (- (Zpos mx * 2 ^ (ex + 1074))) by ring.
      replace (- Zpos my * 2 ^ (ey + 1074))
        with (- (Zpos my * 2 ^ (ey + 1074))) by ring.
      rewrite Z.compare_opp, (magnitude_compare my mx ey ex Hby Hbx).
      rewrite (Z.compare_antisym ey ex).
      destruct (ey ?= ex); cbn [CompOpp]; try reflexivity.
      rewrite ZC4. destruct (Pos.compare_cont Eq my mx); reflexivity.
    + symmetry. apply Z.compare_lt_iff. nia.
    + symmetry. apply Z.compare_gt_iff. nia.
    + symmetry. apply magnitude_compare; assumption.
Qed.

(** Comparing an integer with a finite float compares their exact values. *)
Lemma int_float_compare_scaled (n : Z) (y : float) (ky : Z) :
  scaled (VFloat y) = Some ky ->
  int_float_compare n y = Some (n * 2 ^ 1074 ?= ky).
Proof.
  intros Hy. apply scaled_float in Hy. unfold int_float_compare.
  destruct (Prim2SF y) as [s|s| |s m e]; try contradiction.
  - subst ky. f_equal.
    rewrite (Zmult_compare_compat_r n 0 (2 ^ 1074)) by reflexivity.
    reflexivity.
  - destruct Hy as [-> Hb]. f_equal.
    destruct (bounded_facts m e Hb) as (He & _ & _).
    set (M := cond_Zopp s (Zpos m)).
    destruct (Z.le_gt_cases 0 e) as [Hpos | Hneg].
    + rewrite (Z.max_l 0 (- e)), (Z.max_r 0 e) by lia.
      rewrite (Zmult_compare_compat_r _ _ (2 ^ 1074)) by reflexivity.
      rewrite Z.pow_0_r, Z.mul_1_r, Z.pow_add_r by lia.
      rewrite Z.mul_assoc. reflexivity.
    + rewrite (Z.max_r 0 (- e)), (Z.max_l 0 e) by lia.
      rewrite (Zmult_compare_compat_r _ _ (2 ^ (e + 1074)))
        by (apply Z.lt_gt, Z.pow_pos_nonneg; lia).
      rewrite Z.pow_0_r, Z.mul_1_r, <- Z.mul_assoc, <- Z.pow_add_r by lia.
      replace (- e + (e + 1074)) with 1074 by lia. reflexivity.
Qed.

(** [a > b] on finite numbers is the strict order of their exact values. *)
Lemma py_gt_scaled (a b : value) (ka kb : Z) :
  scaled a = Some ka -> scaled b = Some kb -> py_gt a b = (kb <? ka).
Proof.
  intros Ha Hb. destruct a as [m|x], b as [n|y]; cbn [py_gt].
  - injection Ha as <-. injection Hb as <-. unfold Z.ltb.
    rewrite <- Zmult_compare_compat_r by reflexivity. reflexivity.
  - injection Ha as <-. rewrite (int_float_compare_scaled m y kb Hb).
    unfold Z.ltb.
    change (Z.pow_pos 2 1074) with (2 ^ 1074).
    generalize (m * 2 ^ 1074). intros km.
    destruct (Z.compare_spec km kb), (Z.compare_spec kb km);
      try reflexivity; lia.
  - injection Hb as <-. rewrite (int_float_compare_scaled n x ka Ha).
    reflexivity.
  - rewrite ltb_spec. unfold SFltb.
    rewrite (SFcompare_scaled y x kb ka Hb Ha). reflexivity.
Qed.

Lemma py_max_from_spec (xs : list value) :
  Forall (fun v => scaled v <> None) xs ->
  forall best, scaled best <> None ->
    let m := py_max_from best xs in
    In m (best :: xs) /\
    forall x, In x (best :: xs) -> py_gt x m = false.
Proof.
  induction 1 as [|x xs Hx Hxs IH]; intros best Hbest; cbn [py_max_from].
  - split; [left; reflexivity|]. intros x [<- | []].
    destruct (scaled best) as [k|] eqn:E; [|congruence].
    rewrite (py_gt_scaled best best k k E E). apply Z.ltb_irrefl.
  - destruct (scaled best) as [kb|] eqn:Eb; [|congruence].
    destruct (scaled x) as [kx|] eqn:Ex; [|congruence].
    pose proof (py_gt_scaled x best kx kb Ex Eb) as Hgt.
    set (best' := if py_gt x best then x else best) in *.
    assert (Hb' : scaled best' <> None)
      by (unfold best'; destruct (py_gt x best); congruence).
    destruct (IH best' Hb') as [Hin Hub].
    split.
    + destruct Hin as [Hin | Hin]; [|right; right; exact Hin].
      rewrite <- Hin. unfold best'.
      destruct (py_gt x best); [right; left | left]; reflexivity.
    + intros y Hy.
      assert (Hm : In (py_max_from best' xs) (best' :: xs)) by exact Hin.
      destruct Hy as [<- | [<- | Hy]]; [| |apply Hub; right; exact Hy].
      * (* the former best *)
        pose proof (Hub best' (or_introl eq_refl)) as Hbm.
        destruct (scaled (py_max_from best' xs)) as [km|] eqn:Em.
        -- destruct (scaled best') as [kb'|] eqn:Eb'; [|congruence].
           rewrite (py_gt_scaled _ _ kb' km Eb' Em) in Hbm.
           rewrite (py_gt_scaled _ _ kb km Eb Em).
           apply Z.ltb_ge in Hbm. apply Z.ltb_ge.
           unfold best' in Eb'. destruct (py_gt x best) eqn:G.
           ++ rewrite Ex in Eb'. injection Eb' as <-.
              symmetry in Hgt. apply Z.ltb_lt in Hgt. lia.
           ++ rewrite Eb in Eb'. injection Eb' as <-. lia.
        -- exfalso. clear -Em Hm Hb' Hxs.
           assert (Hall : Forall (fun v => scaled v <> None) (best' :: xs))
             by (constructor; assumption).
           rewrite Forall_forall in Hall. apply (Hall _ Hm Em).
      * (* the new item *)
        pose proof (Hub best' (or_introl eq_refl)) as Hbm.
        destruct (scaled (py_max_from best' xs)) as [km|] eqn:Em.
        -- destruct (scaled best') as [kb'|] eqn:Eb'; [|congruence].
           rewrite (py_gt_scaled _ _ kb' km Eb' Em) in Hbm.
           rewrite (py_gt_scaled _ _ kx km Ex Em).
           apply Z.ltb_ge in Hbm. apply Z.ltb_ge.
           unfold best' in Eb'. destruct (py_gt x best) eqn:G.
           ++ rewrite Ex in Eb'. injection Eb' as <-. lia.
           ++ rewrite Eb in Eb'. injection Eb' as <-.
              symmetry in Hgt. apply Z.ltb_ge in Hgt. lia.
        -- exfalso. clear -Em Hm Hb' Hxs.
           assert (Hall : Forall (fun v => scaled v <> None) (best' :: xs))
             by (constructor; assumption).
           rewrite Forall_forall in Hall. apply (Hall _ Hm Em).
Qed.

Lemma py_le_trans (a b c : value) :
  is_number a -> is_number b -> is_number c ->
  py_gt a b = false -> py_gt b c = false -> py_gt a c = false.
Proof.
  unfold is_number. intros Ha Hb Hc.
  destruct (scaled a) as [ka|] eqn:Ea; [|congruence].
  destruct (scaled b) as [kb|] eqn:Eb; [|congruence].
  destruct (scaled c) as [kc|] eqn:Ec; [|congruence].
  rewrite (py_gt_scaled a b ka kb Ea Eb), (py_gt_scaled b c kb kc Eb Ec),
    (py_gt_scaled a c ka kc Ea Ec).
  rewrite !Z.ltb_ge. lia.
Qed.

(** What [max] returns on finite numbers. *)
Lemma py_max_bound (xs : list value) (m : value) :
  Forall is_number xs -> py_max xs = Some m ->
  In m xs /\ forall x, In x xs -> py_gt x m = false.
Proof.
  intros Hnum Hm. destruct xs as [|x xs]; [discriminate Hm|].
  injection Hm as <-. inversion Hnum as [|? ? Hx Hxs]; subst.
  exact (py_max_from_spec xs Hxs x Hx).
Qed.

Lemma Forall2_In_l {A B : Type} (R : A -> B -> Prop) (l : list A) (l' : list B) :
  Forall2 R l l' -> forall a, In a l -> exists b, In b l' /\ R a b.
Proof.
  induction 1 as [|x y l l' Hxy _ IH]; intros a Ha; [destruct Ha|].
  destruct Ha as [<- | Ha].
  - exists y. split; [left; reflexivity | exact Hxy].
  - destruct (IH a Ha) as (b & Hb & Hab). exists b. split; [right|]; assumption.
Qed.

Lemma Forall2_In_r {A B : Type} (R : A -> B -> Prop) (l : list A) (l' : list B) :
  Forall2 R l l' -> forall b, In b l' -> exists a, In a l /\ R a b.
Proof.
  induction 1 as [|x y l l' Hxy _ IH]; intros b Hb; [destruct Hb|].
  destruct Hb as [<- | Hb].
  - exists x. split; [left; reflexivity | exact Hxy].
  - destruct (IH b Hb) as (a & Ha & Hab). exists a. split; [right|]; assumption.
Qed.

(** [max] on finite numbers, integers and floats mixed: it fails exactly on
    the empty list; otherwise it returns an item of the list that no item
    exceeds; and the maximum of the maxima of several lists is, up to [==],
    the maximum of all their items (neither exceeds the other), which is how
    the script gets the largest coarse value. *)
Theorem py_max_spec :
  (forall xs : list value, py_max xs = None <-> xs = []) /\
  (forall (xs : list value) (m : value),
     Forall is_number xs -> py_max xs = Some m ->
     In m xs /\ forall x, In x xs -> py_gt x m = false) /\
  (forall (ls : list (list value)) (ms : list value) (m : value),
     Forall (Forall is_number) ls ->
     Forall2 (fun l ml => py_max l = Some ml) ls ms ->
     py_max ms = Some m ->
     exists m', py_max (concat ls) = Some m' /\
                py_gt m m' = false /\ py_gt m' m = false).
Proof.
  split; [|split].
  - intros [|x xs]; split; intros H; try reflexivity; discriminate H.
  - exact py_max_bound.
  - intros ls ms m Hnum HF Hm.
    assert (Hms : Forall is_number ms).
    { rewrite Forall_forall. intros ml Hml.
      destruct (Forall2_In_r _ _ _ HF ml Hml) as (l & Hl & Hmax).
      rewrite Forall_forall in Hnum. pose proof (Hnum l Hl) as Hln.
      destruct (py_max_bound l ml Hln Hmax) as [Hin _].
      rewrite Forall_forall in Hln. apply Hln, Hin. }
    assert (Hall : Forall is_number (concat ls)) by (apply Forall_concat, Hnum).
    destruct (py_max_bound ms m Hms Hm) as [Hin Hub].
    destruct (Forall2_In_r _ _ _ HF m Hin) as (l & Hl & Hmax).
    assert (Hmc : In m (concat ls)).
    { apply in_concat. exists l. split; [exact Hl|].
      rewrite Forall_forall in Hnum.
      apply (py_max_bound l m (Hnum l Hl) Hmax). }
    destruct (py_max (concat ls)) as [m'|] eqn:Em'.
    + exists m'. split; [reflexivity|].
      destruct (py_max_bound (concat ls) m' Hall Em') as [Hin' Hub'].
      split; [apply Hub', Hmc|].
      apply in_concat in Hin'. destruct Hin' as (l' & Hl' & Hin').
      destruct (Forall2_In_l _ _ _ HF l' Hl') as (ml' & Hml' & Hmax').
      rewrite Forall_forall in Hnum, Hms, Hall.
      destruct (py_max_bound l' ml' (Hnum l' Hl') Hmax') as [_ Hubl].
      apply (py_le_trans m' ml' m).
      * apply Hall, in_concat. exists l'. split; assumption.
      * apply Hms, Hml'.
      * apply Hms, Hin.
      * apply Hubl, Hin'.
      * apply Hub, Hml'.
    + destruct (concat ls); [destruct Hmc | discriminate Em'].
Qed.

(** The theorem at the openSUSE and the Linux Foundation coarse lists. *)
Lemma py_max_spec_witness :
  Forall (Forall is_number)
         [[VInt 19; VInt 26; VFloat 28.14; VFloat 13.86; VFloat 12.5];
          [VInt 8; VInt 22; VInt 29; VInt 21; VInt 19]] /\
  Forall2 (fun l ml => py_max l = Some ml)
          [[VInt 19; VInt 26; VFloat 28.14; VFloat 13.86; VFloat 12.5];
           [VInt 8; VInt 22; VInt 29; VInt 21; VInt 19]]
          [VFloat 28.14; VInt 29] /\
  py_max [VFloat 28.14; VInt 29] = Some (VInt 29) /\
  exists m',
    py_max (concat [[VInt 19; VInt 26; VFloat 28.14; VFloat 13.86; VFloat 12.5];
                    [VInt 8; VInt 22; VInt 29; VInt 21; VInt 19]]) = Some m' /\
    py_gt (VInt 29) m' = false /\ py_gt m' (VInt 29) = false.
Proof.
  assert (H1 : Forall (Forall is_number)
         [[VInt 19; VInt 26; VFloat 28.14; VFloat 13.86; VFloat 12.5];
          [VInt 8; VInt 22; VInt 29; VInt 21; VInt 19]])
    by (repeat constructor; discriminate).
  assert (H2 : Forall2 (fun l ml => py_max l = Some ml)
          [[VInt 19; VInt 26; VFloat 28.14; VFloat 13.86; VFloat 12.5];
           [VInt 8; VInt 22; VInt 29; VInt 21; VInt 19]]
          [VFloat 28.14; VInt 29])
    by (repeat constructor).
  assert (H3 : py_max [VFloat 28.14; VInt 29] = Some (VInt 29))
    by reflexivity.
  split; [exact H1|]. split; [exact H2|]. split; [exact H3|].
  exact (proj2 (proj2 py_max_spec) _ _ _ H1 H2 H3).
Defined.

(** * The axis limit and the reference positions *)

(** The upper limit the script computes for the y axis of the combined
    chart, 1.15 times the largest coarse value (the Debian 35-44 bin), is
    exceeded by no value of the five coarse lists, by no value of the Stack
    Overflow reference line, and by no label anchor [yi + 1.5] of that
    line. *)
Theorem ylim_top_bounds :
  exists a b c d e r top,
    opensuse_coarse = Ok a /\ stackoverflow_coarse = Ok b /\
    linux_foundation_coarse = Ok c /\ debian_coarse = Ok d /\
    cncf_coarse = Ok e /\ so_values_for_reference = Ok r /\
    py_max (a ++ b ++ c ++ d ++ e) = py_max d /\
    (exists m, py_max d = Some m /\ returned (py_mul m (VFloat 1.15)) = Some top) /\
    ylim_top = Some top /\
    Forall (fun v => py_gt v top = false) (a ++ b ++ c ++ d ++ e ++ r) /\
    Forall (fun y => match py_add y (VFloat 1.5) with
                     | Ok anchor => py_gt anchor top = false
                     | Raise _ => False
                     end) r.
Proof.
  do 7 eexists.
  split; [apply opensuse_coarse_eval|].
  split; [apply stackoverflow_coarse_eval|].
  split; [apply linux_foundation_coarse_eval|].
  split; [apply debian_coarse_eval|].
  split; [apply cncf_coarse_eval|].
  split; [unfold so_values_for_reference;
          rewrite stackoverflow_2023_values_eval; reflexivity|].
  split; [vm_compute; reflexivity|].
  split; [exists (VFloat 38.540145985401459); split; vm_compute; reflexivity|].
  split; [vm_compute; reflexivity|].
  split.
  - cbn [app].
    repeat (apply Forall_cons; [vm_compute; reflexivity|]). apply Forall_nil.
  - cbn [removelast py_drop_last].
    repeat (apply Forall_cons; [vm_compute; reflexivity|]). apply Forall_nil.
Qed.

Lemma int_truediv_zero (t : Z) : 0 < t -> int_truediv 0 t = Ok 0%float.
Proof.
  intros Ht. unfold int_truediv.
  destruct (t =? 0) eqn:E; [apply Z.eqb_eq in E; lia|].
  destruct t as [|p|p]; try lia. reflexivity.
Qed.

Lemma int_truediv_same (t : Z) : 0 < t -> int_truediv t t = Ok 1%float.
Proof.
  intros Ht. unfold int_truediv.
  destruct (t =? 0) eqn:E; [apply Z.eqb_eq in E; lia|].
  destruct t as [|p|p]; try lia.
  unfold Z2SF, SFdiv, SFdiv_core_binary.
  replace (Zdigits2 (Zpos p) + 0 - (Zdigits2 (Zpos p) + 0)) with 0 by lia.
  change (Z.min (fexp prec emax 0) (0 - 0)) with (-53).
  change (0 - 0 - -53) with 53.
  rewrite Z.shiftl_mul_pow2 by lia.
  assert (Hd : Z.div_eucl (Zpos p * 2 ^ 53) (Zpos p) = (2 ^ 53, 0)).
  { pose proof (Z.div_mul (2 ^ 53) (Zpos p) ltac:(lia)) as Hq.
    pose proof (Z.mod_mul (2 ^ 53) (Zpos p) ltac:(lia)) as Hr.
    rewrite (Z.mul_comm (2 ^ 53)) in Hq, Hr.
    unfold Z.div, Z.modulo in Hq, Hr.
    destruct (Z.div_eucl (Zpos p * 2 ^ 53) (Zpos p)) as [q r].
    congruence. }
  rewrite Hd.
  assert (Hl : new_location (Zpos p) 0 = loc_Exact)
    by (unfold new_location; destruct (Z.even (Zpos p)); reflexivity).
  rewrite Hl. vm_compute. reflexivity.
Qed.

(** The two ends of the percentage scale are exact: for non-negative counts
    with a positive total, a count of zero converts to the float 0.0, and a
    count equal to the total (every respondent in one bin) to the float
    100.0. *)
Theorem percentage_ends_exact (ns : list Z) :
  Forall (fun c => 0 <= c) ns -> 0 < Zsum ns ->
  exists vs,
    counts_to_percentages (map VInt ns) = Ok vs /\
    forall i c, nth_error ns i = Some c ->
      (c = 0 -> nth_error vs i = Some (VFloat 0)) /\
      (c = Zsum ns -> nth_error vs i = Some (VFloat 100)).
Proof.
  intros Hnn Hpos.
  destruct (counts_to_percentages_values ns Hnn Hpos) as (vs & Hv & _ & Hi).
  exists vs. split; [exact Hv|]. intros i c Hc.
  destruct (Hi i c Hc) as (q & Hq & _ & _ & Hn). split; intros ->.
  - rewrite int_truediv_zero in Hq by exact Hpos. injection Hq as <-.
    rewrite Hn. reflexivity.
  - rewrite int_truediv_same in Hq by exact Hpos. injection Hq as <-.
    rewrite Hn. reflexivity.
Qed.

(** The theorem at the counts [0, 7, 0]. *)
Lemma percentage_ends_exact_witness :
  Forall (fun c => 0 <= c) [0; 7; 0] /\ 0 < Zsum [0; 7; 0] /\
  exists vs,
    counts_to_percentages (map VInt [0; 7; 0]) = Ok vs /\
    nth_error vs 0 = Some (VFloat 0) /\
    nth_error vs 1 = Some (VFloat 100).
Proof.
  assert (H1 : Forall (fun c => 0 <= c) [0; 7; 0]) by (repeat constructor; lia).
  assert (H2 : 0 < Zsum [0; 7; 0]) by reflexivity.
  split; [exact H1|]. split; [exact H2|].
  destruct (percentage_ends_exact [0; 7; 0] H1 H2) as (vs & Hv & Hi).
  exists vs. split; [exact Hv|]. split.
  - exact (proj1 (Hi 0%nat 0 eq_refl) eq_refl).
  - exact (proj2 (Hi 1%nat 7 eq_refl) eq_refl).
Defined.

(** Every integer from 15 to 70 is [15 + k] for some [k] below 56. *)
Lemma age_in_range (a : Z) :
  15 <= a <= 70 -> In a (map (fun k => 15 + Z.of_nat k) (seq 0 56)).
Proof.
  intros Ha. apply in_map_iff. exists (Z.to_nat (a - 15)).
  split; [lia|]. apply in_seq. lia.
Qed.

(** The map from ages to the x axis of the combined chart, on integer ages
    from 15 to 70: it raises nothing, sends 15 to -0.5 and 70 to 4.5 exactly,
    stays between these two, and is strictly increasing.  The seven
    positions the script computes are strictly increasing, lie in that range
    and are as many as the reference values they are plotted against. *)
Theorem age_to_x_range :
  age_to_x (VInt 15) = Ok (VFloat (-0.5)) /\
  age_to_x (VInt 70) = Ok (VFloat 4.5) /\
  (forall a : Z, 15 <= a <= 70 ->
     exists x, age_to_x (VInt a) = Ok (VFloat x) /\
               (-0.5 <=? x)%float = true /\ (x <=? 4.5)%float = true) /\
  (forall a b : Z, 15 <= a -> a < b -> b <= 70 ->
     exists x y, age_to_x (VInt a) = Ok (VFloat x) /\
                 age_to_x (VInt b) = Ok (VFloat y) /\
                 (x <? y)%float = true) /\
  (exists xs r,
     so_x_positions = Ok xs /\ so_values_for_reference = Ok r /\
     length xs = length r /\
     Forall (fun x => py_gt (VFloat (-0.5)) x = false /\
                      py_gt x (VFloat 4.5) = false) xs /\
     forall i j x y, (i < j)%nat -> nth_error xs i = Some x ->
                     nth_error xs j = Some y -> py_gt y x = true).
Proof.
  set (ages := map (fun k => 15 + Z.of_nat k) (seq 0 56)).
  set (in_range := fun a =>
         match age_to_x (VInt a) with
         | Ok (VFloat x) => ((-0.5 <=? x) && (x <=? 4.5))%float
         | _ => false
         end).
  set (increasing := fun a b =>
         match age_to_x (VInt a), age_to_x (VInt b) with
         | Ok (VFloat x), Ok (VFloat y) => (x <? y)%float
         | _, _ => false
         end).
  assert (H1 : forallb in_range ages = true) by (vm_compute; reflexivity).
  assert (H2 : forallb (fun a => forallb (fun b => negb (a <? b) || increasing a b)
                                         ages) ages = true)
    by (vm_compute; reflexivity).
  rewrite forallb_forall in H1, H2.
  split; [vm_compute; reflexivity|]. split; [vm_compute; reflexivity|].
  split; [|split].
  - intros a Ha. specialize (H1 a (age_in_range a Ha)). unfold in_range in H1.
    destruct (age_to_x (VInt a)) as [[n|x]|]; try discriminate H1.
    apply andb_prop in H1. exists x. split; [reflexivity | exact H1].
  - intros a b Ha Hab Hb.
    specialize (H2 a (age_in_range a ltac:(lia))).
    rewrite forallb_forall in H2.
    specialize (H2 b (age_in_range b ltac:(lia))).
    assert (E : (a <? b) = true) by (apply Z.ltb_lt; exact Hab).
    rewrite E in H2. cbn [negb orb] in H2. unfold increasing in H2.
    destruct (age_to_x (VInt a)) as [[n|x]|]; try discriminate H2.
    destruct (age_to_x (VInt b)) as [[n|y]|]; try discriminate H2.
    exists x, y. repeat split. exact H2.
  - assert (Hx : so_x_positions =
                 Ok [VFloat (-0.40909090909090906); VFloat 0.045454545454545414;
                     VFloat 0.81818181818181812; VFloat 1.7272727272727271;
                     VFloat 2.6363636363636367; VFloat 3.545454545454545;
                     VFloat 4.5]) by (vm_compute; reflexivity).
    do 2 eexists. split; [exact Hx|].
    split; [unfold so_values_for_reference;
            rewrite stackoverflow_2023_values_eval; reflexivity|].
    split; [reflexivity|]. split.
    + repeat (apply Forall_cons; [split; vm_compute; reflexivity|]).
      apply Forall_nil.
    + intros i j x y Hij Hi Hj.
      do 7 (destruct i as [|i]; [injection Hi as <-;
              do 7 (destruct j as [|j]; [first [lia | injection Hj as <-;
                                                vm_compute; reflexivity]|]);
              destruct j; discriminate Hj|]).
      destruct i; discriminate Hi.
Qed.

(** The theorem at the ages 16 and 21. *)
Lemma age_to_x_range_witness :
  15 <= 16 /\ 16 < 21 /\ 21 <= 70 /\
  exists x y, age_to_x (VInt 16) = Ok (VFloat x) /\
              age_to_x (VInt 21) = Ok (VFloat y) /\
              (x <? y)%float = true.
Proof.
  assert (H1 : 15 <= 16) by lia.
  assert (H2 : 16 < 21) by lia.
  assert (H3 : 21 <= 70) by lia.
  split; [exact H1|]. split; [exact H2|]. split; [exact H3|].
  exact (proj1 (proj2 (proj2 (proj2 age_to_x_range))) 16 21 H1 H2 H3).
Defined.

(** * Rounding, exactly *)

Lemma Zdigits2_pos_log2 (m : Z) : 0 < m -> Zdigits2 m = Z.log2 m + 1.
Proof. destruct m as [|p|p]; try lia. intros _. apply Zdigits2_log2. Qed.

(** Dropping [n] low bits drops [n] digits. *)
Lemma Zdigits2_div_pow2 (m n : Z) :
  0 < m -> 0 <= n -> Zdigits2 (m / 2 ^ n) = Z.max 0 (Zdigits2 m - n).
Proof.
  intros Hm Hn. rewrite (Zdigits2_pos_log2 m Hm).
  rewrite <- Z.shiftr_div_pow2 by lia.
  pose proof (Z.log2_shiftr m n Hm) as Hl.
  pose proof (Z.shiftr_nonneg m n) as Hnn.
  destruct (Z.eq_dec (Z.shiftr m n) 0) as [E0 | E0].
  - rewrite E0. cbn [Zdigits2].
    apply Z.shiftr_eq_0_iff in E0. destruct E0 as [E0 | [_ E0]]; lia.
  - rewrite Zdigits2_pos_log2 by lia. rewrite Hl.
    assert (n <= Z.log2 m).
    { destruct (Z.le_gt_cases n (Z.log2 m)) as [H | H]; [exact H|].
      exfalso. apply E0. apply Z.shiftr_eq_0; lia. }
    lia.
Qed.

Lemma shr_1_div (mrs : shr_record) :
  0 <= shr_m mrs -> shr_m (shr_1 mrs) = shr_m mrs / 2.
Proof.
  destruct mrs as [m r s]; cbn [shr_m]. intros Hm.
  rewrite <- Z.div2_div.
  destruct m as [|p|p]; [reflexivity| |lia]. destruct p; reflexivity.
Qed.

Lemma pow2_xI (p : positive) : 2 ^ Zpos p~1 = 2 ^ Zpos p * 2 ^ Zpos p * 2.
Proof.
  replace (Zpos p~1) with (Zpos p + Zpos p + 1) by lia.
  rewrite !Z.pow_add_r by lia. reflexivity.
Qed.

Lemma pow2_xO (p : positive) : 2 ^ Zpos p~0 = 2 ^ Zpos p * 2 ^ Zpos p.
Proof.
  replace (Zpos p~0) with (Zpos p + Zpos p) by lia.
  rewrite Z.pow_add_r by lia. reflexivity.
Qed.

Lemma iter_pos_shr_1_div (p : positive) :
  forall mrs, 0 <= shr_m mrs ->
              shr_m (iter_pos shr_1 p mrs) = shr_m mrs / 2 ^ Zpos p.
Proof.
  induction p as [p IH | p IH |]; intros mrs Hm; cbn [iter_pos].
  - pose proof (shr_1_bounds mrs Hm) as B0.
    pose proof (iter_pos_shr_1_bounds p _ (proj1 B0)) as B1.
    assert (0 < 2 ^ Zpos p) by (apply Z.pow_pos_nonneg; lia).
    rewrite IH by lia. rewrite IH by lia. rewrite shr_1_div by lia.
    rewrite !Z.div_div by lia. rewrite pow2_xI.
    f_equal. ring.
  - pose proof (iter_pos_shr_1_bounds p _ Hm) as B1.
    assert (0 < 2 ^ Zpos p) by (apply Z.pow_pos_nonneg; lia).
    rewrite IH by lia. rewrite IH by lia.
    rewrite Z.div_div by lia. rewrite pow2_xO. reflexivity.
  - rewrite shr_1_div by exact Hm. reflexivity.
Qed.

(** The first component of [shr_fexp] is the significand with the low bits
    dropped, the second the exponent of the format. *)
Lemma shr_fexp_div (m e : Z) (l : location) :
  0 <= m ->
  let n := Z.max 0 (fexp prec emax (Zdigits2 m + e) - e) in
  shr_m (fst (shr_fexp prec emax m e l)) = m / 2 ^ n /\
  snd (shr_fexp prec emax m e l) = e + n.
Proof.
  intros Hm n. unfold shr_fexp, shr. subst n.
  destruct (fexp prec emax (Zdigits2 m + e) - e) as [|p|p]; cbn [fst snd].
  - rewrite shr_m_of_loc. change (Z.max 0 0) with 0.
    rewrite Z.pow_0_r, Z.div_1_r. split; [reflexivity | lia].
  - rewrite iter_pos_shr_1_div by (rewrite shr_m_of_loc; exact Hm).
    rewrite shr_m_of_loc. rewrite Z.max_r by lia. split; reflexivity.
  - rewrite shr_m_of_loc. rewrite Z.max_l by lia.
    rewrite Z.pow_0_r, Z.div_1_r. split; [reflexivity | lia].
Qed.

(** What [binary_round_aux] returns when it returns a finite number: the
    result is not below the exponent it was given, exceeds the significand it
    was given by less than one unit of the format, and is a binary64 datum as
    soon as the significand has enough digits. *)
Lemma binary_round_aux_finite
      (sx s : bool) (mx ex : Z) (lx : location) (m : positive) (e : Z) :
  0 <= mx ->
  binary_round_aux prec emax sx mx ex lx = S754_finite s m e ->
  let e1 := Z.max ex (fexp prec emax (Zdigits2 mx + ex)) in
  ex <= e /\
  Zpos m * 2 ^ (e - ex) <= mx + 2 ^ (e1 - ex) /\
  (ex <= fexp prec emax (Zdigits2 mx + ex) -> bounded prec emax m e = true).
Proof.
  intros Hm. unfold binary_round_aux.
  pose proof (shr_fexp_div mx ex lx Hm) as D1. cbv zeta in D1.
  destruct (shr_fexp prec emax mx ex lx) as [mrs' e'] eqn:E1.
  cbn [fst snd] in D1. destruct D1 as [Dm1 De1].
  set (n1 := Z.max 0 (fexp prec emax (Zdigits2 mx + ex) - ex)) in *.
  pose proof (round_nearest_even_bounds (shr_m mrs') (loc_of_shr_record mrs')) as R.
  set (m1 := round_nearest_even (shr_m mrs') (loc_of_shr_record mrs')) in *.
  assert (Hn1 : 0 <= n1) by (unfold n1; lia).
  assert (Hp1 : 0 < 2 ^ n1) by (apply Z.pow_pos_nonneg; lia).
  assert (Hm' : 0 <= shr_m mrs') by (rewrite Dm1; apply Z.div_pos; lia).
  pose proof (Z.mul_div_le mx (2 ^ n1) Hp1) as Hle1. rewrite <- Dm1 in Hle1.
  assert (Hm1 : 0 <= m1) by lia.
  pose proof (shr_fexp_div m1 e' loc_Exact Hm1) as D2. cbv zeta in D2.
  destruct (shr_fexp prec emax m1 e' loc_Exact) as [mrs'' e''] eqn:E2.
  cbn [fst snd] in D2. destruct D2 as [Dm2 De2].
  set (n2 := Z.max 0 (fexp prec emax (Zdigits2 m1 + e') - e')) in *.
  assert (Hn2 : 0 <= n2) by (unfold n2; lia).
  assert (Hp2 : 0 < 2 ^ n2) by (apply Z.pow_pos_nonneg; lia).
  pose proof (Z.mul_div_le m1 (2 ^ n2) Hp2) as Hle2. rewrite <- Dm2 in Hle2.
  destruct (shr_m mrs'') as [|p|p] eqn:Ep; try discriminate.
  destruct (e'' <=? emax - prec) eqn:Ee; try discriminate.
  intros H; injection H as _ <- <-.
  set (e1 := Z.max ex (fexp prec emax (Zdigits2 mx + ex))).
  split; [lia|]. split.
  - replace (e'' - ex) with (n2 + n1) by lia.
    replace (e1 - ex) with n1 by (unfold e1, n1; lia).
    rewrite Z.pow_add_r by lia. nia.
  - intros Hdig. unfold bounded. rewrite Ee, andb_true_r.
    unfold canonical_mantissa. apply Z.eqb_eq.
    change (Zpos (digits2_pos p)) with (Zdigits2 (Zpos p)).
    assert (En1 : n1 = Z.max 0 (Z.max (Zdigits2 mx + ex - 53) (-1074) - ex))
      by reflexivity.
    assert (En2 : n2 = Z.max 0 (Z.max (Zdigits2 m1 + e' - 53) (-1074) - e'))
      by reflexivity.
    rewrite fexp_eq in Hdig. rewrite fexp_eq.
    assert (Hm1pos : 0 < m1).
    { destruct (Z.eq_dec m1 0) as [Z0 | Z0]; [|lia].
      rewrite Z0 in Dm2. rewrite Z.div_0_l in Dm2 by lia. lia. }
    assert (HP2 : e' <= Z.max (Zdigits2 m1 + e' - 53) (-1074)).
    { destruct (Z.le_gt_cases (Zdigits2 mx + ex - 53) (-1074)) as [Hs | Hs];
        [lia|].
      assert (Hmx : 0 < mx).
      { destruct (Z.eq_dec mx 0) as [Z0 | Z0]; [|lia].
        assert (Zdigits2 mx = 0) by (rewrite Z0; reflexivity). lia. }
      pose proof (Zdigits2_div_pow2 mx n1 Hmx Hn1) as Hd'.
      rewrite <- Dm1 in Hd'.
      pose proof (Zdigits2_mono (shr_m mrs') m1 ltac:(lia)) as Hmono.
      lia. }
    pose proof (Zdigits2_div_pow2 m1 n2 Hm1pos Hn2) as Hd''.
    rewrite <- Dm2 in Hd''.
    assert (0 < Zdigits2 (Zpos p)) by (cbn [Zdigits2]; lia).
    lia.
Qed.

(** When [binary_round_aux] overflows, a significand at an exponent above
    971 obeys the same estimate. *)
Lemma binary_round_aux_infinity
      (sx s : bool) (mx ex : Z) (lx : location) :
  0 <= mx ->
  binary_round_aux prec emax sx mx ex lx = S754_infinity s ->
  exists m e,
    971 < e /\ ex <= e /\ 0 < m /\
    m * 2 ^ (e - ex)
    <= mx + 2 ^ (Z.max ex (fexp prec emax (Zdigits2 mx + ex)) - ex).
Proof.
  intros Hm. unfold binary_round_aux.
  pose proof (shr_fexp_div mx ex lx Hm) as D1. cbv zeta in D1.
  destruct (shr_fexp prec emax mx ex lx) as [mrs' e'] eqn:E1.
  cbn [fst snd] in D1. destruct D1 as [Dm1 De1].
  set (n1 := Z.max 0 (fexp prec emax (Zdigits2 mx + ex) - ex)) in *.
  pose proof (round_nearest_even_bounds (shr_m mrs') (loc_of_shr_record mrs')) as R.
  set (m1 := round_nearest_even (shr_m mrs') (loc_of_shr_record mrs')) in *.
  assert (Hn1 : 0 <= n1) by (unfold n1; lia).
  assert (Hp1 : 0 < 2 ^ n1) by (apply Z.pow_pos_nonneg; lia).
  assert (Hm' : 0 <= shr_m mrs') by (rewrite Dm1; apply Z.div_pos; lia).
  pose proof (Z.mul_div_le mx (2 ^ n1) Hp1) as Hle1. rewrite <- Dm1 in Hle1.
  assert (Hm1 : 0 <= m1) by lia.
  pose proof (shr_fexp_div m1 e' loc_Exact Hm1) as D2. cbv zeta in D2.
  destruct (shr_fexp prec emax m1 e' loc_Exact) as [mrs'' e''] eqn:E2.
  cbn [fst snd] in D2. destruct D2 as [Dm2 De2].
  set (n2 := Z.max 0 (fexp prec emax (Zdigits2 m1 + e') - e')) in *.
  assert (Hn2 : 0 <= n2) by (unfold n2; lia).
  assert (Hp2 : 0 < 2 ^ n2) by (apply Z.pow_pos_nonneg; lia).
  pose proof (Z.mul_div_le m1 (2 ^ n2) Hp2) as Hle2. rewrite <- Dm2 in Hle2.
  destruct (shr_m mrs'') as [|p|p] eqn:Ep; try discriminate.
  destruct (e'' <=? emax - prec) eqn:Ee; try discriminate.
  intros _. apply Z.leb_gt in Ee. change (emax - prec) with 971 in Ee.
  exists (Zpos p), e''. split; [lia|]. split; [lia|]. split; [lia|].
  replace (e'' - ex) with (n2 + n1) by lia.
  replace (Z.max ex (fexp prec emax (Zdigits2 mx + ex)) - ex) with n1
    by (unfold n1; lia).
  rewrite Z.pow_add_r by lia. nia.
Qed.

(** The quotient digits [SFdiv_core_binary] hands to the rounding have enough
    digits for the format, and stay below one when [a < b]. *)
Lemma SFdiv_core_binary_digits (a b : positive) :
  (Zpos a <= Zpos b) ->
  let '(q, e, _) := SFdiv_core_binary prec emax (Zpos a) 0 (Zpos b) 0 in
  e <= fexp prec emax (Zdigits2 q + e) /\
  (Zpos a < Zpos b -> q < 2 ^ (- e)).
Proof.
  intros Hab. unfold SFdiv_core_binary.
  pose proof (Zdigits2_mono (Zpos a) (Zpos b) ltac:(lia)) as Hd.
  pose proof (Zdigits2_log2 a) as Ha. pose proof (Zdigits2_log2 b) as Hb.
  destruct (Z.log2_spec (Zpos a) ltac:(lia)) as [Halo _].
  destruct (Z.log2_spec (Zpos b) ltac:(lia)) as [_ Hbhi].
  pose proof (Z.log2_nonneg (Zpos a)) as Hla.
  pose proof (Z.log2_nonneg (Zpos b)) as Hlb.
  set (d1 := Zdigits2 (Zpos a)) in *. set (d2 := Zdigits2 (Zpos b)) in *.
  set (e' := Z.min (fexp prec emax (d1 + 0 - (d2 + 0))) (0 - 0)).
  assert (He : e' = Z.min (Z.max (d1 - d2 - 53) (-1074)) 0)
    by (unfold e'; rewrite fexp_eq; f_equal; f_equal; lia).
  destruct (0 - 0 - e') as [|s|s] eqn:Es; try lia.
  rewrite Z.shiftl_mul_pow2 by lia.
  pose proof (Z_div_mod (Zpos a * 2 ^ Zpos s) (Zpos b) ltac:(lia)) as Hdiv.
  destruct (Z.div_eucl (Zpos a * 2 ^ Zpos s) (Zpos b)) as [q r].
  destruct Hdiv as [Hq Hr].
  replace (- e') with (Zpos s) by lia.
  assert (Hp : 0 < 2 ^ Zpos s) by (apply Z.pow_pos_nonneg; lia).
  assert (Hq0 : 0 <= q) by nia.
  split; [|intros Hlt; nia].
  rewrite fexp_eq.
  destruct (Z.le_gt_cases (d1 - d2 - 53) (-1074)) as [Hs | Hs]; [lia|].
  assert (Es' : Zpos s = 53 + (d2 - d1)) by lia.
  assert (H52 : 2 ^ 52 <= q).
  { replace (Z.succ (Z.log2 (Zpos b))) with d2 in Hbhi by lia.
    replace (Z.log2 (Zpos a)) with (d1 - 1) in Halo by lia.
    assert (Hk : 0 < 2 ^ (d2 - d1)) by (apply Z.pow_pos_nonneg; lia).
    assert (HA : 0 < 2 ^ (d1 - 1)) by (apply Z.pow_pos_nonneg; lia).
    assert (E1 : 2 ^ Zpos s = 2 ^ 53 * 2 ^ (d2 - d1))
      by (rewrite Es', Z.pow_add_r by lia; reflexivity).
    assert (E2 : 2 ^ d2 = 2 ^ (d1 - 1) * (2 * 2 ^ (d2 - d1))).
    { replace d2 with ((d1 - 1) + (1 + (d2 - d1))) at 1 by lia.
      rewrite !Z.pow_add_r by lia. reflexivity. }
    change (2 ^ 53) with 9007199254740992 in E1.
    change (2 ^ 52) with 4503599627370496.
    set (K := 2 ^ (d2 - d1)) in *. set (A := 2 ^ (d1 - 1)) in *.
    assert (A * K <= Zpos a * K) by nia.
    nia. }
  assert (53 <= Zdigits2 q).
  { rewrite Zdigits2_pos_log2 by lia.
    assert (52 <= Z.log2 q) by (apply Z.log2_le_pow2; lia). lia. }
  lia.
Qed.

(** A binary64 significand [m] at exponent [e] that an estimate puts below
    [B * 2^k] plus less than one unit ([2^k] being the spacing of the format
    above [B * 2^k]) is at most [B * 2^k]. *)
Lemma below_next_float (m : positive) (e k B : Z) :
  Zpos m < 2 ^ 53 -> -1074 <= e -> -1074 <= k ->
  2 ^ 52 <= B < 2 ^ 53 ->
  (k <= e -> Zpos m * 2 ^ (e - k) <= B) ->
  Zpos m * 2 ^ (e + 1074) <= B * 2 ^ (k + 1074).
Proof.
  intros Hm He Hk HB Hhi.
  destruct (Z.le_gt_cases k e) as [Hke | Hke].
  - specialize (Hhi Hke).
    replace (e + 1074) with ((e - k) + (k + 1074)) by lia.
    rewrite Z.pow_add_r by lia. rewrite Z.mul_assoc.
    apply Z.mul_le_mono_nonneg_r; [apply Z.pow_nonneg; lia | exact Hhi].
  - replace (k + 1074) with ((k - e - 1) + 1 + (e + 1074)) by lia.
    rewrite (Z.pow_add_r 2 (k - e - 1 + 1) (e + 1074)) by lia.
    rewrite (Z.pow_add_r 2 (k - e - 1) 1) by lia. change (2 ^ 1) with 2.
    assert (0 < 2 ^ (k - e - 1)) by (apply Z.pow_pos_nonneg; lia).
    assert (0 < 2 ^ (e + 1074)) by (apply Z.pow_pos_nonneg; lia).
    change (2 ^ 53) with 9007199254740992 in *.
    change (2 ^ 52) with 4503599627370496 in *.
    set (P := 2 ^ (e + 1074)) in *. set (G := 2 ^ (k - e - 1)) in *.
    assert (Zpos m * P <= B * 2 * P) by nia.
    assert (B * 2 * P * 1 <= B * 2 * P * G) by (apply Z.mul_le_mono_nonneg_l; nia).
    nia.
Qed.

(** [a / b] on integers [0 <= a <= b], [0 < b], is a float between zero and
    one. *)
Lemma int_truediv_unit (a b : Z) :
  0 <= a <= b -> 0 < b ->
  exists q k, int_truediv a b = Ok q /\
              scaled (VFloat q) = Some k /\ 0 <= k <= 2 ^ 1074.
Proof.
  intros [Ha Hab] Hb.
  destruct (Z.eq_dec a 0) as [-> | Ha0].
  { exists 0%float, 0. split; [apply int_truediv_zero, Hb|].
    split; [reflexivity|]. split; [lia | apply Z.pow_nonneg; lia]. }
  destruct (Z.eq_dec a b) as [-> | Hne].
  { exists 1%float, (2 ^ 1074). split; [apply int_truediv_same, Hb|].
    split; [vm_compute; reflexivity|].
    split; [apply Z.pow_nonneg; lia | apply Z.le_refl]. }
  unfold int_truediv.
  destruct (b =? 0) eqn:Eb; [apply Z.eqb_eq in Eb; lia|].
  destruct b as [|pb|pb]; try lia. destruct a as [|pa|pa]; try lia.
  unfold Z2SF, SFdiv.
  pose proof (SFdiv_core_binary_small pa pb Hab) as Hc.
  pose proof (SFdiv_core_binary_digits pa pb Hab) as Hg.
  destruct (SFdiv_core_binary prec emax (Zpos pa) 0 (Zpos pb) 0) as [[q e] l].
  destruct Hc as [[Hq0 _] He]. destruct Hg as [Hdig Hlt].
  specialize (Hlt ltac:(lia)).
  assert (Hp : 1 <= 2 ^ (- e)) by (apply (Z.pow_le_mono_r 2 0); lia).
  assert (Hdq : Zdigits2 q <= - e) by (apply Zdigits2_le_pow2; lia).
  assert (Hno : forall s, binary_round_aux prec emax (xorb false false) q e l
                          <> S754_infinity s).
  { apply (binary_round_aux_no_overflow _ q e l (- e + 2) (-52)); try lia.
    - rewrite Z.pow_add_r by lia. change (2 ^ 2) with 4. lia.
    - rewrite fexp_eq. lia. }
  pose proof (binary_round_aux_sign (xorb false false) q e l Hq0) as Hsg.
  destruct (binary_round_aux prec emax (xorb false false) q e l)
    as [s|s| |s m e''] eqn:E.
  - exists (SF2Prim (S754_zero s)), 0. split; [reflexivity|]. split.
    + unfold scaled. rewrite Prim2SF_SF2Prim by reflexivity. reflexivity.
    + split; [lia | apply Z.pow_nonneg; lia].
  - exfalso. eapply Hno. reflexivity.
  - contradiction.
  - destruct (binary_round_aux_finite _ _ _ _ _ _ _ Hq0 E) as (Hee & Hup & Hbd).
    specialize (Hbd Hdig). subst s. cbn [xorb] in *.
    destruct (bounded_facts m e'' Hbd) as (He'' & Hm53 & _).
    exists (SF2Prim (S754_finite false m e'')), (Zpos m * 2 ^ (e'' + 1074)).
    split; [reflexivity|]. split.
    + unfold scaled. rewrite Prim2SF_SF2Prim by exact Hbd. reflexivity.
    + split; [apply Z.mul_nonneg_nonneg; [lia | apply Z.pow_nonneg; lia]|].
      change (2 ^ 1074) with (2 ^ 52 * 2 ^ (-52 + 1074)).
      apply below_next_float; try lia.
      intros H52.
      rewrite fexp_eq in Hup.
      assert (Hpe : 2 ^ (Z.max e (Z.max (Zdigits2 q + e - 53) (-1074)) - e)
                    <= 2 ^ (- e - 53))
        by (apply Z.pow_le_mono_r; lia).
      replace (e'' - e) with ((e'' - -52) + 1 + (- e - 53)) in Hup by lia.
      replace (- e) with (53 + (- e - 53)) in Hlt by lia.
      rewrite Z.pow_add_r in Hlt by lia.
      rewrite (Z.pow_add_r 2 (e'' - -52 + 1)) in Hup by lia.
      rewrite (Z.pow_add_r 2 (e'' - -52) 1) in Hup by lia.
      change (2 ^ 1) with 2 in Hup.
      assert (0 < 2 ^ (- e - 53)) by (apply Z.pow_pos_nonneg; lia).
      assert (0 < 2 ^ (e'' - -52)) by (apply Z.pow_pos_nonneg; lia).
      change (2 ^ 53) with 9007199254740992 in *.
      change (2 ^ 52) with 4503599627370496.
      set (X := 2 ^ (e'' - -52)) in *. set (Zs := 2 ^ (- e - 53)) in *.
      assert (Hx : 2 * (Zpos m * X) * Zs < 9007199254740993 * Zs) by nia.
      apply Z.mul_lt_mono_pos_r in Hx; lia.
Qed.

Lemma Prim2SF_100 :
  Prim2SF 100 = S754_finite false 7036874417766400 (-46).
Proof. vm_compute. reflexivity. Qed.

(** A float between zero and one, times the float 100.0, is a float between
    0 and 100. *)
Lemma mul_100_range (x : float) (k : Z) :
  scaled (VFloat x) = Some k -> 0 <= k <= 2 ^ 1074 ->
  exists k', scaled (VFloat (x * 100)) = Some k' /\
             0 <= k' <= 100 * 2 ^ 1074.
Proof.
  intros Hk Hr. pose proof (scaled_float x k Hk) as Hs.
  pose proof (Prim2SF_valid (x * 100)) as Hv.
  unfold scaled. rewrite mul_spec, Prim2SF_100 in *.
  assert (H0 : 0 <= 100 * 2 ^ 1074)
    by (apply Z.mul_nonneg_nonneg; [lia | apply Z.pow_nonneg; lia]).
  destruct (Prim2SF x) as [s|s| |s m e]; try contradiction.
  - exists 0. split; [reflexivity | lia].
  - destruct Hs as [-> Hb].
    destruct (bounded_facts m e Hb) as (He & Hm53 & Hnorm).
    assert (HP : 0 < 2 ^ (e + 1074)) by (apply Z.pow_pos_nonneg; lia).
    destruct s.
    { exfalso. change (cond_Zopp true (Zpos m)) with (- Zpos m) in Hr. nia. }
    cbn [cond_Zopp] in Hr. unfold SF64mul in *. cbn [SFmul] in *.
    destruct (Z.le_gt_cases e (-53)) as [Hsmall | Hbig].
    + (* x < 1 *)
      assert (HW : 2 ^ 53 <= 2 ^ (- e)) by (apply Z.pow_le_mono_r; lia).
      rewrite Pos2Z.inj_mul in *.
      assert (Hmx : 0 <= Zpos m * 7036874417766400) by lia.
      assert (Hlt : Zpos m * 7036874417766400 < 2 ^ 53 * 2 ^ (- e))
        by (change (2 ^ 53) with 9007199254740992 in *; nia).
      assert (Hdg : Zdigits2 (Zpos m * 7036874417766400) <= 53 + - e)
        by (apply Zdigits2_le_pow2; try lia; rewrite Z.pow_add_r by lia; lia).
      assert (Hpe : 2 ^ (Z.max (e + -46)
                           (fexp prec emax
                              (Zdigits2 (Zpos m * 7036874417766400)
                               + (e + -46)))
                         - (e + -46))
                    <= 2 ^ (- e))
        by (apply Z.pow_le_mono_r; rewrite ?fexp_eq; lia).
      pose proof (binary_round_aux_sign (xorb false false)
                    (Zpos m * 7036874417766400) (e + -46) loc_Exact Hmx) as Hsg.
      destruct (binary_round_aux prec emax (xorb false false)
                  (Zpos m * 7036874417766400) (e + -46) loc_Exact)
        as [s|s| |s m' e'] eqn:E.
      * exists 0. split; [reflexivity | lia].
      * exfalso.
        destruct (binary_round_aux_infinity _ _ _ _ _ Hmx E)
          as (mi & ei & Hei & Hexi & Hmi & Hupi).
        assert (HT : 2 ^ (54 + - e) <= 2 ^ (ei - (e + -46)))
          by (apply Z.pow_le_mono_r; lia).
        rewrite Z.pow_add_r in HT by lia.
        change (2 ^ 54) with 18014398509481984 in HT.
        change (2 ^ 53) with 9007199254740992 in *.
        set (T := 2 ^ (ei - (e + -46))) in *. set (W := 2 ^ (- e)) in *.
        assert (T <= mi * T) by nia.
        lia.
      * contradiction.
      * destruct (binary_round_aux_finite _ _ _ _ _ _ _ Hmx E) as (Hee & Hup & _).
        subst s. cbn [xorb cond_Zopp] in *.
        change (valid_binary (S754_finite false m' e'))
          with (bounded prec emax m' e') in Hv.
        destruct (bounded_facts m' e' Hv) as (He' & Hm53' & _).
        exists (Zpos m' * 2 ^ (e' + 1074)). split; [reflexivity|].
        split; [apply Z.mul_nonneg_nonneg; [lia | apply Z.pow_nonneg; lia]|].
        change (100 * 2 ^ 1074) with (7036874417766400 * 2 ^ (-46 + 1074)).
        apply below_next_float; try lia.
        intros H46.
        replace (e' - (e + -46)) with ((e' - -46) + - e) in Hup by lia.
        rewrite (Z.pow_add_r 2 (e' - -46) (- e)) in Hup by lia.
        assert (0 < 2 ^ (e' - -46)) by (apply Z.pow_pos_nonneg; lia).
        change (2 ^ 53) with 9007199254740992 in *.
        set (X := 2 ^ (e' - -46)) in *. set (W := 2 ^ (- e)) in *.
        assert (Hx : Zpos m' * X * W < 7036874417766401 * W) by nia.
        apply Z.mul_lt_mono_pos_r in Hx; lia.
    + (* x = 1 *)
      assert (Hm52 : 2 ^ 52 <= Zpos m) by (apply Hnorm; lia).
      assert (HP' : 2 ^ 1022 <= 2 ^ (e + 1074)) by (apply Z.pow_le_mono_r; lia).
      assert (Hk1 : 2 ^ 52 * 2 ^ 1022 <= Zpos m * 2 ^ (e + 1074))
        by (apply Z.mul_le_mono_nonneg; try exact Hm52; try exact HP';
            apply Z.pow_nonneg; lia).
      change (2 ^ 52 * 2 ^ 1022) with (2 ^ 1074) in Hk1.
      assert (Ee : e = -52).
      { destruct (Z.eq_dec e (-52)) as [Ee | Ne]; [exact Ee | exfalso].
        assert (HP'' : 2 * 2 ^ 1022 <= 2 ^ (e + 1074)).
        { change (2 * 2 ^ 1022) with (2 ^ 1023). apply Z.pow_le_mono_r; lia. }
        assert (Hk2 : 2 ^ 52 * (2 * 2 ^ 1022) <= Zpos m * 2 ^ (e + 1074))
          by (apply Z.mul_le_mono_nonneg; try exact Hm52; try exact HP'';
              try (apply Z.pow_nonneg; lia);
              apply Z.mul_nonneg_nonneg; [lia | apply Z.pow_nonneg; lia]).
        change (2 ^ 52 * (2 * 2 ^ 1022)) with (2 * 2 ^ 1074) in Hk2.
        assert (0 < 2 ^ 1074) by (apply Z.pow_pos_nonneg; lia).
        lia. }
      subst e. change (-52 + 1074) with 1022 in *.
      assert (Em : Zpos m = 2 ^ 52).
      { apply Z.le_antisymm; [|exact Hm52].
        apply (Z.mul_le_mono_pos_r _ _ (2 ^ 1022));
          [apply Z.pow_pos_nonneg; lia|].
        change (2 ^ 52 * 2 ^ 1022) with (2 ^ 1074). lia. }
      change (2 ^ 52) with (Zpos 4503599627370496) in Em.
      injection Em as ->.
      exists (100 * 2 ^ 1074). split; [vm_compute; reflexivity|].
      split; [exact H0 | apply Z.le_refl].
Qed.

(** Every percentage the conversion computes from non-negative counts with a
    positive total is a finite float between 0 and 100 (C-style comparisons
    of Python: neither [0 > v] nor [v > 100]). *)
Theorem percentages_in_range (ns : list Z) :
  Forall (fun c => 0 <= c) ns -> 0 < Zsum ns ->
  exists vs,
    counts_to_percentages (map VInt ns) = Ok vs /\
    length vs = length ns /\
    Forall (fun v => is_number v /\
                     py_gt (VInt 0) v = false /\
                     py_gt v (VInt 100) = false) vs.
Proof.
  intros Hnn Hpos.
  destruct (counts_to_percentages_values ns Hnn Hpos) as (vs & Hvs & Hlen & Hnth).
  exists vs. split; [exact Hvs|]. split; [exact Hlen|].
  apply Forall_forall. intros v Hin.
  apply In_nth_error in Hin. destruct Hin as [i Hi].
  assert (Hlt : (i < length ns)%nat).
  { rewrite <- Hlen. apply nth_error_Some. rewrite Hi. discriminate. }
  destruct (nth_error ns i) as [c|] eqn:Ec;
    [|apply nth_error_None in Ec; lia].
  destruct (Hnth i c Ec) as (q & Hq & _ & _ & Hv).
  rewrite Hi in Hv. injection Hv as ->.
  pose proof (Zsum_ge ns Hnn) as Hge. rewrite Forall_forall in Hge.
  assert (Hc : 0 <= c <= Zsum ns) by (apply Hge; eapply nth_error_In; eauto).
  destruct (int_truediv_unit c (Zsum ns) Hc Hpos) as (q' & k & Hq' & Hk & Hr).
  rewrite Hq in Hq'. injection Hq' as <-.
  destruct (mul_100_range q k Hk Hr) as (k' & Hk' & Hr').
  split; [unfold is_number; rewrite Hk'; discriminate|]. split.
  - rewrite (py_gt_scaled (VInt 0) (VFloat (q * 100)) (0 * 2 ^ 1074) k'
               eq_refl Hk').
    apply Z.ltb_ge. lia.
  - rewrite (py_gt_scaled (VFloat (q * 100)) (VInt 100) k' (100 * 2 ^ 1074)
               Hk' eq_refl).
    apply Z.ltb_ge. lia.
Qed.

Lemma percentages_in_range_witness :
  Forall (fun c => 0 <= c) [15; 132; 378] /\ 0 < Zsum [15; 132; 378] /\
  exists vs,
    counts_to_percentages (map VInt [15; 132; 378]) = Ok vs /\
    length vs = length [15; 132; 378] /\
    Forall (fun v => is_number v /\
                     py_gt (VInt 0) v = false /\
                     py_gt v (VInt 100) = false) vs.
Proof.
  assert (H1 : Forall (fun c => 0 <= c) [15; 132; 378])
    by (repeat constructor; lia).
  assert (H2 : 0 < Zsum [15; 132; 378]) by reflexivity.
  split; [exact H1|]. split; [exact H2|].
  exact (percentages_in_range [15; 132; 378] H1 H2).
Defined.

(** * The rounding error *)

(** The shape of what [binary_round_aux] returns: a significand [m] at an
    exponent [e] that is within one unit [2^e] of the significand [mx] at
    [ex] it was given, [e] being no larger than the format asks for a number
    of that size. *)
Lemma binary_round_aux_shape (sx : bool) (mx ex : Z) (lx : location) :
  0 <= mx ->
  exists m e e1,
    e1 = Z.max ex (fexp prec emax (Zdigits2 mx + ex)) /\
    0 <= m /\ e1 <= e /\
    m * 2 ^ (e - ex) <= mx + 2 ^ (e1 - ex) /\
    mx < (m + 1) * 2 ^ (e - ex) /\
    e <= Z.max e1 (fexp prec emax (Zdigits2 (mx / 2 ^ (e1 - ex) + 1) + e1)) /\
    binary_round_aux prec emax sx mx ex lx
    = match m with
      | Z0 => S754_zero sx
      | Zpos p => if e <=? emax - prec then S754_finite sx p e
                  else S754_infinity sx
      | Zneg _ => S754_nan
      end.
Proof.
  intros Hm. unfold binary_round_aux.
  pose proof (shr_fexp_div mx ex lx Hm) as D1. cbv zeta in D1.
  destruct (shr_fexp prec emax mx ex lx) as [mrs' e'] eqn:E1.
  cbn [fst snd] in D1. destruct D1 as [Dm1 De1].
  set (n1 := Z.max 0 (fexp prec emax (Zdigits2 mx + ex) - ex)) in *.
  pose proof (round_nearest_even_bounds (shr_m mrs') (loc_of_shr_record mrs')) as R.
  set (m1 := round_nearest_even (shr_m mrs') (loc_of_shr_record mrs')) in *.
  assert (Hn1 : 0 <= n1) by (unfold n1; lia).
  assert (Hp1 : 0 < 2 ^ n1) by (apply Z.pow_pos_nonneg; lia).
  assert (Hm' : 0 <= shr_m mrs') by (rewrite Dm1; apply Z.div_pos; lia).
  pose proof (Z.mul_div_le mx (2 ^ n1) Hp1) as Hle1. rewrite <- Dm1 in Hle1.
  pose proof (Z.mul_succ_div_gt mx (2 ^ n1) Hp1) as Hgt1. rewrite <- Dm1 in Hgt1.
  assert (Hm1 : 0 <= m1) by lia.
  pose proof (shr_fexp_div m1 e' loc_Exact Hm1) as D2. cbv zeta in D2.
  destruct (shr_fexp prec emax m1 e' loc_Exact) as [mrs'' e''] eqn:E2.
  cbn [fst snd] in D2. destruct D2 as [Dm2 De2].
  set (n2 := Z.max 0 (fexp prec emax (Zdigits2 m1 + e') - e')) in *.
  assert (Hn2 : 0 <= n2) by (unfold n2; lia).
  assert (Hp2 : 0 < 2 ^ n2) by (apply Z.pow_pos_nonneg; lia).
  pose proof (Z.mul_div_le m1 (2 ^ n2) Hp2) as Hle2. rewrite <- Dm2 in Hle2.
  pose proof (Z.mul_succ_div_gt m1 (2 ^ n2) Hp2) as Hgt2. rewrite <- Dm2 in Hgt2.
  assert (Hm'' : 0 <= shr_m mrs'') by (rewrite Dm2; apply Z.div_pos; lia).
  assert (Ee1 : e' = Z.max ex (fexp prec emax (Zdigits2 mx + ex)))
    by (unfold n1 in De1; lia).
  exists (shr_m mrs''), e'', e'.
  split; [exact Ee1|]. split; [exact Hm''|]. split; [lia|].
  replace (e'' - ex) with (n2 + n1) by lia.
  replace (e' - ex) with n1 by lia.
  rewrite Z.pow_add_r by lia.
  split; [nia|]. split; [nia|]. split.
  - rewrite De2. unfold n2.
    assert (Hd : Zdigits2 m1 <= Zdigits2 (mx / 2 ^ n1 + 1))
      by (apply Zdigits2_mono; rewrite <- Dm1; lia).
    rewrite !fexp_eq. lia.
  - destruct (shr_m mrs''); reflexivity.
Qed.

(** The quotient digits are the integer quotient of [a * 2^s] by [b]. *)
Lemma SFdiv_core_binary_quotient (a b : positive) :
  (Zpos a <= Zpos b) ->
  let '(q, e, _) := SFdiv_core_binary prec emax (Zpos a) 0 (Zpos b) 0 in
  q * Zpos b <= Zpos a * 2 ^ (- e) < (q + 1) * Zpos b.
Proof.
  intros Hab. unfold SFdiv_core_binary.
  pose proof (Zdigits2_mono (Zpos a) (Zpos b) ltac:(lia)) as Hd.
  set (d1 := Zdigits2 (Zpos a)) in *. set (d2 := Zdigits2 (Zpos b)) in *.
  set (e' := Z.min (fexp prec emax (d1 + 0 - (d2 + 0))) (0 - 0)).
  assert (He : -1074 <= e' <= -53) by (unfold e'; rewrite fexp_eq; lia).
  destruct (0 - 0 - e') as [|s|s] eqn:Es; try lia.
  rewrite Z.shiftl_mul_pow2 by lia.
  pose proof (Z_div_mod (Zpos a * 2 ^ Zpos s) (Zpos b) ltac:(lia)) as Hdiv.
  destruct (Z.div_eucl (Zpos a * 2 ^ Zpos s) (Zpos b)) as [q r].
  destruct Hdiv as [Hq Hr].
  replace (- e') with (Zpos s) by lia. lia.
Qed.

Lemma scaled_one : scaled (VFloat 1) = Some (2 ^ 1074).
Proof. vm_compute. reflexivity. Qed.

(** [a / b] on integers [0 <= a <= b], [0 < b], is within [2^-52] of the
    exact quotient: in units of [2^-1074], the float [k] that the division
    returns has [|k * b - a * 2^1074| <= b * 2^1022]. *)
Lemma int_truediv_error (a b : Z) (q : float) (k : Z) :
  0 <= a <= b -> 0 < b ->
  int_truediv a b = Ok q -> scaled (VFloat q) = Some k ->
  a * 2 ^ 1074 - b * 2 ^ 1022 <= k * b <= a * 2 ^ 1074 + b * 2 ^ 1022.
Proof.
  intros [Ha Hab] Hb Hq Hk.
  assert (HP22 : 0 < 2 ^ 1022) by (apply Z.pow_pos_nonneg; lia).
  assert (HP74 : 0 < 2 ^ 1074) by (apply Z.pow_pos_nonneg; lia).
  destruct (Z.eq_dec a 0) as [-> | Ha0].
  { rewrite int_truediv_zero in Hq by exact Hb. injection Hq as <-.
    change (scaled (VFloat 0)) with (Some 0) in Hk. injection Hk as <-. nia. }
  destruct (Z.eq_dec a b) as [-> | Hne].
  { rewrite int_truediv_same in Hq by exact Hb. injection Hq as <-.
    rewrite scaled_one in Hk. injection Hk as <-. nia. }
  unfold int_truediv in Hq.
  destruct (b =? 0) eqn:Eb; [apply Z.eqb_eq in Eb; lia|].
  destruct b as [|pb|pb]; try lia. destruct a as [|pa|pa]; try lia.
  unfold Z2SF, SFdiv in Hq.
  pose proof (SFdiv_core_binary_small pa pb Hab) as Hc.
  pose proof (SFdiv_core_binary_digits pa pb Hab) as Hg.
  pose proof (SFdiv_core_binary_quotient pa pb Hab) as Hquo.
  destruct (SFdiv_core_binary prec emax (Zpos pa) 0 (Zpos pb) 0) as [[q0 e] l].
  destruct Hc as [[Hq0 _] He]. destruct Hg as [Hdig Hlt].
  specialize (Hlt ltac:(lia)).
  assert (HS : 0 < 2 ^ (- e)) by (apply Z.pow_pos_nonneg; lia).
  assert (Hdq : Zdigits2 q0 <= - e) by (apply Zdigits2_le_pow2; lia).
  destruct (binary_round_aux_shape (xorb false false) q0 e l Hq0)
    as (m & e'' & e1 & He1 & Hm & Hle & Hup & Hlo & Hee & Hres).
  rewrite fexp_eq in He1.
  assert (He1' : e <= e1 <= -53) by lia.
  assert (Hdiv : q0 / 2 ^ (e1 - e) + 1 < 2 ^ (1 - e1)).
  { assert (0 < 2 ^ (e1 - e)) by (apply Z.pow_pos_nonneg; lia).
    assert (0 < 2 ^ (- e1)) by (apply Z.pow_pos_nonneg; lia).
    assert (q0 / 2 ^ (e1 - e) < 2 ^ (- e1)).
    { apply Z.div_lt_upper_bound; [lia|].
      rewrite <- Z.pow_add_r by lia.
      replace (e1 - e + - e1) with (- e) by lia. exact Hlt. }
    replace (1 - e1) with (1 + - e1) by lia.
    rewrite Z.pow_add_r by lia. change (2 ^ 1) with 2. lia. }
  assert (Hdd : Zdigits2 (q0 / 2 ^ (e1 - e) + 1) <= 1 - e1).
  { apply Zdigits2_le_pow2; try lia.
    assert (0 <= q0 / 2 ^ (e1 - e))
      by (apply Z.div_pos; [lia | apply Z.pow_pos_nonneg; lia]).
    lia. }
  rewrite fexp_eq in Hee.
  assert (He'' : e1 <= e'' <= -52) by lia.
  assert (Hkm : k = m * 2 ^ (e'' + 1074)).
  { destruct m as [|p|p]; [| |lia].
    - rewrite Hres in Hq. injection Hq as <-.
      vm_compute in Hk. injection Hk as <-. lia.
    - assert (Hleb : (e'' <=? emax - prec) = true)
        by (apply Z.leb_le; change (emax - prec) with 971; lia).
      rewrite Hleb in Hres.
      destruct (binary_round_aux_finite _ _ _ _ _ _ _ Hq0 Hres) as (_ & _ & Hbd).
      specialize (Hbd Hdig).
      assert (Eq : q = SF2Prim (S754_finite false p e''))
        by (rewrite Hres in Hq; injection Hq as <-; reflexivity).
      rewrite Eq in Hk.
      unfold scaled in Hk. rewrite Prim2SF_SF2Prim in Hk by exact Hbd.
      injection Hk as <-. reflexivity. }
  subst k.
  assert (HU : 0 < 2 ^ (e + 1074)) by (apply Z.pow_pos_nonneg; lia).
  assert (HT : 0 < 2 ^ (e'' - e)) by (apply Z.pow_pos_nonneg; lia).
  assert (E74 : 2 ^ 1074 = 2 ^ (- e) * 2 ^ (e + 1074))
    by (rewrite <- Z.pow_add_r by lia; f_equal; lia).
  assert (Ee'' : 2 ^ (e'' + 1074) = 2 ^ (e'' - e) * 2 ^ (e + 1074))
    by (rewrite <- Z.pow_add_r by lia; f_equal; lia).
  assert (B1 : 2 ^ (e1 - e) * 2 ^ (e + 1074) <= 2 ^ 1022).
  { rewrite <- Z.pow_add_r by lia. apply Z.pow_le_mono_r; lia. }
  assert (B2 : 2 ^ (e'' - e) * 2 ^ (e + 1074) <= 2 ^ 1022).
  { rewrite <- Z.pow_add_r by lia. apply Z.pow_le_mono_r; lia. }
  rewrite E74, Ee''.
  set (U := 2 ^ (e + 1074)) in *. set (T := 2 ^ (e'' - e)) in *.
  set (E1 := 2 ^ (e1 - e)) in *. set (S := 2 ^ (- e)) in *.
  set (P := 2 ^ 1022) in *. set (b := Zpos pb) in *. set (a := Zpos pa) in *.
  assert (Hb0 : 0 < b) by (unfold b; lia).
  clearbody U T E1 S P b a.
  clear - Hup Hlo Hquo HU HT B1 B2 Hm HS HP22 Hq0 Hb0.
  assert (HUb : 0 <= U * b) by (apply Z.mul_nonneg_nonneg; lia).
  assert (X1 : m * T * (U * b) <= (q0 + E1) * (U * b))
    by (apply Z.mul_le_mono_nonneg_r; [exact HUb | exact Hup]).
  assert (X2 : q0 * b * U <= a * S * U)
    by (apply Z.mul_le_mono_nonneg_r; lia).
  assert (X3 : E1 * U * b <= P * b)
    by (apply Z.mul_le_mono_nonneg_r; lia).
  assert (X4 : a * S * U <= (q0 + 1) * b * U)
    by (apply Z.mul_le_mono_nonneg_r; lia).
  assert (X5 : (q0 + 1) * (U * b) <= (m + 1) * T * (U * b))
    by (apply Z.mul_le_mono_nonneg_r; [exact HUb | lia]).
  assert (X6 : T * U * b <= P * b)
    by (apply Z.mul_le_mono_nonneg_r; lia).
  lia.
Qed.

(** [x * 100.0] for a float [x] between zero and one is within [2^-44] of
    the exact product: in units of [2^-1074],
    [|k' - 100 * k| <= 2^1030]. *)
Lemma mul_100_error (x : float) (k k' : Z) :
  scaled (VFloat x) = Some k -> 0 <= k <= 2 ^ 1074 ->
  scaled (VFloat (x * 100)) = Some k' ->
  100 * k - 2 ^ 1030 <= k' <= 100 * k + 2 ^ 1030.
Proof.
  intros Hk Hr Hk'. pose proof (scaled_float x k Hk) as Hs.
  assert (HP30 : 0 < 2 ^ 1030) by (apply Z.pow_pos_nonneg; lia).
  unfold scaled in Hk'. rewrite mul_spec, Prim2SF_100 in Hk'.
  destruct (Prim2SF x) as [s|s| |s m e]; try contradiction.
  - subst k. cbn in Hk'. injection Hk' as <-. lia.
  - destruct Hs as [-> Hb].
    destruct (bounded_facts m e Hb) as (He & Hm53 & Hnorm).
    assert (HP : 0 < 2 ^ (e + 1074)) by (apply Z.pow_pos_nonneg; lia).
    destruct s.
    { exfalso. change (cond_Zopp true (Zpos m)) with (- Zpos m) in Hr. nia. }
    cbn [cond_Zopp] in *. unfold SF64mul in Hk'. cbn [SFmul] in Hk'.
    assert (He52 : e <= -52).
    { destruct (Z.le_gt_cases e (-52)) as [H | H]; [exact H | exfalso].
      assert (Hm52 : 2 ^ 52 <= Zpos m) by (apply Hnorm; lia).
      assert (HP' : 2 * 2 ^ 1022 <= 2 ^ (e + 1074)).
      { change (2 * 2 ^ 1022) with (2 ^ 1023). apply Z.pow_le_mono_r; lia. }
      assert (Hk2 : 2 ^ 52 * (2 * 2 ^ 1022) <= Zpos m * 2 ^ (e + 1074))
        by (apply Z.mul_le_mono_nonneg; try exact Hm52; try exact HP';
            try (apply Z.pow_nonneg; lia);
            apply Z.mul_nonneg_nonneg; [lia | apply Z.pow_nonneg; lia]).
      change (2 ^ 52 * (2 * 2 ^ 1022)) with (2 * 2 ^ 1074) in Hk2.
      assert (0 < 2 ^ 1074) by (apply Z.pow_pos_nonneg; lia).
      lia. }
    rewrite Pos2Z.inj_mul in Hk'.
    set (mx := Zpos m * 7036874417766400) in *.
    set (ex := e + -46) in *.
    assert (Hmx : 0 <= mx) by (unfold mx; lia).
    assert (Hmx106 : mx < 2 ^ 106).
    { unfold mx. change (2 ^ 106) with (2 ^ 53 * 2 ^ 53).
      change (2 ^ 53) with 9007199254740992 in *. nia. }
    destruct (binary_round_aux_shape (xorb false false) mx ex loc_Exact Hmx)
      as (m' & e' & e1 & He1 & Hm' & Hle & Hup & Hlo & Hee & Hres).
    assert (Hd1 : Zdigits2 mx <= 106) by (apply Zdigits2_le_pow2; lia).
    rewrite fexp_eq in He1.
    assert (He1' : ex <= e1 <= -45 /\ -1074 <= e1) by (unfold ex in *; lia).
    assert (Hdiv : mx / 2 ^ (e1 - ex) + 1 < 2 ^ (9 - e1)).
    { assert (0 < 2 ^ (e1 - ex)) by (apply Z.pow_pos_nonneg; lia).
      assert (0 < 2 ^ (8 - e1)) by (apply Z.pow_pos_nonneg; lia).
      assert (mx / 2 ^ (e1 - ex) < 2 ^ (8 - e1)).
      { apply Z.div_lt_upper_bound; [lia|].
        rewrite <- Z.pow_add_r by lia.
        eapply Z.lt_le_trans; [exact Hmx106|].
        apply Z.pow_le_mono_r; unfold ex; lia. }
      replace (9 - e1) with (1 + (8 - e1)) by lia.
      rewrite Z.pow_add_r by lia. change (2 ^ 1) with 2. lia. }
    assert (Hdd : Zdigits2 (mx / 2 ^ (e1 - ex) + 1) <= 9 - e1).
    { apply Zdigits2_le_pow2; try lia.
      assert (0 <= mx / 2 ^ (e1 - ex))
        by (apply Z.div_pos; [lia | apply Z.pow_pos_nonneg; lia]).
      lia. }
    rewrite fexp_eq in Hee.
    assert (He' : e1 <= e' <= -44) by lia.
    assert (Hkm : k' = m' * 2 ^ (e' + 1074)).
    { rewrite Hres in Hk'. destruct m' as [|p|p]; [| |lia].
      - injection Hk' as <-. lia.
      - assert (Hleb : (e' <=? emax - prec) = true)
          by (apply Z.leb_le; change (emax - prec) with 971; lia).
        rewrite Hleb in Hk'. cbn [xorb cond_Zopp] in Hk'.
        injection Hk' as <-. reflexivity. }
    subst k'.
    assert (HW : 0 < 2 ^ (ex + 1120))
      by (apply Z.pow_pos_nonneg; unfold ex; lia).
    assert (HT : 0 < 2 ^ (e' - ex)) by (apply Z.pow_pos_nonneg; lia).
    assert (EW : 2 ^ (e + 1074) = 2 ^ (ex + 1120)) by (f_equal; unfold ex; lia).
    assert (Ee' : 2 ^ (e' + 1074) * 2 ^ 46 = 2 ^ (e' - ex) * 2 ^ (ex + 1120)).
    { rewrite <- !Z.pow_add_r by (unfold ex in *; lia). f_equal. lia. }
    assert (B1 : 2 ^ (e1 - ex) * 2 ^ (ex + 1120) <= 2 ^ 1030 * 2 ^ 46).
    { rewrite <- !Z.pow_add_r by (unfold ex in *; lia).
      apply Z.pow_le_mono_r; lia. }
    assert (B2 : 2 ^ (e' - ex) * 2 ^ (ex + 1120) <= 2 ^ 1030 * 2 ^ 46).
    { rewrite <- !Z.pow_add_r by (unfold ex in *; lia).
      apply Z.pow_le_mono_r; lia. }
    rewrite EW.
    assert (Emx : mx = Zpos m * 100 * 2 ^ 46) by (unfold mx; lia).
    change (2 ^ 46) with 70368744177664 in *.
    set (W := 2 ^ (ex + 1120)) in *. set (T := 2 ^ (e' - ex)) in *.
    set (E1 := 2 ^ (e1 - ex)) in *. set (P := 2 ^ 1030) in *.
    set (K' := 2 ^ (e' + 1074)) in *.
    clearbody W T E1 P K' mx.
    clear - Hup Hlo HW HT Ee' B1 B2 Emx Hm' HP30.
    assert (X1 : m' * T * W <= (mx + E1) * W)
      by (apply Z.mul_le_mono_nonneg_r; lia).
    assert (X2 : (mx + 1) * W <= (m' + 1) * T * W)
      by (apply Z.mul_le_mono_nonneg_r; lia).
    assert (X3 : m' * K' * 70368744177664 = m' * T * W)
      by (rewrite <- !Z.mul_assoc; f_equal; exact Ee').
    lia.
Qed.

(** * Exact values of floats *)

Lemma Qpow2_shift (e n : Z) :
  0 <= n -> 0 <= e + n ->
  (Qpow2 e * inject_Z (2 ^ n) == inject_Z (2 ^ (e + n)))%Q.
Proof.
  intros Hn Hen. destruct e as [|p|p]; unfold Qpow2.
  - rewrite Qmult_1_l. reflexivity.
  - change (Z.pow_pos 2 p) with (2 ^ Zpos p).
    rewrite <- inject_Z_mult, <- Z.pow_add_r by lia. reflexivity.
  - unfold Qeq, Qmult, inject_Z. cbn [Qnum Qden].
    rewrite Pos.mul_1_r, Z.mul_1_l, Z.mul_1_r, Pos2Z.inj_pow.
    rewrite <- Z.pow_add_r by lia. f_equal. lia.
Qed.

(** The rational a finite float stands for is its count of units of
    [2^-1074], divided by [2^1074]. *)
Lemma value_to_Q_scaled (x : float) (k : Z) :
  scaled (VFloat x) = Some k ->
  exists q, value_to_Q (VFloat x) = Some q /\
            (q * inject_Z (2 ^ 1074) == inject_Z k)%Q.
Proof.
  intros Hk. apply scaled_float in Hk. unfold value_to_Q.
  destruct (Prim2SF x) as [s|s| |s m e]; try contradiction.
  - subst k. exists 0%Q. split; [reflexivity|]. rewrite Qmult_0_l. reflexivity.
  - destruct Hk as [-> Hb].
    destruct (bounded_facts m e Hb) as (He & _ & _).
    eexists. split; [reflexivity|].
    rewrite <- Qmult_assoc, Qpow2_shift by lia.
    rewrite <- inject_Z_mult. reflexivity.
Qed.

(** From units of [2^-1074] to a distance between rationals. *)
Lemma close_of_scaled (x : Q) (k a b E : Z) :
  (x * inject_Z (2 ^ 1074) == inject_Z k)%Q -> 0 < b ->
  a * 2 ^ 1074 - E <= k * b <= a * 2 ^ 1074 + E ->
  E * 10000000000000 <= b * 2 ^ 1074 ->
  (Qabs (x - inject_Z a / inject_Z b) <= 1 # 10000000000000)%Q.
Proof.
  intros Hx Hb Hk HE.
  assert (HN : 0 < 2 ^ 1074) by (apply Z.pow_pos_nonneg; lia).
  assert (HNQ : (0 < inject_Z (2 ^ 1074))%Q)
    by (change 0%Q with (inject_Z 0); rewrite <- Zlt_Qlt; exact HN).
  assert (HBQ : (0 < inject_Z b)%Q)
    by (change 0%Q with (inject_Z 0); rewrite <- Zlt_Qlt; exact Hb).
  assert (HW : (0 < inject_Z (b * 2 ^ 1074))%Q)
    by (change 0%Q with (inject_Z 0); rewrite <- Zlt_Qlt; lia).
  assert (Ex : (x - inject_Z a / inject_Z b
                == inject_Z (k * b - a * 2 ^ 1074) / inject_Z (b * 2 ^ 1074))%Q).
  { unfold Zminus. rewrite inject_Z_plus, inject_Z_opp, !inject_Z_mult.
    rewrite <- Hx. field. split; apply Qnot_eq_sym, Qlt_not_eq; assumption. }
  rewrite Ex. apply Qabs_Qle_condition. split.
  - apply Qle_shift_div_l; [exact HW|].
    setoid_replace (- (1 # 10000000000000) * inject_Z (b * 2 ^ 1074))%Q
      with (- (inject_Z (b * 2 ^ 1074) / inject_Z 10000000000000))%Q
      by (unfold Qdiv; change (/ inject_Z 10000000000000)%Q
            with (1 # 10000000000000)%Q; ring).
    apply Qle_trans with (inject_Z (- E)).
    + rewrite inject_Z_opp. apply Qopp_le_compat.
      apply Qle_shift_div_l; [reflexivity|].
      rewrite <- inject_Z_mult, <- Zle_Qle. exact HE.
    + rewrite <- Zle_Qle. lia.
  - apply Qle_shift_div_r; [exact HW|].
    setoid_replace ((1 # 10000000000000) * inject_Z (b * 2 ^ 1074))%Q
      with (inject_Z (b * 2 ^ 1074) / inject_Z 10000000000000)%Q
      by (unfold Qdiv; change (/ inject_Z 10000000000000)%Q
            with (1 # 10000000000000)%Q; ring).
    apply Qle_trans with (inject_Z E).
    + rewrite <- Zle_Qle. lia.
    + apply Qle_shift_div_l; [reflexivity|].
      rewrite <- inject_Z_mult, <- Zle_Qle. exact HE.
Qed.

(** The percentage computed for a count [c] out of [total] is within 1e-13
    of the exact quotient [100 * c / total]. *)
Lemma percentage_close (c total : Z) (q : float) :
  0 <= c <= total -> 0 < total ->
  int_truediv c total = Ok q ->
  close_to (1 # 10000000000000) (VFloat (q * 100))
           (100 * inject_Z c / inject_Z total)%Q.
Proof.
  intros Hc Ht Hq.
  destruct (int_truediv_unit c total Hc Ht) as (q' & k & Hq' & Hk & Hr).
  rewrite Hq in Hq'. injection Hq' as <-.
  destruct (mul_100_range q k Hk Hr) as (k' & Hk' & Hr').
  pose proof (int_truediv_error c total q k Hc Ht Hq Hk) as E1.
  pose proof (mul_100_error q k k' Hk Hr Hk') as E2.
  destruct (value_to_Q_scaled _ _ Hk') as (x & Hx & Ex).
  unfold close_to. rewrite Hx.
  setoid_replace (100 * inject_Z c / inject_Z total)%Q
    with (inject_Z (100 * c) / inject_Z total)%Q
    by (rewrite inject_Z_mult; reflexivity).
  apply (close_of_scaled x k' (100 * c) total (356 * total * 2 ^ 1022) Ex Ht).
  - change (2 ^ 1030) with (256 * 2 ^ 1022) in E2.
    change (2 ^ 1074) with (4503599627370496 * 2 ^ 1022) in *.
    assert (HP : 0 < 2 ^ 1022) by (apply Z.pow_pos_nonneg; lia).
    set (P := 2 ^ 1022) in *. clearbody P.
    assert (X1 : (k' - 100 * k) * total <= 256 * P * total)
      by (apply Z.mul_le_mono_nonneg_r; lia).
    assert (X2 : (100 * k - k') * total <= 256 * P * total)
      by (apply Z.mul_le_mono_nonneg_r; lia).
    lia.
  - change (2 ^ 1074) with (4503599627370496 * 2 ^ 1022).
    assert (HP : 0 < 2 ^ 1022) by (apply Z.pow_pos_nonneg; lia).
    set (P := 2 ^ 1022) in *. clearbody P. nia.
Qed.

Local Open Scope Q_scope.

Lemma Qpow2_Qpower (e : Z) : Qpow2 e == 2 ^ e.
Proof.
  destruct e as [|p|p]; unfold Qpow2.
  - reflexivity.
  - change (Z.pow_pos 2 p) with (2 ^ Zpos p)%Z.
    rewrite Zpower_Qpower by lia. reflexivity.
  - change (Zneg p) with (- Zpos p)%Z. rewrite Qpower_opp.
    rewrite <- (Zpower_Qpower 2 (Zpos p)) by lia.
    change (2 ^ Zpos p)%Z with (Z.pow_pos 2 p).
    rewrite <- Pos2Z.inj_pow_pos. reflexivity.
Qed.

Lemma Qpow2_pos (e : Z) : 0 < 2 ^ e.
Proof. apply Qpower_0_lt. reflexivity. Qed.

Lemma Qpow2_add (a b : Z) : 2 ^ (a + b) == 2 ^ a * 2 ^ b.
Proof. apply Qpower_plus. discriminate. Qed.

Lemma Qpow2_le (a b : Z) : (a <= b)%Z -> 2 ^ a <= 2 ^ b.
Proof. intros H. apply Qpower_le_compat_l; [exact H | discriminate]. Qed.

Lemma Qpow2_inject (n : Z) : (0 <= n)%Z -> inject_Z (2 ^ n) == 2 ^ n.
Proof. intros H. rewrite Zpower_Qpower by exact H. reflexivity. Qed.

(** Rounding an exact non-negative number below [2^k] gives a finite
    non-negative float within [2^(k-52)] of it. *)
Lemma round_exact_error (mx ex k : Z) :
  (0 <= mx)%Z -> (ex <= k - 52)%Z -> (-1022 <= k <= 1023)%Z ->
  inject_Z mx * 2 ^ ex < 2 ^ k ->
  SF_finite_nonneg (binary_round_aux prec emax false mx ex loc_Exact) /\
  exists q,
    SF2Q (binary_round_aux prec emax false mx ex loc_Exact) = Some q /\
    Qabs (q - inject_Z mx * 2 ^ ex) <= 2 ^ (k - 52).
Proof.
  intros Hmx Hex Hk Hlt.
  assert (HltZ : (mx < 2 ^ (k - ex))%Z).
  { rewrite Zlt_Qlt, Qpow2_inject by lia.
    apply (Qmult_lt_r _ _ (2 ^ ex)); [apply Qpow2_pos|].
    rewrite <- Qpow2_add. replace (k - ex + ex)%Z with k by lia. exact Hlt. }
  destruct (binary_round_aux_shape false mx ex loc_Exact Hmx)
    as (m & e & e1 & He1 & Hm & Hle & Hup & Hlo & Hee & Hres).
  assert (Hd1 : (Zdigits2 mx <= k - ex)%Z) by (apply Zdigits2_le_pow2; lia).
  rewrite fexp_eq in He1.
  assert (He1' : (ex <= e1 <= k - 52 /\ -1074 <= e1)%Z) by lia.
  assert (Hdiv : (mx / 2 ^ (e1 - ex) + 1 < 2 ^ (k - e1 + 1))%Z).
  { assert (0 < 2 ^ (e1 - ex))%Z by (apply Z.pow_pos_nonneg; lia).
    assert (0 < 2 ^ (k - e1))%Z by (apply Z.pow_pos_nonneg; lia).
    assert (mx / 2 ^ (e1 - ex) < 2 ^ (k - e1))%Z.
    { apply Z.div_lt_upper_bound; [lia|].
      rewrite <- Z.pow_add_r by lia.
      replace (e1 - ex + (k - e1))%Z with (k - ex)%Z by lia. exact HltZ. }
    rewrite Z.pow_add_r by lia. change (2 ^ 1)%Z with 2%Z. lia. }
  assert (Hdd : (Zdigits2 (mx / 2 ^ (e1 - ex) + 1) <= k - e1 + 1)%Z).
  { apply Zdigits2_le_pow2; try lia.
    assert (0 <= mx / 2 ^ (e1 - ex))%Z
      by (apply Z.div_pos; [lia | apply Z.pow_pos_nonneg; lia]).
    lia. }
  rewrite fexp_eq in Hee.
  assert (He' : (e1 <= e <= k - 52)%Z) by lia.
  assert (Hq : SF_finite_nonneg (binary_round_aux prec emax false mx ex loc_Exact)
               /\ exists q,
                 SF2Q (binary_round_aux prec emax false mx ex loc_Exact) = Some q
                 /\ q == inject_Z m * 2 ^ e).
  { rewrite Hres. destruct m as [|p|p]; [| |lia].
    - split; [exact I|]. exists 0. split; [reflexivity|]. ring.
    - assert (Hleb : (e <=? emax - prec)%Z = true)
        by (apply Z.leb_le; change (emax - prec)%Z with 971%Z; lia).
      rewrite Hleb. split; [exact I|].
      eexists. split; [reflexivity|]. cbn [cond_Zopp].
      rewrite Qpow2_Qpower. reflexivity. }
  destruct Hq as [Hfin (q & Hq & Eq)]. split; [exact Hfin|].
  exists q. split; [exact Hq|]. rewrite Eq.
  assert (U1 : inject_Z m * 2 ^ e <= inject_Z mx * 2 ^ ex + 2 ^ e1).
  { rewrite Zle_Qle in Hup.
    rewrite inject_Z_plus, inject_Z_mult, !Qpow2_inject in Hup by lia.
    apply (Qmult_le_compat_r _ _ (2 ^ ex)) in Hup;
      [|apply Qlt_le_weak, Qpow2_pos].
    rewrite Qmult_plus_distr_l, <- Qmult_assoc, <- !Qpow2_add in Hup.
    replace (e - ex + ex)%Z with e in Hup by lia.
    replace (e1 - ex + ex)%Z with e1 in Hup by lia. exact Hup. }
  assert (U2 : inject_Z mx * 2 ^ ex < inject_Z m * 2 ^ e + 2 ^ e).
  { rewrite Zlt_Qlt in Hlo.
    rewrite inject_Z_mult, inject_Z_plus, Qpow2_inject in Hlo by lia.
    apply (Qmult_lt_compat_r _ _ (2 ^ ex)) in Hlo; [|apply Qpow2_pos].
    rewrite <- Qmult_assoc, <- Qpow2_add in Hlo.
    replace (e - ex + ex)%Z with e in Hlo by lia.
    change (inject_Z 1) with 1 in Hlo.
    setoid_replace ((inject_Z m + 1) * 2 ^ e)
      with (inject_Z m * 2 ^ e + 2 ^ e) in Hlo by ring.
    exact Hlo. }
  pose proof (Qpow2_le e1 (k - 52) ltac:(lia)) as L1.
  pose proof (Qpow2_le e (k - 52) ltac:(lia)) as L2.
  apply Qabs_Qle_condition. split; lra.
Qed.

Lemma Qof_float_nonneg (x : float) : finite_nonneg x -> 0 <= Qof_float x.
Proof.
  rewrite finite_nonneg_SF. unfold Qof_float.
  destruct (Prim2SF x) as [s|s| |[] m e]; cbn; try contradiction;
    intros _; try apply Qle_refl.
  apply Qmult_le_0_compat; [discriminate|].
  rewrite Qpow2_Qpower. apply Qlt_le_weak, Qpow2_pos.
Qed.

(** A binary64 number below [2^a] has an exponent of at most [a - 53]. *)
Lemma float_exponent_bound (m : positive) (e a : Z) :
  bounded prec emax m e = true ->
  inject_Z (Zpos m) * 2 ^ e < 2 ^ a -> (-1021 <= a)%Z -> (e <= a - 53)%Z.
Proof.
  intros Hb Hlt Ha.
  destruct (bounded_facts m e Hb) as (He & _ & Hnorm).
  destruct (Z.eq_dec e (-1074)) as [-> | Hne]; [lia|].
  assert (H52 : (2 ^ 52 <= Zpos m)%Z) by (apply Hnorm; lia).
  rewrite Zle_Qle, Qpow2_inject in H52 by lia.
  assert (H : 2 ^ (52 + e) < 2 ^ a).
  { rewrite Qpow2_add. eapply Qle_lt_trans; [|exact Hlt].
    apply Qmult_le_compat_r; [exact H52 | apply Qlt_le_weak, Qpow2_pos]. }
  apply Qpower_lt_compat_l_inv in H; [lia | reflexivity].
Qed.

(** The product of two finite non-negative floats below [2^a] and [2^b] is
    a finite non-negative float within [2^(a+b-52)] of the exact product. *)
Lemma mul_error (x y : float) (a b : Z) :
  finite_nonneg x -> finite_nonneg y ->
  Qof_float x < 2 ^ a -> Qof_float y < 2 ^ b ->
  (-1021 <= a)%Z -> (-1021 <= b)%Z -> (-1022 <= a + b <= 1023)%Z ->
  finite_nonneg (x * y) /\
  Qabs (Qof_float (x * y) - Qof_float x * Qof_float y) <= 2 ^ (a + b - 52).
Proof.
  rewrite !finite_nonneg_SF. unfold Qof_float. rewrite mul_spec.
  pose proof (Prim2SF_valid x) as Vx. pose proof (Prim2SF_valid y) as Vy.
  unfold SF64mul.
  assert (Hz : forall q, Qabs (0 - q * 0) <= 2 ^ (a + b - 52)).
  { intros q. setoid_replace (0 - q * 0) with 0 by ring.
    apply Qlt_le_weak, Qpow2_pos. }
  assert (Hz' : forall q, Qabs (0 - 0 * q) <= 2 ^ (a + b - 52)).
  { intros q. setoid_replace (0 - 0 * q) with 0 by ring.
    apply Qlt_le_weak, Qpow2_pos. }
  destruct (Prim2SF x) as [sx|sx| |[] mx ex]; cbn [SF_finite_nonneg];
    try contradiction;
    destruct (Prim2SF y) as [sy|sy| |[] my ey]; cbn [SF_finite_nonneg];
      try contradiction; intros _ _; cbn [SFmul SF2Q cond_Zopp];
      try (intros; split; [exact I | first [apply Hz | apply Hz']]).
  rewrite !Qpow2_Qpower. intros Hx Hy Ha Hb Hab.
  pose proof (float_exponent_bound mx ex a Vx Hx Ha) as Ex.
  pose proof (float_exponent_bound my ey b Vy Hy Hb) as Ey.
  assert (Hprod : inject_Z (Zpos (mx * my)) * 2 ^ (ex + ey) < 2 ^ (a + b)).
  { rewrite Pos2Z.inj_mul, inject_Z_mult, !Qpow2_add.
    setoid_replace (inject_Z (Zpos mx) * inject_Z (Zpos my) * (2 ^ ex * 2 ^ ey))
      with ((inject_Z (Zpos mx) * 2 ^ ex) * (inject_Z (Zpos my) * 2 ^ ey))
      by ring.
    apply Qmult_le_lt_compat_pos.
    - split; [|apply Qlt_le_weak, Hx].
      apply Qmult_lt_0_compat; [reflexivity | apply Qpow2_pos].
    - split; [|exact Hy].
      apply Qmult_lt_0_compat; [reflexivity | apply Qpow2_pos]. }
  destruct (round_exact_error (Zpos (mx * my)) (ex + ey) (a + b)
              ltac:(lia) ltac:(lia) Hab Hprod) as (Hfin & q & Hq & Hqe).
  cbn [xorb]. split; [exact Hfin|]. rewrite Hq.
  setoid_replace (inject_Z (Zpos mx) * 2 ^ ex * (inject_Z (Zpos my) * 2 ^ ey))
    with (inject_Z (Zpos (mx * my)) * 2 ^ (ex + ey))
    by (rewrite Pos2Z.inj_mul, inject_Z_mult, Qpow2_add; ring).
  exact Hqe.
Qed.

Lemma iter_xO_pow2 (m d : positive) :
  Zpos (Pos.iter xO m d) = (Zpos m * 2 ^ Zpos d)%Z.
Proof.
  induction d as [|d IH] using Pos.peano_ind.
  - cbn [Pos.iter]. lia.
  - rewrite Pos.iter_succ, Pos2Z.inj_xO, IH, Pos2Z.inj_succ, Z.pow_succ_r by lia.
    ring.
Qed.

(** [shl_align] rewrites a number at a smaller exponent without changing
    it. *)
Lemma shl_align_spec (mx : positive) (ex ex' : Z) :
  snd (shl_align mx ex ex') = Z.min ex ex' /\
  Zpos (fst (shl_align mx ex ex'))
  = (Zpos mx * 2 ^ (ex - Z.min ex ex'))%Z.
Proof.
  unfold shl_align. destruct (ex' - ex)%Z as [|d|d] eqn:E; cbn [fst snd].
  - rewrite Z.min_l by lia. rewrite Z.sub_diag. split; lia.
  - rewrite Z.min_l by lia. rewrite Z.sub_diag. split; lia.
  - rewrite Z.min_r by lia. split; [reflexivity|].
    rewrite iter_xO_pow2. f_equal. f_equal. lia.
Qed.

Lemma shl_align_value (mx : positive) (ex ex' : Z) :
  inject_Z (Zpos (fst (shl_align mx ex ex'))) * 2 ^ snd (shl_align mx ex ex')
  == inject_Z (Zpos mx) * 2 ^ ex.
Proof.
  destruct (shl_align_spec mx ex ex') as [-> ->].
  rewrite inject_Z_mult, Qpow2_inject by lia.
  rewrite <- Qmult_assoc, <- Qpow2_add.
  replace (ex - Z.min ex ex' + Z.min ex ex')%Z with ex by lia. reflexivity.
Qed.

(** The sum of two finite non-negative floats that add up to less than
    [2^k] is a finite non-negative float within [2^(k-52)] of the exact
    sum. *)
Lemma add_error (x y : float) (k : Z) :
  finite_nonneg x -> finite_nonneg y ->
  Qof_float x + Qof_float y < 2 ^ k -> (-1021 <= k <= 1023)%Z ->
  finite_nonneg (x + y) /\
  Qabs (Qof_float (x + y) - (Qof_float x + Qof_float y)) <= 2 ^ (k - 52).
Proof.
  intros Fx Fy. pose proof (Qof_float_nonneg x Fx) as Nx.
  pose proof (Qof_float_nonneg y Fy) as Ny. revert Fx Fy Nx Ny.
  rewrite !finite_nonneg_SF. unfold Qof_float. rewrite add_spec.
  pose proof (Prim2SF_valid x) as Vx. pose proof (Prim2SF_valid y) as Vy.
  unfold SF64add.
  assert (Hz : forall q, Qabs (q - q) <= 2 ^ (k - 52)).
  { intros q. setoid_replace (q - q) with 0 by ring.
    apply Qlt_le_weak, Qpow2_pos. }
  destruct (Prim2SF x) as [sx|sx| |[] mx ex]; cbn [SF_finite_nonneg];
    try contradiction;
    destruct (Prim2SF y) as [sy|sy| |[] my ey]; cbn [SF_finite_nonneg];
      try contradiction; intros _ _.
  - intros _ _ _ _.
    assert (Hz0 : Qabs (0 - (0 + 0)) <= 2 ^ (k - 52))
      by (setoid_replace (0 - (0 + 0)) with 0 by ring;
          apply Qlt_le_weak, Qpow2_pos).
    destruct sx, sy; cbn [SFadd SF2Q]; (split; [exact I | exact Hz0]).
  - intros _ _ _ _. cbn [SFadd SF2Q cond_Zopp]. split; [exact I|].
    setoid_replace (inject_Z (Zpos my) * Qpow2 ey
                    - (0 + inject_Z (Zpos my) * Qpow2 ey)) with 0 by ring.
    apply Qlt_le_weak, Qpow2_pos.
  - intros _ _ _ _. cbn [SFadd SF2Q cond_Zopp]. split; [exact I|].
    setoid_replace (inject_Z (Zpos mx) * Qpow2 ex
                    - (inject_Z (Zpos mx) * Qpow2 ex + 0)) with 0 by ring.
    apply Qlt_le_weak, Qpow2_pos.
  - cbn [SF2Q cond_Zopp]. rewrite !Qpow2_Qpower. intros Nx Ny Hs Hk.
    assert (Hx : inject_Z (Zpos mx) * 2 ^ ex < 2 ^ k) by lra.
    pose proof (float_exponent_bound mx ex k Vx Hx ltac:(lia)) as Ex.
    cbn [SFadd cond_Zopp].
    set (ez := Z.min ex ey).
    pose proof (shl_align_spec mx ex ez) as [_ E1].
    pose proof (shl_align_spec my ey ez) as [_ E2].
    replace (Z.min ex ez) with ez in E1 by (unfold ez; lia).
    replace (Z.min ey ez) with ez in E2 by (unfold ez; lia).
    set (ax := fst (shl_align mx ex ez)) in *.
    set (ay := fst (shl_align my ey ez)) in *.
    change (Zpos ax + Zpos ay)%Z with (Zpos (ax + ay)).
    cbn [binary_normalize]. unfold binary_round.
    pose proof (shl_align_spec (ax + ay) ez
                  (fexp prec emax (Zpos (digits2_pos (ax + ay)) + ez))) as [S1 _].
    pose proof (shl_align_value (ax + ay) ez
                  (fexp prec emax (Zpos (digits2_pos (ax + ay)) + ez))) as S2.
    destruct (shl_align (ax + ay) ez
                (fexp prec emax (Zpos (digits2_pos (ax + ay)) + ez)))
      as [mz ez'].
    cbn [fst snd] in S1, S2.
    assert (Exact : inject_Z (Zpos mz) * 2 ^ ez'
                    == inject_Z (Zpos mx) * 2 ^ ex + inject_Z (Zpos my) * 2 ^ ey).
    { rewrite S2, Pos2Z.inj_add, inject_Z_plus, E1, E2.
      rewrite !inject_Z_mult, !Qpow2_inject by (unfold ez; lia).
      rewrite Qmult_plus_distr_l, <- !Qmult_assoc, <- !Qpow2_add.
      replace (ex - ez + ez)%Z with ex by lia.
      replace (ey - ez + ez)%Z with ey by lia. reflexivity. }
    assert (Hlt : inject_Z (Zpos mz) * 2 ^ ez' < 2 ^ k)
      by (rewrite Exact; exact Hs).
    destruct (round_exact_error (Zpos mz) ez' k ltac:(lia)
                ltac:(unfold ez in *; lia) ltac:(lia) Hlt)
      as (Hfin & q & Hq & Hqe).
    split; [exact Hfin|]. rewrite Hq. rewrite <- Exact. exact Hqe.
Qed.

(** * The binary64 remap against the exact one *)

Lemma Qpow2_m43 : 2 ^ (7 + 2 - 52) == 1 # 8796093022208.
Proof. reflexivity. Qed.

Lemma Qpow2_m43' : 2 ^ (9 - 52) == 1 # 8796093022208.
Proof. reflexivity. Qed.

Lemma finite_nonneg_zero : finite_nonneg 0.
Proof. split; reflexivity. Qed.

(** In exact arithmetic, with no negative value and no negative fraction,
    a target value is at least the accumulator it started from. *)
Lemma target_value_from_ge (vQ : list Q) (rsQ : list (rule Q)) :
  Forall (fun v => 0 <= v) vQ -> Forall (fun r : rule Q => 0 <= snd r) rsQ ->
  forall a t, target_value_from Qplus Qmult a vQ rsQ = Some t -> a <= t.
Proof.
  intros Hv. induction 1 as [|[i f] rs Hf _ IH]; intros a t H;
    cbn [target_value_from] in H.
  - injection H as <-. apply Qle_refl.
  - unfold contribution in H. cbn [fst snd] in *.
    destruct (nth_error vQ i) as [v|] eqn:Ev; [|discriminate H].
    apply IH in H.
    assert (0 <= v).
    { rewrite Forall_forall in Hv. apply Hv. eapply nth_error_In; eauto. }
    assert (0 <= v * f) by (apply Qmult_le_0_compat; assumption).
    lra.
Qed.

(** One target value: the float accumulated from a float [acc] within [d]
    of [a] is within [d] plus [2^-42] per entry of the exact target value
    accumulated from [a]. *)
Lemma target_value_from_float_error (values : list float) :
  Forall (fun v => finite_nonneg v /\ Qof_float v < 2 ^ 7) values ->
  forall (rs : list (rule float)) (acc : float) (a d tQ : Q),
    Forall (fun r : rule float =>
              finite_nonneg (snd r) /\ Qof_float (snd r) < 2 ^ 2) rs ->
    finite_nonneg acc -> 0 <= a -> 0 <= d ->
    Qabs (Qof_float acc - a) <= d ->
    d + inject_Z (Z.of_nat (length rs)) * (1 # 4398046511104) <= 1 ->
    target_value_from Qplus Qmult a (map Qof_float values)
      (map (fun r : rule float => (fst r, Qof_float (snd r))) rs) = Some tQ ->
    tQ <= 256 ->
    exists t,
      target_value_from PrimFloat.add PrimFloat.mul acc values rs = Some t /\
      finite_nonneg t /\
      Qabs (Qof_float t - tQ)
      <= d + inject_Z (Z.of_nat (length rs)) * (1 # 4398046511104).
Proof.
  intros Hv rs.
  assert (HvQ : Forall (fun v => 0 <= v) (map Qof_float values)).
  { apply Forall_map. eapply Forall_impl; [|exact Hv].
    intros v [Hf _]. apply Qof_float_nonneg, Hf. }
  induction rs as [|[i f] rs IH]; intros acc a d tQ Hrs Hacc Ha Hd Hclose Hn HtQ Hub;
    cbn [target_value_from map length] in *.
  - injection HtQ as <-. exists acc. split; [reflexivity|].
    split; [exact Hacc|]. change (inject_Z (Z.of_nat 0)) with 0.
    apply Qabs_Qle_condition in Hclose. destruct Hclose as [Hc1 Hc2].
    apply Qabs_Qle_condition. split; lra.
  - unfold contribution in *. cbn [fst snd] in *.
    rewrite nth_error_map in HtQ.
    destruct (nth_error values i) as [v|] eqn:Ev; [|discriminate HtQ].
    cbn [option_map] in HtQ.
    inversion Hrs as [|r rs' [Hf Hf4] Hrs']; subst. cbn [snd] in Hf, Hf4.
    assert (Hvv : finite_nonneg v /\ Qof_float v < 2 ^ 7).
    { rewrite Forall_forall in Hv. apply Hv. eapply nth_error_In; eauto. }
    destruct Hvv as [Hvf Hv7].
    assert (HrsQ : Forall (fun r : rule Q => 0 <= snd r)
                     (map (fun r : rule float => (fst r, Qof_float (snd r))) rs)).
    { apply Forall_map. eapply Forall_impl; [|exact Hrs'].
      intros r [Hr _]. cbn [snd]. apply Qof_float_nonneg, Hr. }
    pose proof (target_value_from_ge _ _ HvQ HrsQ _ _ HtQ) as Hmono.
    pose proof (Qof_float_nonneg v Hvf) as Nv.
    pose proof (Qof_float_nonneg f Hf) as Nf.
    assert (Nc : 0 <= Qof_float v * Qof_float f)
      by (apply Qmult_le_0_compat; assumption).
    destruct (mul_error v f 7 2 Hvf Hf Hv7 Hf4 ltac:(lia) ltac:(lia) ltac:(lia))
      as [Hp Ep].
    rewrite Qpow2_m43 in Ep.
    apply Qabs_Qle_condition in Ep. destruct Ep as [Ep1 Ep2].
    apply Qabs_Qle_condition in Hclose. destruct Hclose as [Hc1 Hc2].
    rewrite Nat2Z.inj_succ in Hn |- *. unfold Z.succ in Hn |- *.
    rewrite inject_Z_plus in Hn |- *. change (inject_Z 1) with 1 in Hn |- *.
    assert (Nn : 0 <= inject_Z (Z.of_nat (length rs)))
      by (change 0 with (inject_Z 0); rewrite <- Zle_Qle; lia).
    assert (Hsum : Qof_float acc + Qof_float (v * f) < 2 ^ 9).
    { change (2 ^ 9) with 512. lra. }
    destruct (add_error acc (v * f)%float 9 Hacc Hp Hsum ltac:(lia)) as [Hs Es].
    rewrite Qpow2_m43' in Es.
    apply Qabs_Qle_condition in Es. destruct Es as [Es1 Es2].
    assert (G1 : 0 <= a + Qof_float v * Qof_float f) by lra.
    assert (G2 : 0 <= d + (1 # 4398046511104)) by lra.
    assert (G3 : Qabs (Qof_float (acc + v * f)
                       - (a + Qof_float v * Qof_float f))
                 <= d + (1 # 4398046511104))
      by (apply Qabs_Qle_condition; split; lra).
    assert (G4 : d + (1 # 4398046511104)
                 + inject_Z (Z.of_nat (length rs)) * (1 # 4398046511104) <= 1)
      by lra.
    destruct (IH (acc + v * f)%float (a + Qof_float v * Qof_float f)
                 (d + (1 # 4398046511104)) tQ Hrs' Hs G1 G2 G3 G4 HtQ Hub)
      as (t & Ht & Hft & Et).
    exists t. split; [exact Ht|]. split; [exact Hft|].
    apply Qabs_Qle_condition in Et. destruct Et as [Et1 Et2].
    apply Qabs_Qle_condition. split; lra.
Qed.

Lemma Qsum_nonneg (l : list Q) : Forall (fun v => 0 <= v) l -> 0 <= Qsum l.
Proof.
  induction 1 as [|v l Hv _ IH]; cbn [Qsum fold_right].
  - apply Qle_refl.
  - fold (Qsum l). lra.
Qed.

Lemma Qsum_ge_elem (l : list Q) (x : Q) :
  Forall (fun v => 0 <= v) l -> In x l -> x <= Qsum l.
Proof.
  induction 1 as [|v l Hv Hl IH]; intros Hin; [destruct Hin|].
  cbn [Qsum fold_right]. fold (Qsum l).
  pose proof (Qsum_nonneg l Hl) as Hs.
  destruct Hin as [<- | Hin]; [lra|]. specialize (IH Hin). lra.
Qed.

Lemma Qsum_abs_nonneg (l : list Q) :
  Forall (fun v => 0 <= v) l -> Qsum (map Qabs l) == Qsum l.
Proof.
  induction 1 as [|v l Hv _ IH]; cbn [map Qsum fold_right].
  - reflexivity.
  - fold (Qsum (map Qabs l)). fold (Qsum l).
    rewrite IH, (Qabs_pos v Hv). reflexivity.
Qed.

Lemma fraction_total_nonneg (rs : list (rule Q)) (i : nat) :
  Forall (fun r : rule Q => 0 <= snd r) rs -> 0 <= fraction_total rs i.
Proof.
  induction 1 as [|[j f] rs Hf _ IH]; cbn [fraction_total].
  - apply Qle_refl.
  - cbn [snd] in Hf. destruct (Nat.eqb j i); lra.
Qed.

(** No single fraction exceeds the total of the fractions taken from its
    source bin. *)
Lemma fraction_total_ge (rs : list (rule Q)) (i : nat) (f : Q) :
  Forall (fun r : rule Q => 0 <= snd r) rs ->
  In (i, f) rs -> f <= fraction_total rs i.
Proof.
  induction 1 as [|[j g] rs Hg Hrs IH]; intros Hin; [destruct Hin|].
  cbn [fraction_total]. cbn [snd] in Hg.
  pose proof (fraction_total_nonneg rs i Hrs) as Hn.
  destruct Hin as [E | Hin].
  - injection E as -> ->. rewrite Nat.eqb_refl. lra.
  - specialize (IH Hin). destruct (Nat.eqb j i); lra.
Qed.

Lemma remap_exact_nonneg (vQ : list Q) :
  Forall (fun v => 0 <= v) vQ ->
  forall (rulesQ : list (list (rule Q))) (outQ : list Q),
    Forall (Forall (fun r : rule Q => 0 <= snd r)) rulesQ ->
    remap_exact vQ rulesQ = Some outQ -> Forall (fun t => 0 <= t) outQ.
Proof.
  intros Hv. unfold remap_exact.
  induction rulesQ as [|rs rules IH]; intros outQ Hr H; cbn [remap] in H.
  - injection H as <-. constructor.
  - inversion Hr as [|? ? Hrs Hrest]; subst.
    destruct (target_value 0 Qplus Qmult vQ rs) as [t|] eqn:Et;
      [|discriminate H].
    destruct (remap 0 Qplus Qmult vQ rules) as [ts|] eqn:Ets;
      [|discriminate H].
    injection H as <-. constructor.
    + apply (target_value_from_ge vQ rs Hv Hrs 0 t Et).
    + apply IH; [exact Hrest | reflexivity].
Qed.

(** The binary64 remap against the exact remap of the same values by the
    same fractions: it returns as many values, finite and non-negative, and
    their sum is within [2^-42] per entry of the exact one. *)
Lemma remap_float_error (values : list float) :
  Forall (fun v => finite_nonneg v /\ Qof_float v < 2 ^ 7) values ->
  forall (rules : list (list (rule float))) (outQ : list Q),
    Forall (Forall (fun r : rule float =>
                      finite_nonneg (snd r) /\ Qof_float (snd r) < 2 ^ 2))
           rules ->
    Forall (fun rs : list (rule float) =>
              inject_Z (Z.of_nat (length rs)) * (1 # 4398046511104) <= 1)
           rules ->
    remap_exact (map Qof_float values) (rules_exact rules) = Some outQ ->
    Forall (fun t => t <= 256) outQ ->
    exists out,
      remap_float values rules = Some out /\
      length out = length rules /\
      Forall finite_nonneg out /\
      Qabs (Qsum (map Qof_float out) - Qsum outQ)
      <= inject_Z (Z.of_nat (length (concat rules))) * (1 # 4398046511104).
Proof.
  intros Hv. unfold remap_exact, remap_float, rules_exact.
  induction rules as [|rs rules IH]; intros outQ Hr Hn H Hub;
    cbn [remap map concat] in *.
  - injection H as <-. exists []. split; [reflexivity|].
    split; [reflexivity|]. split; [constructor|].
    cbn. discriminate.
  - inversion Hr as [|? ? Hrs Hrest]; subst.
    inversion Hn as [|? ? Hnrs Hnrest]; subst.
    unfold target_value in *.
    destruct (target_value_from Qplus Qmult 0 (map Qof_float values)
                (map (fun r : rule float => (fst r, Qof_float (snd r))) rs))
      as [tq|] eqn:Etq; [|discriminate H].
    destruct (remap 0 Qplus Qmult (map Qof_float values)
                (map (map (fun r : rule float => (fst r, Qof_float (snd r))))
                     rules)) as [tsq|] eqn:Etsq; [|discriminate H].
    injection H as <-.
    inversion Hub as [|? ? Hub1 Hub2]; subst.
    assert (G3 : Qabs (Qof_float 0 - 0) <= 0) by (cbn; discriminate).
    assert (G4 : 0 + inject_Z (Z.of_nat (length rs)) * (1 # 4398046511104) <= 1)
      by lra.
    destruct (target_value_from_float_error values Hv rs 0%float 0 0 tq
                Hrs finite_nonneg_zero (Qle_refl 0) (Qle_refl 0) G3 G4 Etq Hub1)
      as (t & Ht & Hft & Et).
    destruct (IH tsq Hrest Hnrest eq_refl Hub2) as (ts & Hts & Hlen & Hfts & Ets).
    rewrite Ht, Hts. exists (t :: ts). split; [reflexivity|].
    split; [cbn [length]; congruence|]. split; [constructor; assumption|].
    cbn [map Qsum fold_right].
    fold (Qsum (map Qof_float ts)). fold (Qsum tsq).
    rewrite length_app, Nat2Z.inj_add, inject_Z_plus.
    apply Qabs_Qle_condition in Et. destruct Et as [Et1 Et2].
    apply Qabs_Qle_condition in Ets. destruct Ets as [Ets1 Ets2].
    apply Qabs_Qle_condition. split; lra.
Qed.

Lemma exact_sum_floats (l : list float) :
  forall s, exact_sum (map VFloat l) = Some s ->
            s = Qsum (map Qof_float l) /\
            Forall (fun x => SF2Q (Prim2SF x) <> None) l.
Proof.
  induction l as [|x l IH]; intros s H; cbn [map exact_sum value_to_Q] in H.
  - injection H as <-. split; [reflexivity | constructor].
  - destruct (SF2Q (Prim2SF x)) as [q|] eqn:Eq; [|discriminate H].
    destruct (exact_sum (map VFloat l)) as [s'|] eqn:Es; [|discriminate H].
    injection H as <-. destruct (IH s' eq_refl) as [-> Hl].
    split.
    + assert (E : Qof_float x = q) by (unfold Qof_float; rewrite Eq; reflexivity).
      cbn [map Qsum fold_right]. rewrite E. reflexivity.
    + constructor; [rewrite Eq; discriminate | exact Hl].
Qed.

Lemma exact_sum_finite (l : list float) :
  Forall finite_nonneg l ->
  exact_sum (map VFloat l) = Some (Qsum (map Qof_float l)).
Proof.
  induction 1 as [|x l Hx _ IH]; cbn [map exact_sum value_to_Q].
  - reflexivity.
  - rewrite IH. apply finite_nonneg_SF in Hx.
    assert (E : SF2Q (Prim2SF x) = Some (Qof_float x))
      by (unfold Qof_float;
          destruct (Prim2SF x) as [s|s| |[] m e]; try contradiction;
          reflexivity).
    rewrite E. reflexivity.
Qed.

(** A distribution of floats: its values are finite and non-negative, and
    they add up to 100 give or take 1. *)
Lemma distribution_floats (values : list float) :
  distribution_ok (map VFloat values) ->
  Forall finite_nonneg values /\
  Qabs (Qsum (map Qof_float values) - 100) <= 1.
Proof.
  intros [Hnn Hsum]. unfold sums_to in Hsum.
  destruct (exact_sum (map VFloat values)) as [s|] eqn:Es; [|contradiction].
  destruct (exact_sum_floats values s Es) as [-> Hfin].
  split; [|exact Hsum].
  rewrite Forall_map in Hnn. rewrite Forall_forall in *.
  intros x Hx. specialize (Hnn x Hx). specialize (Hfin x Hx).
  cbn [nonneg_value] in Hnn. apply nonneg_SF in Hnn.
  apply finite_nonneg_SF.
  destruct (Prim2SF x) as [s|s| |[] m e]; try contradiction; exact I.
Qed.

(** Remapping a distribution in binary64: with finite non-negative
    fractions that add up, for each source bin, to 1 give or take [eps],
    the remap returns one finite non-negative value per target bin, and the
    total changes by at most [eps] times the total plus [2^-42] per entry
    of the rule set. *)
Lemma remap_float_mass (values : list float) (rules : list (list (rule float)))
      (eps : Q) :
  distribution_ok (map VFloat values) ->
  Forall (Forall (fun r : rule float => finite_nonneg (snd r))) rules ->
  0 <= eps <= 1 ->
  valid_rules eps (length values) (rules_exact rules) ->
  (Z.of_nat (length (concat rules)) <= 2 ^ 32)%Z ->
  exists out s_out s_src,
    remap_float values rules = Some out /\
    length out = length rules /\
    Forall finite_nonneg out /\
    exact_sum (map VFloat out) = Some s_out /\
    exact_sum (map VFloat values) = Some s_src /\
    Qabs (s_out - s_src)
    <= eps * s_src
       + inject_Z (Z.of_nat (length (concat rules))) * (1 # 4398046511104).
Proof.
  intros Hdist Hfr [He0 He1] Hvalid HN.
  destruct (distribution_floats values Hdist) as [Hfin Hsum].
  apply Qabs_Qle_condition in Hsum. destruct Hsum as [Hs1 Hs2].
  set (vQ := map Qof_float values) in *.
  assert (HvQ : Forall (fun v => 0 <= v) vQ).
  { apply Forall_map. eapply Forall_impl; [|exact Hfin].
    intros v Hv. apply Qof_float_nonneg, Hv. }
  assert (Hvalid' : valid_rules eps (length vQ) (rules_exact rules))
    by (unfold vQ; rewrite length_map; exact Hvalid).
  destruct (remap_exact_mass vQ (rules_exact rules) eps Hvalid')
    as (outQ & Ho & Hlo & Hmass).
  rewrite (Qsum_abs_nonneg vQ HvQ) in Hmass.
  apply Qabs_Qle_condition in Hmass. destruct Hmass as [Hm1 Hm2].
  assert (HrQ : Forall (Forall (fun r : rule Q => 0 <= snd r))
                  (rules_exact rules)).
  { unfold rules_exact. apply Forall_map.
    eapply Forall_impl; [|exact Hfr]. intros rs Hrs. apply Forall_map.
    eapply Forall_impl; [|exact Hrs]. intros r Hr. cbn [snd].
    apply Qof_float_nonneg, Hr. }
  (* each value is below 128 *)
  assert (Hv7 : Forall (fun v => finite_nonneg v /\ Qof_float v < 2 ^ 7) values).
  { rewrite Forall_forall in *. intros v Hv. split; [apply Hfin, Hv|].
    assert (Qof_float v <= Qsum vQ).
    { apply Qsum_ge_elem; [apply Forall_forall; exact HvQ|].
      unfold vQ. apply in_map, Hv. }
    change (2 ^ 7) with 128. lra. }
  (* each fraction is below 4 *)
  destruct Hvalid as [Hrange Hft].
  assert (HcQ : Forall (fun r : rule Q => 0 <= snd r)
                  (concat (rules_exact rules)))
    by (apply Forall_concat; exact HrQ).
  assert (Hf4 : Forall (Forall (fun r : rule float =>
                  finite_nonneg (snd r) /\ Qof_float (snd r) < 2 ^ 2)) rules).
  { rewrite Forall_forall. intros rs Hrs. rewrite Forall_forall.
    intros [i f] Hr. cbn [snd].
    assert (Hf : finite_nonneg f).
    { rewrite Forall_forall in Hfr. specialize (Hfr rs Hrs).
      rewrite Forall_forall in Hfr. apply (Hfr (i, f) Hr). }
    split; [exact Hf|].
    assert (Hin : In (i, Qof_float f) (concat (rules_exact rules))).
    { apply in_concat. exists (map (fun r : rule float =>
                                     (fst r, Qof_float (snd r))) rs).
      split; [unfold rules_exact; apply in_map, Hrs|].
      apply (in_map (fun r : rule float => (fst r, Qof_float (snd r)))
                    rs (i, f) Hr). }
    pose proof (fraction_total_ge _ i _ HcQ Hin) as Hle.
    assert (Hi : (i < length values)%nat).
    { unfold rules_in_range in Hrange. rewrite Forall_forall in Hrange.
      assert (Hrs' : In (map (fun r : rule float =>
                                (fst r, Qof_float (snd r))) rs)
                        (rules_exact rules))
        by (unfold rules_exact; apply in_map, Hrs).
      specialize (Hrange _ Hrs'). rewrite Forall_forall in Hrange.
      apply (Hrange (i, Qof_float f)).
      apply (in_map (fun r : rule float => (fst r, Qof_float (snd r)))
                    rs (i, f) Hr). }
    specialize (Hft i Hi). apply Qabs_Qle_condition in Hft.
    destruct Hft as [_ Hft]. change (2 ^ 2) with 4. lra. }
  (* each target has few enough entries *)
  assert (HNQ : inject_Z (Z.of_nat (length (concat rules)))
                * (1 # 4398046511104) <= 1 # 1024).
  { rewrite Zle_Qle in HN.
    change (inject_Z (2 ^ 32)) with 4294967296 in HN. lra. }
  assert (Hn : Forall (fun rs : list (rule float) =>
                 inject_Z (Z.of_nat (length rs)) * (1 # 4398046511104) <= 1)
               rules).
  { rewrite Forall_forall. intros rs Hrs.
    assert (Hlen : (length rs <= length (concat rules))%nat).
    { clear - Hrs. induction rules as [|r rules IH]; [destruct Hrs|].
      cbn [concat]. rewrite length_app.
      destruct Hrs as [-> | Hrs]; [lia | specialize (IH Hrs); lia]. }
    assert (inject_Z (Z.of_nat (length rs))
            <= inject_Z (Z.of_nat (length (concat rules))))
      by (rewrite <- Zle_Qle; lia).
    lra. }
  (* each exact target value is at most 256 *)
  pose proof (remap_exact_nonneg vQ HvQ _ _ HrQ Ho) as HoutQ.
  assert (Hub : Forall (fun t => t <= 256) outQ).
  { rewrite Forall_forall. intros t Ht.
    pose proof (Qsum_ge_elem outQ t HoutQ Ht) as Hle.
    assert (eps * Qsum vQ <= 1 * 101) by (apply Qmult_le_compat_nonneg; lra).
    lra. }
  destruct (remap_float_error values Hv7 rules outQ Hf4 Hn Ho Hub)
    as (out & Hout & Hlen & Hfout & Herr).
  exists out, (Qsum (map Qof_float out)), (Qsum vQ).
  split; [exact Hout|]. split; [exact Hlen|]. split; [exact Hfout|].
  split; [apply exact_sum_finite, Hfout|].
  split; [apply exact_sum_finite, Hfin|].
  apply Qabs_Qle_condition in Herr. destruct Herr as [Hr1 Hr2].
  apply Qabs_Qle_condition. split; lra.
Qed.

(** * Mass preservation *)

(** C1, as the spec states it, fails.  The source [[100.0]] is a
    distribution, and the rule set that sends its one bin to one target bin
    with the fraction 1.000001 has fractions that add up to 1 within 1e-6;
    yet the binary64 remap returns 100.0001 (to 13 digits), so the totals
    differ by more than 9e-5.  The spacing of binary64 numbers at 100 is
    [2^-46], about 1.4e-14: the difference is no rounding error but the
    tolerance of the fractions, scaled by the total. *)
Lemma remap_mass_counterexample :
  distribution_ok [VFloat 100] /\
  valid_rules (1 # 1000000) 1 (rules_exact [[part 0 1.000001]]) /\
  exists out,
    remap_float [100%float] [[part 0 1.000001]] = Some out /\
    ~ same_mass (9 # 100000) (map VFloat out) [VFloat 100].
Proof.
  split; [split; [repeat constructor | by_computation]|].
  split; [valid_rules_by_computation|].
  exists [(0 + 100 * 1.000001)%float]. split; [reflexivity|].
  intros H. vm_compute in H. apply H. reflexivity.
Qed.

(** C1, amended.  For every source distribution of floats (no negative
    value, the values adding up to 100 give or take 1) and every rule set
    of finite non-negative fractions whose entries name source bins and
    whose fractions add up, for each source bin, to 1 give or take [eps]
    (with [eps] at most 1 and at most [2^32] entries): the binary64 remap
    returns one finite non-negative value per target bin, and the exact sum
    of these values differs from the exact sum of the source values by at
    most [eps] times the source sum plus [2^-42] per entry.  With fractions
    that add up to exactly 1 only the rounding term is left.  For the
    script: the openSUSE and the Debian coarse lists are the binary64 remaps
    of their sources by rule tables that are valid up to 1e-6, and the exact
    sums of the coarse and of the source values differ by less than
    1e-12. *)
Theorem remap_preserves_mass :
  (forall (values : list float) (rules : list (list (rule float))) (eps : Q),
     distribution_ok (map VFloat values) ->
     Forall (Forall (fun r : rule float => finite_nonneg (snd r))) rules ->
     0 <= eps <= 1 ->
     valid_rules eps (length values) (rules_exact rules) ->
     (Z.of_nat (length (concat rules)) <= 2 ^ 32)%Z ->
     exists out s_out s_src,
       remap_float values rules = Some out /\
       length out = length rules /\
       Forall finite_nonneg out /\
       exact_sum (map VFloat out) = Some s_out /\
       exact_sum (map VFloat values) = Some s_src /\
       Qabs (s_out - s_src)
       <= eps * s_src
          + inject_Z (Z.of_nat (length (concat rules)))
            * (1 # 4398046511104)) /\
  (forall (values : list float) (rules : list (list (rule float))),
     distribution_ok (map VFloat values) ->
     Forall (Forall (fun r : rule float => finite_nonneg (snd r))) rules ->
     valid_rules 0 (length values) (rules_exact rules) ->
     (Z.of_nat (length (concat rules)) <= 2 ^ 32)%Z ->
     exists out s_out s_src,
       remap_float values rules = Some out /\
       exact_sum (map VFloat out) = Some s_out /\
       exact_sum (map VFloat values) = Some s_src /\
       Qabs (s_out - s_src)
       <= inject_Z (Z.of_nat (length (concat rules)))
          * (1 # 4398046511104)) /\
  (valid_rules (1 # 1000000) (length opensuse_values) (rules_exact opensuse_rules) /\
   exists cs fs vs,
     opensuse_coarse = Ok cs /\
     floats_of cs = Ok fs /\ floats_of opensuse_values = Ok vs /\
     remap_float vs opensuse_rules = Some fs /\
     same_mass (1 # 1000000000000) cs opensuse_values) /\
  (valid_rules (1 # 1000000) (length debian_counts) (rules_exact debian_rules) /\
   exists ds cs fs vs,
     debian_values = Ok ds /\ debian_coarse = Ok cs /\
     floats_of cs = Ok fs /\ floats_of ds = Ok vs /\
     remap_float vs debian_rules = Some fs /\
     same_mass (1 # 1000000000000) cs ds).
Proof.
  split; [exact remap_float_mass|]. split; [|split].
  - intros values rules Hd Hf Hv HN.
    destruct (remap_float_mass values rules 0 Hd Hf ltac:(lra) Hv HN)
      as (out & s_out & s_src & Ho & _ & _ & E1 & E2 & Hb).
    exists out, s_out, s_src.
    split; [exact Ho|]. split; [exact E1|]. split; [exact E2|].
    apply Qabs_Qle_condition in Hb. destruct Hb as [Hb1 Hb2].
    apply Qabs_Qle_condition. split; lra.
  - split; [valid_rules_by_computation|].
    do 3 eexists. split; [apply opensuse_coarse_eval|].
    split; [vm_compute; reflexivity|]. split; [vm_compute; reflexivity|].
    split; [vm_compute; reflexivity | by_computation].
  - split; [valid_rules_by_computation|].
    do 4 eexists. split; [apply debian_values_eval|].
    split; [apply debian_coarse_eval|].
    split; [vm_compute; reflexivity|]. split; [vm_compute; reflexivity|].
    split; [vm_compute; reflexivity | by_computation].
Qed.

(** The theorem at the openSUSE values and the openSUSE rule table. *)
Lemma remap_preserves_mass_witness :
  distribution_ok (map VFloat [19; 26; 42; 12.5]%float) /\
  Forall (Forall (fun r : rule float => finite_nonneg (snd r))) opensuse_rules /\
  0 <= (1 # 1000000) <= 1 /\
  valid_rules (1 # 1000000) (length [19; 26; 42; 12.5]%float)
              (rules_exact opensuse_rules) /\
  (Z.of_nat (length (concat opensuse_rules)) <= 2 ^ 32)%Z /\
  exists out s_out s_src,
    remap_float [19; 26; 42; 12.5]%float opensuse_rules = Some out /\
    length out = length opensuse_rules /\
    Forall finite_nonneg out /\
    exact_sum (map VFloat out) = Some s_out /\
    exact_sum (map VFloat [19; 26; 42; 12.5]%float) = Some s_src /\
    Qabs (s_out - s_src)
    <= (1 # 1000000) * s_src
       + inject_Z (Z.of_nat (length (concat opensuse_rules)))
         * (1 # 4398046511104).
Proof.
  assert (H1 : distribution_ok (map VFloat [19; 26; 42; 12.5]%float))
    by (split; [repeat constructor | by_computation]).
  assert (H2 : Forall (Forall (fun r : rule float => finite_nonneg (snd r)))
                      opensuse_rules)
    by (repeat constructor).
  assert (H3 : 0 <= (1 # 1000000) <= 1) by (split; discriminate).
  assert (H4 : valid_rules (1 # 1000000) (length [19; 26; 42; 12.5]%float)
                           (rules_exact opensuse_rules))
    by valid_rules_by_computation.
  assert (H5 : (Z.of_nat (length (concat opensuse_rules)) <= 2 ^ 32)%Z)
    by (vm_compute; discriminate).
  split; [exact H1|]. split; [exact H2|]. split; [exact H3|].
  split; [exact H4|]. split; [exact H5|].
  exact (proj1 remap_preserves_mass _ _ _ H1 H2 H3 H4 H5).
Defined.

Local Close Scope Q_scope.

(** * Counts to percentages, correctness *)

(** C2. For non-negative integer counts with a positive total, the
    conversion raises nothing and returns as many values as there are counts;
    the [i]-th is the float [count_i / total * 100], where [/] is Python's
    correctly rounded integer division and [*] the binary64 product, and it
    lies within 1e-13 of the exact quotient [100 * count_i / total].  It is
    the computation the script spells out for the Stack Overflow 2023 counts
    and for the Debian counts. *)
Theorem counts_to_percentages_correct :
  (stackoverflow_2023_values = counts_to_percentages stackoverflow_2023_counts /\
   debian_values = counts_to_percentages debian_counts) /\
  forall ns : list Z,
    Forall (fun c => 0 <= c) ns -> 0 < Zsum ns ->
    exists vs,
      counts_to_percentages (map VInt ns) = Ok vs /\
      length vs = length ns /\
      forall i c, nth_error ns i = Some c ->
        exists q, int_truediv c (Zsum ns) = Ok q /\
                  py_truediv (VInt c) (VInt (Zsum ns)) = Ok (VFloat q) /\
                  py_mul (VFloat q) (VInt 100) = Ok (VFloat (q * 100)) /\
                  nth_error vs i = Some (VFloat (q * 100)) /\
                  close_to (1 # 10000000000000) (VFloat (q * 100))
                           (100 * inject_Z c / inject_Z (Zsum ns))%Q.
Proof.
  split; [split; reflexivity|]. intros ns Hnn Hpos.
  destruct (counts_to_percentages_values ns Hnn Hpos) as (vs & Hvs & Hlen & Hnth).
  exists vs. split; [exact Hvs|]. split; [exact Hlen|].
  intros i c Hi. destruct (Hnth i c Hi) as (q & Hq & Hd & Hm & Hv).
  exists q. repeat (split; [assumption|]).
  pose proof (Zsum_ge ns Hnn) as Hge. rewrite Forall_forall in Hge.
  assert (Hc : 0 <= c <= Zsum ns) by (apply Hge; eapply nth_error_In; eauto).
  exact (percentage_close c (Zsum ns) q Hc Hpos Hq).
Qed.

(** The theorem at the Debian counts. *)
Lemma counts_to_percentages_correct_witness :
  Forall (fun c => 0 <= c) [15; 132; 378; 225; 57; 15] /\
  0 < Zsum [15; 132; 378; 225; 57; 15] /\
  exists vs,
    counts_to_percentages (map VInt [15; 132; 378; 225; 57; 15]) = Ok vs /\
    length vs = 6%nat /\
    forall i c, nth_error [15; 132; 378; 225; 57; 15] i = Some c ->
      exists v, nth_error vs i = Some v /\
                close_to (1 # 10000000000000) v (100 * inject_Z c / 822)%Q.
Proof.
  assert (H1 : Forall (fun c => 0 <= c) [15; 132; 378; 225; 57; 15])
    by (repeat constructor; lia).
  assert (H2 : 0 < Zsum [15; 132; 378; 225; 57; 15]) by (simpl; lia).
  split; [exact H1|]. split; [exact H2|].
  destruct (proj2 counts_to_percentages_correct _ H1 H2) as (vs & Hv & Hl & Hn).
  exists vs. split; [exact Hv|]. split; [exact Hl|].
  intros i c Hi. destruct (Hn i c Hi) as (q & _ & _ & _ & Hvi & Hclose).
  exists (VFloat (q * 100)). split; [exact Hvi | exact Hclose].
Defined.
